(** * Quantiphyse DCE-MRI pharmacokinetic modelling process

    A shallow embedding of [dce/process.py]: the worker function [_run_pk]
    that drives the [PyPk] fitting extension chunk by chunk, and the methods
    [run], [timeout] and [finished] of the class [PkModellingProcess].

    Number model.  The arrays of the source hold IEEE doubles.  Here a double
    is a value of [num]: [NaN], the two infinities, or a finite value kept as
    an exact rational ([Qc]).  The special values follow the IEEE rules that
    numpy applies ([inf * 0 = nan], [x / 0 = +-inf], every comparison with
    [nan] is false); finite arithmetic on array elements is exact, so their
    rounding, overflow and the sign of zero are left out.  Scalars that come
    from the option dictionary are Python floats, given by their exact
    values; the one computation on them whose result is truncated to an
    integer, the number of baseline points, is done in double arithmetic
    with its rounding.

    The source is read as Python 3: [/] is true division, also between
    integers.

    Array model.  An n-dimensional array is its shape and its elements in
    row-major order, which is the order [np.reshape] keeps.  An operation that
    numpy refuses on a shape mismatch raises here as well.  Where an operand
    comes from the engine, numpy's broadcasting of an axis of length one is
    modelled. *)

From Stdlib Require Import QArith Qcanon Qround.
From stdpp Require Import base decidable option list numbers strings gmap pretty.

Open Scope Qc_scope.

(** ** Doubles *)

Inductive num : Type :=
| NaN
| PInf
| NInf
| Fin (q : Qc).

#[global] Instance num_eq_dec : EqDecision num.
Proof. solve_decision. Defined.

#[global] Instance num_inhabited : Inhabited num := populate (Fin 0).

Module Num.

Definition of_Z (z : Z) : num := Fin (Qc_of_Z z).
Definition of_nat (n : nat) : num := of_Z (Z.of_nat n).

Definition zero : num := Fin 0.
Definition one : num := Fin 1.
Definition two : num := Fin 2.

(** [x * (cond)]: numpy turns a boolean into 1.0 or 0.0. *)
Definition of_bool (b : bool) : num := if b then one else zero.

Definition isnan (x : num) : bool :=
  match x with NaN => true | _ => false end.

Definition isinf (x : num) : bool :=
  match x with PInf | NInf => true | _ => false end.

Definition is_zero (x : num) : bool :=
  match x with Fin q => bool_decide (q = 0) | _ => false end.

Definition is_neg (x : num) : bool :=
  match x with NInf => true | Fin q => bool_decide (q < 0) | _ => false end.

Definition inf_of (negative : bool) : num := if negative then NInf else PInf.

Definition neg (x : num) : num :=
  match x with
  | NaN => NaN
  | PInf => NInf
  | NInf => PInf
  | Fin q => Fin (- q)
  end.

Definition add (x y : num) : num :=
  match x, y with
  | NaN, _ | _, NaN => NaN
  | PInf, NInf | NInf, PInf => NaN
  | PInf, _ | _, PInf => PInf
  | NInf, _ | _, NInf => NInf
  | Fin a, Fin b => Fin (a + b)
  end.

Definition sub (x y : num) : num := add x (neg y).

Definition mul (x y : num) : num :=
  match x, y with
  | NaN, _ | _, NaN => NaN
  | Fin a, Fin b => Fin (a * b)
  | _, _ =>
      if is_zero x || is_zero y then NaN
      else inf_of (xorb (is_neg x) (is_neg y))
  end.

Definition div (x y : num) : num :=
  match x, y with
  | NaN, _ | _, NaN => NaN
  | Fin a, Fin b =>
      if bool_decide (b = 0)
      then (if bool_decide (a = 0) then NaN else inf_of (bool_decide (a < 0)))
      else Fin (a / b)
  | Fin _, _ => zero
  | _, Fin _ => inf_of (xorb (is_neg x) (is_neg y))
  | _, _ => NaN
  end.

Definition ltb (x y : num) : bool :=
  match x, y with
  | NaN, _ | _, NaN => false
  | Fin a, Fin b => bool_decide (a < b)
  | NInf, NInf | PInf, _ | _, NInf => false
  | NInf, _ | _, PInf => true
  end.

Definition gtb (x y : num) : bool := ltb y x.

Definition eqb (x y : num) : bool :=
  match x, y with
  | NaN, _ | _, NaN => false
  | _, _ => bool_decide (x = y)
  end.

Definition leb (x y : num) : bool := ltb x y || eqb x y.
Definition geb (x y : num) : bool := leb y x.

End Num.

Declare Scope num_scope.
Delimit Scope num_scope with num.
Bind Scope num_scope with num.
Infix "+" := Num.add : num_scope.
Infix "-" := Num.sub : num_scope.
Infix "*" := Num.mul : num_scope.
Infix "/" := Num.div : num_scope.
Infix "<?" := Num.ltb : num_scope.
Infix ">?" := Num.gtb : num_scope.
Infix ">=?" := Num.geb : num_scope.

(** The additive guard of the source, [0.001]. *)
Definition eps : num := Fin (Q2Qc (1 # 1000)).

(** ** Exceptions and the state-and-exception monad *)

Inductive exn : Type :=
| QpException (msg : string)
| PyError (cls : string) (msg : string).

#[global] Instance exn_eq_dec : EqDecision exn.
Proof. solve_decision. Defined.

Definition ZeroDivisionError : exn := PyError "ZeroDivisionError" "division by zero".
Definition KeyError (key : string) : exn := PyError "KeyError" key.
Definition IndexError (msg : string) : exn := PyError "IndexError" msg.
Definition ValueError (msg : string) : exn := PyError "ValueError" msg.

(** A statement sequence that mutates an object of type [S] (the progress
    queue, or [self]) and may raise.  The state survives a raise, as the
    mutated object does in Python. *)
Definition M (S A : Type) : Type := S → S * (exn + A).

#[global] Instance M_ret {S} : MRet (M S) := λ A a s, (s, inr a).
#[global] Instance M_bind {S} : MBind (M S) := λ A B f m s,
  match m s with
  | (s', inl e) => (s', inl e)
  | (s', inr a) => f a s'
  end.

Definition raise {S A} (e : exn) : M S A := λ s, (s, inl e).
Definition modify {S} (f : S → S) : M S () := λ s, (f s, inr ()).
Definition gets {S A} (f : S → A) : M S A := λ s, (s, inr (f s)).

(** A call that does not touch the state but may raise. *)
Definition lift {S A} (r : exn + A) : M S A := λ s, (s, r).

(** Same for pure code that may raise. *)
#[global] Instance exn_ret : MRet (sum exn) := λ A a, inr a.
#[global] Instance exn_bind : MBind (sum exn) := λ A B f m,
  match m with
  | inl e => inl e
  | inr a => f a
  end.
#[global] Instance exn_fmap : FMap (sum exn) := λ A B f m,
  match m with
  | inl e => inl e
  | inr a => inr (f a)
  end.

(** ** The numpy and Python operations the process uses *)

Module np.

Record ndarray : Type := { shape : list nat; flat : list num }.

#[global] Instance ndarray_eq_dec : EqDecision ndarray.
Proof. solve_decision. Defined.

(** [np.around]: to the nearest integer, a tie to the even neighbour. *)
Definition around (q : Qc) : Z :=
  let f := Qfloor q in
  let r := q - Qc_of_Z f in
  let half := Q2Qc (1 # 2) in
  if bool_decide (r < half) then f
  else if bool_decide (half < r) then (f + 1)%Z
  else if Z.even f then f else (f + 1)%Z.

(** [np.mean] of a one-dimensional slice; the mean of no element is [nan]. *)
Definition sum (l : list num) : num := foldr Num.add Num.zero l.
Definition mean (l : list num) : num := (sum l / Num.of_nat (length l))%num.

(** [a[:k]] along one axis, with Python's reading of a negative [k]. *)
Definition slice_to {A} (k : Z) (l : list A) : list A :=
  if bool_decide (k < 0)%Z then take (length l - Z.to_nat (- k)) l
  else take (Z.to_nat k) l.

(** [np.reshape(a, (-1, T))] on the row-major elements: [n] rows of [T]. *)
Fixpoint rows (n T : nat) (l : list num) : list (list num) :=
  match n with
  | O => []
  | S n' => take T l :: rows n' T (drop T l)
  end.

Definition reshape_rows (T : nat) (l : list num) : exn + list (list num) :=
  if bool_decide (T = 0)%nat
  then inl (ValueError "cannot reshape array into shape (-1, 0)")
  else inr (rows (length l / T) T l).

(** [np.reshape(a, shape)] of a flat array. *)
Definition reshape (sh : list nat) (l : list num) : exn + ndarray :=
  if bool_decide (foldr Nat.mul 1%nat sh = length l)
  then inr {| shape := sh; flat := l |}
  else inl (ValueError "cannot reshape array").

(** [a[mask]] and [a[mask, :]] for a boolean [mask] along the first axis. *)
Fixpoint select {A} (mask : list bool) (a : list A) : list A :=
  match mask, a with
  | b :: mask', x :: a' => if b then x :: select mask' a' else select mask' a'
  | _, _ => []
  end.

Definition getitem {A} (mask : list bool) (a : list A) : exn + list A :=
  if bool_decide (length mask = length a) then inr (select mask a)
  else inl (IndexError "boolean index did not match indexed array").

(** [np.count_nonzero(mask)] *)
Fixpoint count_true (mask : list bool) : nat :=
  match mask with
  | [] => 0
  | b :: mask' => (if b then 1 else 0) + count_true mask'
  end.

(** [z = np.zeros(len(mask)); z[mask] = vals]: the values go to the
    [True] positions in order, the other positions keep [zero]. *)
Fixpoint scatter {A} (zero : A) (mask : list bool) (vals : list A) : list A :=
  match mask with
  | [] => []
  | true :: mask' =>
      match vals with
      | v :: vals' => v :: scatter zero mask' vals'
      | [] => zero :: scatter zero mask' []
      end
  | false :: mask' => zero :: scatter zero mask' vals
  end.

(** The values that [a[mask] = vals] writes to the [n] positions where the
    mask is true: [vals] when it has [n] elements; a single element is
    broadcast, that is repeated for every position; any other length is
    refused. *)
Definition broadcast_to {A} (n : nat) (vals : list A) : option (list A) :=
  if bool_decide (length vals = n) then Some vals
  else match vals with
       | [v] => Some (replicate n v)
       | _ => None
       end.

Definition setitem {A} (zero : A) (mask : list bool) (vals : list A) : exn + list A :=
  match broadcast_to (count_true mask) vals with
  | Some vs => inr (scatter zero mask vs)
  | None =>
      inl (ValueError "cannot assign the input values to the output values where the mask is true")
  end.

(** [m[:, k]] of a two-dimensional array given as its rows.  An empty
    result of the engine is a one-dimensional array, which has no columns. *)
Definition column (k : nat) (m : list (list num)) : exn + list num :=
  match m with
  | [] => inl (IndexError "too many indices for array")
  | _ =>
      match mapM (λ row : list num, row !! k) m with
      | Some c => inr c
      | None => inl (IndexError "index is out of bounds for axis 1")
      end
  end.

(** Element-wise binary operation on two one-dimensional arrays.  Its only
    use is on two arrays created with the length of the mask. *)
Definition elementwise (f : num → num → num) (a b : list num) : exn + list num :=
  if bool_decide (length a = length b) then inr (zip_with f a b)
  else inl (ValueError "operands could not be broadcast together").

(** Sorting, for [np.percentile]; the array holds no [nan] when it is sorted. *)
Fixpoint insert_sorted (x : num) (l : list num) : list num :=
  match l with
  | [] => [x]
  | y :: l' => if Num.leb x y then x :: l else y :: insert_sorted x l'
  end.

Definition sort (l : list num) : list num := foldr insert_sorted [] l.

(** The interpolation of [np.percentile] between two neighbours, at the
    fraction [g] of the gap: from the lower neighbour below the middle, from
    the upper one from the middle on. *)
Definition lerp (below above : num) (g : Qc) : num :=
  let diff := (above - below)%num in
  if bool_decide (Q2Qc (1 # 2) ≤ g) then (above - diff * Fin (1 - g))%num
  else (below + diff * Fin g)%num.

(** [np.percentile(a, q)] with the default linear interpolation, over all
    the elements of [a] whatever its shape: the value at the fractional
    rank [q/100 * (n-1)] of the sorted elements.  A [nan] among them gives
    [nan], as does an empty array. *)
Definition percentile (a : list num) (q : Qc) : exn + num :=
  if bool_decide (0 <= q) && bool_decide (q <= Qc_of_Z 100) then
    let n := length a in
    if bool_decide (n = 0)%nat || existsb Num.isnan a then inr NaN
    else
      let s := sort a in
      let h := q / Qc_of_Z 100 * Qc_of_Z (Z.of_nat (n - 1)) in
      let lo := Z.to_nat (Qfloor h) in
      let hi := Nat.min (lo + 1) (n - 1) in
      let g := h - Qc_of_Z (Qfloor h) in
      inr (lerp (s !!! lo) (s !!! hi) g)
  else inl (ValueError "Percentiles must be in the range [0, 100]").

End np.

(** ** Python floats

    Line 137 truncates a quotient of two options to an integer, so there the
    rounding of the doubles decides the result: [Double.round] is the
    rounding of IEEE binary64 (to nearest, ties to even, 53 bits, gradual
    underflow, overflow to infinity) of an exact value. *)

Module Double.

Definition pow2 (e : Z) : Qc :=
  Qc_of_Z (2 ^ Z.max e 0) / Qc_of_Z (2 ^ Z.max (- e) 0).

(** For [0 < q], the [m] with [2^(m-1) <= q < 2^m]: the logarithms of the
    numerator and of the denominator give it up to one. *)
Definition mag (q : Qc) : Z :=
  let l := (Z.log2 (Qnum q) - Z.log2 (Zpos (Qden q)))%Z in
  if bool_decide (pow2 l ≤ q) then (l + 1)%Z else l.

(** The double nearest to [0 < q]: a multiple of [2^e], where [e] leaves 53
    bits above it and is at least -1074; from [2^1024] on, infinity. *)
Definition round_pos (q : Qc) : num :=
  let e := Z.max (mag q - 53) (-1074) in
  let r := Qc_of_Z (np.around (q / pow2 e)) * pow2 e in
  if bool_decide (pow2 1024 ≤ r) then PInf else Fin r.

Definition round (q : Qc) : num :=
  if bool_decide (q = 0) then Fin 0
  else if bool_decide (q < 0) then Num.neg (round_pos (- q))
  else round_pos q.

End Double.

Definition OverflowError (msg : string) : exn := PyError "OverflowError" msg.

(** [a / b] on two floats, given by their exact values, raises on a zero
    divisor and rounds the quotient, which may overflow to an infinity;
    [x + y] rounds the sum; [int(x)] truncates towards zero and raises on an
    infinity or a [nan]. *)
Definition truediv (a b : Qc) : exn + num :=
  if bool_decide (b = 0) then inl ZeroDivisionError
  else inr (Double.round (a / b)).

Definition float_add (x y : num) : num :=
  match (x + y)%num with
  | Fin q => Double.round q
  | v => v
  end.

Definition int (x : num) : exn + Z :=
  match x with
  | Fin q => inr (Z.quot (Qnum q) (Zpos (Qden q)))
  | NaN => inl (ValueError "cannot convert float NaN to integer")
  | _ => inl (OverflowError "cannot convert float infinity to integer")
  end.

(** ** The fitting extension [PyPk]

    The extension module [pk_model] is compiled code outside this file: it is
    taken as any object with the eight entry points the worker calls, each of
    which may raise.  The object is stateful; [pk] is its state. *)

Record PyPk_class (pk : Type) : Type := {
  PyPk : list num → list (list num) → list num → exn + pk;
  set_bounds : list Qc → list Qc → pk → exn + pk;
  set_parameters : Qc → Qc → Qc → Qc → Qc → Qc → pk → exn + pk;
  rinit : Z → Qc → pk → exn + (pk * string);
  pk_run : Z → pk → exn + (pk * string);
  get_residual : pk → exn + list num;
  get_fitted_curve : pk → exn + list (list num);
  get_parameters : pk → exn + list (list num)
}.

Arguments PyPk {pk}.
Arguments set_bounds {pk}.
Arguments set_parameters {pk}.
Arguments rinit {pk}.
Arguments pk_run {pk}.
Arguments get_residual {pk}.
Arguments get_fitted_curve {pk}.
Arguments get_parameters {pk}.

(** ** The worker function *)

(** The positional arguments of [_run_pk] after the worker id and the queue,
    which is the list [args] that [run] hands to [start].  [img1sub] has
    shape [(len(img1sub), ncols)], also when it has no row. *)
Record fit_args : Type := {
  img1sub : list (list num);
  ncols : nat;
  t101sub : list num;
  r1 : Qc;
  r2 : Qc;
  delt : Qc;
  injt : Qc;
  tr1 : Qc;
  te1 : Qc;
  dce_flip_angle : Qc;
  dose : Qc;
  model_choice : Z
}.

#[global] Instance fit_args_eq_dec : EqDecision fit_args.
Proof. solve_decision. Defined.

(** What a successful worker returns: residuals, fitted curves, parameters
    and the log. *)
Record fit_output : Type := {
  res1 : list num;
  fcurve1 : list (list num);
  params2 : list (list num);
  fit_log : string
}.

#[global] Instance fit_output_eq_dec : EqDecision fit_output.
Proof. solve_decision. Defined.

(** The third component of the tuple the worker returns. *)
Inductive worker_value : Type :=
| Payload (out : fit_output)
| Failure (e : exn).

#[global] Instance worker_value_eq_dec : EqDecision worker_value.
Proof. solve_decision. Defined.

(** The progress queue: the tuples [put] so far, oldest first. *)
Definition queue : Type := list (num * num).

Definition queue_put (item : num * num) : M queue () := modify (λ q, q ++ [item]).

Section Worker.

Context {pk : Type} (Pk : PyPk_class pk).

Definition size_step (size_tot : nat) : Z :=
  Z.max 1 (np.around (Qc_of_Z (Z.of_nat size_tot) / Qc_of_Z 5)).

Definition steps1 (size_tot : nat) : Z :=
  np.around (Qc_of_Z (Z.of_nat size_tot) / Qc_of_Z (size_step size_tot)).

(** The loop [for ii in range(int(steps1))], from iteration [ii] on with
    [todo] iterations left.  [time.sleep] has no effect on the values. *)
Fixpoint run_chunks (num_row : num) (steps size : Z) (todo ii : nat)
    (Pkclass : pk) (log : string) : M queue (pk * string) :=
  match todo with
  | O => mret (Pkclass, log)
  | S todo' =>
      (if bool_decide (0 < ii)%nat
       then queue_put (num_row, Fin (Qc_of_Z (Z.of_nat ii) / Qc_of_Z steps * Qc_of_Z 100))
       else mret ());;
      '(Pkclass', l) ← lift (pk_run Pk size Pkclass);
      run_chunks num_row steps size todo' (S ii) Pkclass' (log +:+ l)
  end.

(** Lines 24 to 53 without the emptiness test: the unit conversions, the
    construction of the engine and its initialisation. *)
Definition pk_setup (a : fit_args) : exn + (pk * string) :=
  let t1 := (λ i : nat, Fin (Qc_of_Z (Z.of_nat i) * delt a / Qc_of_Z 60)) <$> seq 0 (ncols a) in
  let injtmins := injt a / Qc_of_Z 60 in
  let Dose := dose a in
  let dce_TR := tr1 a / Qc_of_Z 1000 in
  let dce_TE := te1 a / Qc_of_Z 1000 in
  let ub := [Qc_of_Z 10; 1; Q2Qc (1 # 2); Q2Qc (1 # 2)] in
  let lb := [0; Q2Qc (1 # 20); - Q2Qc (1 # 2); 0] in
  Pkclass ← PyPk Pk t1 (img1sub a) (t101sub a);
  Pkclass ← set_bounds Pk ub lb Pkclass;
  Pkclass ← set_parameters Pk (r1 a) (r2 a) (dce_flip_angle a) dce_TR dce_TE Dose Pkclass;
  '(Pkclass, l) ← rinit Pk (model_choice a) injtmins Pkclass;
  mret (Pkclass, "" +:+ l).

(** The body of the [try] block. *)
Definition run_pk_body (a : fit_args) : M queue fit_output :=
  if bool_decide (length (img1sub a) = 0)%nat
  then raise (QpException "Pk Modelling - no unmasked data found!")
  else
    '(Pkclass, log) ← lift (pk_setup a);
    let size_tot := length (img1sub a) in
    let num_row := Num.one in
    queue_put (num_row, Num.one);;
    '(Pkclass, log) ← run_chunks num_row (steps1 size_tot) (size_step size_tot)
                        (Z.to_nat (steps1 size_tot)) 0 Pkclass log;
    res ← lift (get_residual Pk Pkclass);
    fcurve ← lift (get_fitted_curve Pk Pkclass);
    params ← lift (get_parameters Pk Pkclass);
    queue_put (num_row, Num.of_Z 100);;
    mret {| res1 := res; fcurve1 := fcurve; params2 := params; fit_log := log |}.

(** [try: ... return worker_id, True, (...)]
    [except: return worker_id, False, sys.exc_info()[1]].
    The function returns the tuple; the queue it was given keeps what was
    put into it before a raise. *)
Definition _run_pk (worker_id : nat) (q : queue) (a : fit_args)
    : queue * (nat * bool * worker_value) :=
  match run_pk_body a q with
  | (q', inr out) => (q', (worker_id, true, Payload out))
  | (q', inl e) => (q', (worker_id, false, Failure e))
  end.

End Worker.

(** ** The process class *)

(** Matrices as lists of rows. *)
Definition tile_columns (v : list num) (T : nat) : list (list num) :=
  (λ b, replicate T b) <$> v.

Definition mat_map (f : num → num) (a : list (list num)) : list (list num) :=
  (λ row : list num, f <$> row) <$> a.

(** Element-wise binary operation on two matrices of one shape.  Its only
    use is the normalisation in [run], on two matrices that were built with
    one row for each selected voxel and one column for each time point. *)
Definition mat_elementwise (f : num → num → num) (a b : list (list num))
    : exn + list (list num) :=
  if bool_decide (length a = length b
                  ∧ Forall2 (λ ra rb : list num, length ra = length rb) a b)
  then inr (zip_with (zip_with f) a b)
  else inl (ValueError "operands could not be broadcast together").

(** *** Broadcasting

    Where an operand is an array that the engine returned, its shape is not
    known, and numpy pairs an axis of length one with an axis of any length
    by repeating its single entry.  A two-dimensional operand is kept with
    its shape, since rows alone do not tell the number of columns of an
    array without rows. *)
Record array2 : Type := { dim0 : nat; dim1 : nat; entries : list (list num) }.

(** The length of an axis of the result of a binary operation. *)
Definition bdim (a b : nat) : option nat :=
  if bool_decide (a = b) then Some a
  else if bool_decide (a = 1%nat) then Some b
  else if bool_decide (b = 1%nat) then Some a
  else None.

(** The index into an axis of length [len] that stands for the index [i] of
    the result. *)
Definition bindex (len i : nat) : nat := if bool_decide (len = 1%nat) then 0%nat else i.

Definition at2 (a : array2) (i t : nat) : num :=
  (entries a !!! bindex (dim0 a) i) !!! bindex (dim1 a) t.

Definition tabulate (R C : nat) (f : nat → nat → num) : list (list num) :=
  (λ i, (λ t, f i t) <$> seq 0 C) <$> seq 0 R.

(** An array of the engine as an operand.  Rows of one length are a
    two-dimensional array; no row at all is the empty one-dimensional array,
    which broadcasts as one row without columns; rows of different lengths
    are no array of numbers. *)
Definition operand (m : list (list num)) : exn + array2 :=
  match m with
  | [] => inr {| dim0 := 1; dim1 := 0; entries := [[]] |}
  | row :: _ =>
      if bool_decide (Forall (λ r : list num, length r = length row) m)
      then inr {| dim0 := length m; dim1 := length row; entries := m |}
      else inl (ValueError "setting an array element with a sequence")
  end.

Definition map2 (f : num → num) (a : array2) : array2 :=
  {| dim0 := dim0 a; dim1 := dim1 a; entries := mat_map f (entries a) |}.

(** [np.tile(np.expand_dims(v, axis=-1), (1, T))] *)
Definition tile (v : list num) (T : nat) : array2 :=
  {| dim0 := length v; dim1 := T; entries := tile_columns v T |}.

Definition broadcast2 (f : num → num → num) (a b : array2) : exn + array2 :=
  match bdim (dim0 a) (dim0 b), bdim (dim1 a) (dim1 b) with
  | Some R, Some C =>
      inr {| dim0 := R; dim1 := C;
             entries := tabulate R C (λ i t, f (at2 a i t) (at2 b i t)) |}
  | _, _ => inl (ValueError "operands could not be broadcast together")
  end.

(** [z = np.zeros((len(mask), T)); z[mask, :] = vals]: the values are
    broadcast to one row of [T] entries for each [True] entry of the mask. *)
Definition setitem_rows (T : nat) (mask : list bool) (vals : array2)
    : exn + list (list num) :=
  let n := np.count_true mask in
  if bool_decide ((dim0 vals = n ∨ dim0 vals = 1%nat) ∧ (dim1 vals = T ∨ dim1 vals = 1%nat))
  then inr (np.scatter (replicate T Num.zero) mask (tabulate n T (at2 vals)))
  else inl (ValueError "shape mismatch: value array could not be broadcast to indexing result").

(** The image volume manager, as far as the process reads it.  [std()] of a
    data object is its array on the standard grid. *)
Record ivm_t : Type := {
  main : option np.ndarray;
  current_roi : option np.ndarray;
  rois : gmap string np.ndarray;
  data : gmap string np.ndarray
}.

(** The option dictionary: a key that is absent is [None]. *)
Record options_t : Type := {
  opt_roi : option string;
  opt_suffix : option string;
  opt_r1 : option Qc;
  opt_r2 : option Qc;
  opt_dt : option Qc;
  opt_tinj : option Qc;
  opt_tr : option Qc;
  opt_te : option Qc;
  opt_fa : option Qc;
  opt_ve_thresh : option Qc;
  opt_dose : option Qc;
  opt_model : option Z
}.

(** [options.pop(key)] without a default. *)
Definition pop {S A} (key : string) (v : option A) : M S A :=
  match v with
  | Some x => mret x
  | None => raise (KeyError key)
  end.

Inductive status_t : Type := NOTSTARTED | RUNNING | FAILED | SUCCEEDED | CANCELLED.

#[global] Instance status_eq_dec : EqDecision status_t.
Proof. solve_decision. Defined.

(** The attributes of [self] the class reads and writes; [status] and
    [output] are set by the background-process machinery when the workers
    have returned. *)
Record self_t : Type := {
  log : string;
  suffix : string;
  thresh1val : Qc;
  roi1vec : option (list bool);
  baseline : option (list num);
  shape : list nat;
  status : status_t;
  output : list fit_output
}.

#[global] Instance self_eq_dec : EqDecision self_t.
Proof. solve_decision. Defined.

Definition set_log (f : string → string) (s : self_t) : self_t :=
  {| log := f (log s); suffix := suffix s; thresh1val := thresh1val s;
     roi1vec := roi1vec s; baseline := baseline s; shape := shape s;
     status := status s; output := output s |}.

Definition set_suffix (v : string) (s : self_t) : self_t :=
  {| log := log s; suffix := v; thresh1val := thresh1val s;
     roi1vec := roi1vec s; baseline := baseline s; shape := shape s;
     status := status s; output := output s |}.

Definition set_thresh1val (v : Qc) (s : self_t) : self_t :=
  {| log := log s; suffix := suffix s; thresh1val := v;
     roi1vec := roi1vec s; baseline := baseline s; shape := shape s;
     status := status s; output := output s |}.

Definition set_roi1vec (v : list bool) (s : self_t) : self_t :=
  {| log := log s; suffix := suffix s; thresh1val := thresh1val s;
     roi1vec := Some v; baseline := baseline s; shape := shape s;
     status := status s; output := output s |}.

Definition set_baseline (v : list num) (s : self_t) : self_t :=
  {| log := log s; suffix := suffix s; thresh1val := thresh1val s;
     roi1vec := roi1vec s; baseline := Some v; shape := shape s;
     status := status s; output := output s |}.

Definition set_shape (v : list nat) (s : self_t) : self_t :=
  {| log := log s; suffix := suffix s; thresh1val := thresh1val s;
     roi1vec := roi1vec s; baseline := baseline s; shape := v;
     status := status s; output := output s |}.

(** One call [self.ivm.add_data(data, name, make_current=...)]; the keyword
    is [None] where the call does not pass it. *)
Record add_data_call : Type := {
  ad_data : np.ndarray;
  ad_name : string;
  ad_make_current : option bool
}.

#[global] Instance add_data_call_eq_dec : EqDecision add_data_call.
Proof. solve_decision. Defined.

Module PkModellingProcess.

(** [__init__] *)
Definition init : self_t :=
  {| log := ""; suffix := ""; thresh1val := 0; roi1vec := None;
     baseline := None; shape := []; status := NOTSTARTED; output := [] |}.

(** [int(1 + InjT / DelT)], the number of leading time points averaged
    into the baseline, in the arithmetic of Python floats. *)
Definition baseline_tpts (InjT DelT : Qc) : exn + Z :=
  x ← truediv InjT DelT; int (float_add Num.one x).

(** [np.mean(img1[:, :, :, :baseline_tpts], axis=-1)], reshaped to one
    dimension: one mean for each voxel, over its sliced time series. *)
Definition voxel_series (img1 : np.ndarray) : list (list num) :=
  np.rows (foldr Nat.mul 1%nat (removelast (np.shape img1)))
          (List.last (np.shape img1) 0%nat) (np.flat img1).

Definition baseline_of (K : Z) (img1 : np.ndarray) : list num :=
  (λ series, np.mean (np.slice_to K series)) <$> voxel_series img1.

(** The denominator of the normalisation, and the normalisation
    [img1sub / (tile(baseline) + 0.001) - 1]. *)
Definition denominators (baseline : list num) (T : nat) : list (list num) :=
  mat_map (λ b, b + eps)%num (tile_columns baseline T).

Definition normalise (img1sub : list (list num)) (baseline : list num) (T : nat)
    : exn + list (list num) :=
  q ← mat_elementwise Num.div img1sub (denominators baseline T);
  mret (mat_map (λ x, x - Num.one)%num q).

(** [run]: the result is the call [self.start(1, args)] it ends with. *)
Definition run (ivm : ivm_t) (options : options_t)
    : M self_t (nat * fit_args) :=
  modify (set_log (λ _, ""));;
  roi ← match opt_roi options with
        | None => mret (current_roi ivm)
        | Some roi_name =>
            match rois ivm !! roi_name with
            | Some r => mret (Some r)
            | None => raise (QpException "Specified ROI not found")
            end
        end;
  modify (set_suffix (default "" (opt_suffix options)));;
  sfx ← gets suffix;
  (if bool_decide (sfx ≠ "") then modify (set_suffix ("_" +:+ sfx)) else mret ());;
  match main ivm with
  | None => raise (QpException "No data loaded")
  | Some img1 =>
      if bool_decide (length (np.shape img1) ≠ 4%nat)
      then raise (QpException "Data must be 4D for DCE PK modelling")
      else
        let T := List.last (np.shape img1) 0%nat in
        let roi1 := match roi with
                    | Some r => np.flat r
                    | None => replicate (foldr Nat.mul 1%nat (take 3 (np.shape img1))) Num.one
                    end in
        t101 ← pop "T10" (data ivm !! "T10");
        R1 ← pop "r1" (opt_r1 options);
        R2 ← pop "r2" (opt_r2 options);
        DelT ← pop "dt" (opt_dt options);
        InjT ← pop "tinj" (opt_tinj options);
        TR ← pop "tr" (opt_tr options);
        TE ← pop "te" (opt_te options);
        FA ← pop "fa" (opt_fa options);
        thresh ← pop "ve-thresh" (opt_ve_thresh options);
        modify (set_thresh1val thresh);;
        let Dose := default 0 (opt_dose options) in
        model ← pop "model" (opt_model options);
        K ← lift (baseline_tpts InjT DelT);
        modify (set_log (λ l, l +:+ "First " +:+ pretty K
                                +:+ " time points used for baseline normalisation" +:+ "
"));;
        let baseline := baseline_of K img1 in
        img1vec ← lift (np.reshape_rows T (np.flat img1));
        let T10vec := np.flat t101 in
        let roi1vec := (λ x, negb (Num.is_zero x)) <$> roi1 in
        modify (set_roi1vec roi1vec);;
        img1sub ← lift (np.getitem roi1vec img1vec);
        T101sub ← lift (np.getitem roi1vec T10vec);
        baseline_sub ← lift (np.getitem roi1vec baseline);
        modify (set_baseline baseline_sub);;
        img1sub ← lift (normalise img1sub baseline_sub T);
        modify (set_shape (np.shape img1));;
        mret (1%nat,
              {| img1sub := img1sub; ncols := T; t101sub := T101sub;
                 r1 := R1; r2 := R2; delt := DelT; injt := InjT;
                 tr1 := TR; te1 := TE; dce_flip_angle := FA; dose := Dose;
                 model_choice := model |})
  end.

(** [timeout], called by a timer while the worker runs: the queue is drained
    and the progress of the last tuple taken is emitted as a fraction.  The
    result is the queue that is left and the values emitted by
    [sig_progress]. *)
Fixpoint drain (q : queue) (progress : num) : queue * num :=
  match q with
  | [] => (q, progress)
  | (_, p) :: q' => drain q' p
  end.

Definition timeout (q : queue) : queue * list num :=
  match q with
  | [] => (q, [])
  | (_, p) :: q' =>
      let '(q'', progress) := drain q' p in
      (q'', [(progress / Num.of_Z 100)%num])
  end.

(** The timer ticks in the process that started the worker, while the
    worker runs: the puts of the worker and the calls of [timeout]
    interleave.  A tuple that arrives while the loop of [timeout] runs is
    taken by that loop, as if it had arrived before the call.  [play] gives
    the queue after a sequence of events and the values emitted meanwhile. *)
Inductive event : Type :=
| Put (item : num * num)
| Tick.

Fixpoint play (evs : list event) (q : queue) : queue * list num :=
  match evs with
  | [] => (q, [])
  | Put item :: evs' => play evs' (q ++ [item])
  | Tick :: evs' =>
      let '(q1, emitted) := timeout q in
      let '(q2, later) := play evs' q1 in
      (q2, emitted ++ later)
  end.

(** The tuples put by a sequence of events, in order. *)
Definition puts_of (evs : list event) : queue :=
  omap (λ e, match e with Put item => Some item | Tick => None end) evs.

(** *** Reconstruction of the parameter maps *)

(** [v * (v < 2.0) + 2 * (v > 2.0)], the clamp of lines 183 and 186. *)
Definition clip_upper (v : num) : num :=
  (v * Num.of_bool (v <? Num.two) + Num.two * Num.of_bool (v >? Num.two))%num.

(** [v *= (v > 0)] *)
Definition zero_negative (v : num) : num :=
  (v * Num.of_bool (v >? Num.zero))%num.

(** [v[isnan(v) | isinf(v)] = 0] *)
Definition zero_nonfinite (v : num) : num :=
  if Num.isnan v || Num.isinf v then Num.zero else v.

(** [v * (v < 2.0) + 2 * (v >= 2.0)], the clamp of line 192. *)
Definition clip_upper_ge (v : num) : num :=
  (v * Num.of_bool (v <? Num.two) + Num.two * Num.of_bool (v >=? Num.two))%num.

(** [vol[vol > p] = p] *)
Definition threshold (p : num) (vol : list num) : list num :=
  (λ v, if (v >? p)%num then p else v) <$> vol.

(** The flat arrays of lines 182 to 207, before they are reshaped. *)
Record maps_t : Type := {
  Ktrans1 : list num;
  ve1 : list num;
  kep1 : list num;
  offset1 : list num;
  vp1 : list num;
  estimated_curve1 : list (list num);
  residual1 : list num
}.

#[global] Instance maps_eq_dec : EqDecision maps_t.
Proof. solve_decision. Defined.

Definition attr {A} (name : string) (v : option A) : exn + A :=
  match v with
  | Some x => inr x
  | None => inl (PyError "AttributeError" name)
  end.

Definition reconstruct (self : self_t) (var1 : fit_output) : exn + maps_t :=
  roi1v ← attr "roi1vec" (roi1vec self);
  c0 ← np.column 0 (params2 var1);
  Ktrans ← np.setitem Num.zero roi1v (clip_upper <$> c0);
  c1 ← np.column 1 (params2 var1);
  ve ← np.setitem Num.zero roi1v (clip_upper <$> c1);
  let ve := zero_negative <$> ve in
  kep1p ← np.elementwise Num.div Ktrans ((λ v, v + eps)%num <$> ve);
  let kep1p := zero_nonfinite <$> kep1p in
  let kep1p := zero_negative <$> kep1p in
  let kep := clip_upper_ge <$> kep1p in
  c2 ← np.column 2 (params2 var1);
  offset ← np.setitem Num.zero roi1v c2;
  c3 ← np.column 3 (params2 var1);
  vp ← np.setitem Num.zero roi1v c3;
  T ← match List.last (Some <$> shape self) None with
      | Some T => mret T
      | None => inl (IndexError "list index out of range")
      end;
  bl ← attr "baseline" (baseline self);
  fcurve ← operand (fcurve1 var1);
  sig ← broadcast2 Num.mul (map2 (λ x, x + Num.one)%num fcurve) (tile bl T);
  curve ← setitem_rows T roi1v sig;
  residual ← np.setitem Num.zero roi1v (res1 var1);
  mret {| Ktrans1 := Ktrans; ve1 := ve; kep1 := kep; offset1 := offset;
          vp1 := vp; estimated_curve1 := curve; residual1 := residual |}.

(** [finished]: the result is the sequence of [add_data] calls it makes. *)
Definition finished : M self_t (list add_data_call) :=
  self ← gets id;
  match status self with
  | SUCCEEDED =>
      var1 ← match output self with
             | var1 :: _ => mret var1
             | [] => raise (IndexError "list index out of range")
             end;
      modify (set_log (λ l, l +:+ fit_log var1));;
      m ← lift (reconstruct self var1);
      Ktrans1vol ← lift (np.reshape (removelast (shape self)) (Ktrans1 m));
      ve1vol ← lift (np.reshape (removelast (shape self)) (ve1 m));
      offset1vol ← lift (np.reshape (removelast (shape self)) (offset1 m));
      vp1vol ← lift (np.reshape (removelast (shape self)) (vp1 m));
      kep1vol ← lift (np.reshape (removelast (shape self)) (kep1 m));
      estimated1vol ← lift (np.reshape (shape self) (concat (estimated_curve1 m)));
      p ← lift (np.percentile (np.flat Ktrans1vol) (thresh1val self));
      let Ktrans1vol := {| np.shape := np.shape Ktrans1vol;
                           np.flat := threshold p (np.flat Ktrans1vol) |} in
      p ← lift (np.percentile (np.flat kep1vol) (thresh1val self));
      let kep1vol := {| np.shape := np.shape kep1vol;
                        np.flat := threshold p (np.flat kep1vol) |} in
      mret [ {| ad_data := Ktrans1vol; ad_name := "ktrans" +:+ suffix self;
                ad_make_current := Some true |};
             {| ad_data := ve1vol; ad_name := "ve" +:+ suffix self;
                ad_make_current := None |};
             {| ad_data := kep1vol; ad_name := "kep" +:+ suffix self;
                ad_make_current := None |};
             {| ad_data := offset1vol; ad_name := "offset" +:+ suffix self;
                ad_make_current := None |};
             {| ad_data := vp1vol; ad_name := "vp" +:+ suffix self;
                ad_make_current := None |};
             {| ad_data := estimated1vol; ad_name := "model_curves" +:+ suffix self;
                ad_make_current := None |} ]
  | _ => mret []
  end.

End PkModellingProcess.

Import PkModellingProcess.

(** ** The kep formula in the words of the specification

    [kep = clamp(max(Ktrans / (ve + 0.001), 0), upper = 2.0)], where a
    quotient that is [nan] or infinite counts as 0. *)

Definition num_max (x y : num) : num := if (x <? y)%num then y else x.

Definition clamp_upper (upper x : num) : num := if (upper <? x)%num then upper else x.

Definition kep_spec (Ktrans ve : num) : num :=
  let quotient := (Ktrans / (ve + eps))%num in
  let quotient := if Num.isnan quotient || Num.isinf quotient then Num.zero else quotient in
  clamp_upper Num.two (num_max quotient Num.zero).

(** ** The configuration that [run] reads

    The values [run] has in hand when its checks have passed (lines 99 to
    138), and the rest of [run] as a function of them; the lemmas
    [run_configured] and [run_inr] relate both to [run]. *)

Record config : Type := {
  c_roi : option np.ndarray;
  c_img1 : np.ndarray;
  c_t101 : np.ndarray;
  c_R1 : Qc;
  c_R2 : Qc;
  c_DelT : Qc;
  c_InjT : Qc;
  c_TR : Qc;
  c_TE : Qc;
  c_FA : Qc;
  c_thresh : Qc;
  c_model : Z;
  c_K : Z
}.

Definition roi_of (ivm : ivm_t) (options : options_t) : exn + option np.ndarray :=
  match opt_roi options with
  | None => inr (current_roi ivm)
  | Some roi_name =>
      match rois ivm !! roi_name with
      | Some r => inr (Some r)
      | None => inl (QpException "Specified ROI not found")
      end
  end.

Definition configured (ivm : ivm_t) (options : options_t) (c : config) : Prop :=
  roi_of ivm options = inr (c_roi c)
  ∧ main ivm = Some (c_img1 c)
  ∧ length (np.shape (c_img1 c)) = 4%nat
  ∧ data ivm !! "T10" = Some (c_t101 c)
  ∧ opt_r1 options = Some (c_R1 c)
  ∧ opt_r2 options = Some (c_R2 c)
  ∧ opt_dt options = Some (c_DelT c)
  ∧ opt_tinj options = Some (c_InjT c)
  ∧ opt_tr options = Some (c_TR c)
  ∧ opt_te options = Some (c_TE c)
  ∧ opt_fa options = Some (c_FA c)
  ∧ opt_ve_thresh options = Some (c_thresh c)
  ∧ opt_model options = Some (c_model c)
  ∧ baseline_tpts (c_InjT c) (c_DelT c) = inr (c_K c).

(** The suffix [run] stores: an underscore and the option, or nothing. *)
Definition suffix_of (options : options_t) : string :=
  match opt_suffix options with
  | Some s => if bool_decide (s = "") then "" else "_" +:+ s
  | None => ""
  end.

(** The flattened mask: the ROI as booleans, all true without a ROI. *)
Definition mask_of (c : config) : list bool :=
  (λ x, negb (Num.is_zero x)) <$>
    match c_roi c with
    | Some r => np.flat r
    | None => replicate (foldr Nat.mul 1%nat (take 3 (np.shape (c_img1 c)))) Num.one
    end.

Definition time_points (c : config) : nat := List.last (np.shape (c_img1 c)) 0%nat.

(** [self] after line 138. *)
Definition self_configured (c : config) (options : options_t) (self : self_t) : self_t :=
  {| log := "" +:+ "First " +:+ pretty (c_K c)
              +:+ " time points used for baseline normalisation" +:+ "
";
     suffix := suffix_of options; thresh1val := c_thresh c;
     roi1vec := roi1vec self; baseline := baseline self; shape := shape self;
     status := status self; output := output self |}.

(** Lines 139 to 161. *)
Definition vectorise (c : config) (options : options_t) (self : self_t)
    : self_t * (exn + (nat * fit_args)) :=
  let T := time_points c in
  let s_a := self_configured c options self in
  match np.reshape_rows T (np.flat (c_img1 c)) with
  | inl e => (s_a, inl e)
  | inr img1vec =>
      let s_b := set_roi1vec (mask_of c) s_a in
      match np.getitem (mask_of c) img1vec with
      | inl e => (s_b, inl e)
      | inr img1sub0 =>
          match np.getitem (mask_of c) (np.flat (c_t101 c)) with
          | inl e => (s_b, inl e)
          | inr T101sub =>
              match np.getitem (mask_of c)
                      (baseline_of (c_K c) (c_img1 c)) with
              | inl e => (s_b, inl e)
              | inr bsub =>
                  let s_c := set_baseline bsub s_b in
                  match normalise img1sub0 bsub T with
                  | inl e => (s_c, inl e)
                  | inr nimg =>
                      (set_shape (np.shape (c_img1 c)) s_c,
                       inr (1%nat,
                            {| img1sub := nimg; ncols := T; t101sub := T101sub;
                               r1 := c_R1 c; r2 := c_R2 c; delt := c_DelT c;
                               injt := c_InjT c; tr1 := c_TR c; te1 := c_TE c;
                               dce_flip_angle := c_FA c;
                               dose := default 0 (opt_dose options);
                               model_choice := c_model c |}))
                  end
              end
          end
      end
  end.

(** The background-process machinery stores the status and the outputs of
    the workers in [self] before it calls [finished]. *)
Definition set_result (st : status_t) (out : list fit_output) (s : self_t) : self_t :=
  {| log := log s; suffix := suffix s; thresh1val := thresh1val s;
     roi1vec := roi1vec s; baseline := baseline s; shape := shape s;
     status := st; output := out |}.

(** The image, the ROI and the T10 map are arrays over one grid of voxels,
    and the image has at least one time point. *)
Definition on_one_grid (c : config) : Prop :=
  let n := foldr Nat.mul 1%nat (removelast (np.shape (c_img1 c))) in
  time_points c ≠ 0%nat
  ∧ length (np.flat (c_img1 c)) = (n * time_points c)%nat
  ∧ length (mask_of c) = n
  ∧ length (np.flat (c_t101 c)) = n.

(** The same data store with another main volume. *)
Definition set_main (img : np.ndarray) (ivm : ivm_t) : ivm_t :=
  {| main := Some img; current_roi := current_roi ivm; rois := rois ivm;
     data := data ivm |}.

(** The checks of [run] (lines 99 to 138) as one case analysis: the state
    they leave and the error they raise or the configuration they pass on;
    the lemma [run_checks_vectorise] relates it to [run]. *)
Definition run_checks (ivm : ivm_t) (options : options_t) (self : self_t)
    : self_t * (exn + config) :=
  let s0 := set_log (λ _, "") self in
  match roi_of ivm options with
  | inl e => (s0, inl e)
  | inr roi =>
  let s1 := set_suffix (suffix_of options) s0 in
  match main ivm with
  | None => (s1, inl (QpException "No data loaded"))
  | Some img1 =>
  if bool_decide (length (np.shape img1) ≠ 4%nat)
  then (s1, inl (QpException "Data must be 4D for DCE PK modelling"))
  else
  match data ivm !! "T10" with None => (s1, inl (KeyError "T10")) | Some t101 =>
  match opt_r1 options with None => (s1, inl (KeyError "r1")) | Some R1 =>
  match opt_r2 options with None => (s1, inl (KeyError "r2")) | Some R2 =>
  match opt_dt options with None => (s1, inl (KeyError "dt")) | Some DelT =>
  match opt_tinj options with None => (s1, inl (KeyError "tinj")) | Some InjT =>
  match opt_tr options with None => (s1, inl (KeyError "tr")) | Some TR =>
  match opt_te options with None => (s1, inl (KeyError "te")) | Some TE =>
  match opt_fa options with None => (s1, inl (KeyError "fa")) | Some FA =>
  match opt_ve_thresh options with
  | None => (s1, inl (KeyError "ve-thresh"))
  | Some thresh =>
  let s2 := set_thresh1val thresh s1 in
  match opt_model options with None => (s2, inl (KeyError "model")) | Some model =>
  match baseline_tpts InjT DelT with
  | inl e => (s2, inl e)
  | inr K =>
      (s2, inr {| c_roi := roi; c_img1 := img1; c_t101 := t101; c_R1 := R1;
                  c_R2 := R2; c_DelT := DelT; c_InjT := InjT; c_TR := TR;
                  c_TE := TE; c_FA := FA; c_thresh := thresh; c_model := model;
                  c_K := K |})
  end end end end end end end end end end end end end.

(** The keys that [run] needs and does not find, in the order in which it
    looks them up: the T10 map in the data store, then the options without a
    default. *)
Definition missing_keys (ivm : ivm_t) (options : options_t) : list string :=
  let absent {A} (key : string) (v : option A) : list string :=
    match v with Some _ => [] | None => [key] end in
  absent "T10" (data ivm !! "T10") ++ absent "r1" (opt_r1 options)
  ++ absent "r2" (opt_r2 options) ++ absent "dt" (opt_dt options)
  ++ absent "tinj" (opt_tinj options) ++ absent "tr" (opt_tr options)
  ++ absent "te" (opt_te options) ++ absent "fa" (opt_fa options)
  ++ absent "ve-thresh" (opt_ve_thresh options) ++ absent "model" (opt_model options).

(** The six [add_data] calls, given the flat maps and the two thresholds. *)
Definition add_data_calls (self : self_t) (m : maps_t) (pK pkep : num)
    : list add_data_call :=
  let sh := removelast (shape self) in
  [ {| ad_data := {| np.shape := sh; np.flat := threshold pK (Ktrans1 m) |};
       ad_name := "ktrans" +:+ suffix self; ad_make_current := Some true |};
    {| ad_data := {| np.shape := sh; np.flat := ve1 m |};
       ad_name := "ve" +:+ suffix self; ad_make_current := None |};
    {| ad_data := {| np.shape := sh; np.flat := threshold pkep (kep1 m) |};
       ad_name := "kep" +:+ suffix self; ad_make_current := None |};
    {| ad_data := {| np.shape := sh; np.flat := offset1 m |};
       ad_name := "offset" +:+ suffix self; ad_make_current := None |};
    {| ad_data := {| np.shape := sh; np.flat := vp1 m |};
       ad_name := "vp" +:+ suffix self; ad_make_current := None |};
    {| ad_data := {| np.shape := shape self; np.flat := concat (estimated_curve1 m) |};
       ad_name := "model_curves" +:+ suffix self; ad_make_current := None |} ].

(** Column [k] of the parameter matrix as [finished] writes it to the [n]
    masked voxels: one value for each of them, the value of a matrix of one
    row being given to all. *)
Definition masked_column (n k : nat) (params : list (list num)) : exn + list num :=
  c ← np.column k params;
  match np.broadcast_to n c with
  | Some v => inr v
  | None => inl (ValueError "cannot assign the input values to the output values where the mask is true")
  end.

(** A value that is not below zero: [nan], or finite and non-negative. *)
Definition not_negative (x : num) : Prop := x = NaN ∨ ∃ q, x = Fin q ∧ 0 ≤ q.

(** What the worker may put into the queue: the placeholder row 1 and a
    percentage above 0 and at most 100. *)
Definition progress_item (item : num * num) : Prop :=
  item.1 = Num.one ∧ ∃ x, item.2 = Fin x ∧ 0 < x ∧ x ≤ Qc_of_Z 100.

(** A finite double. *)
Definition finite (x : num) : Prop := ∃ q, x = Fin q.

(** A finite double between two bounds. *)
Definition within (lo hi : Qc) (v : num) : Prop := ∃ q, v = Fin q ∧ lo ≤ q ∧ q ≤ hi.

(** The result of a worker fits the state [run] left in [self]: for each
    selected voxel, of which there is at least one, a residual, a curve of
    as many points as the image has time points, and a row of at least four
    parameters. *)
Definition fit_matches (self : self_t) (var1 : fit_output) : Prop :=
  ∃ mask bl sh T,
    roi1vec self = Some mask ∧ baseline self = Some bl ∧ shape self = sh ++ [T]
    ∧ foldr Nat.mul 1%nat sh = length mask
    ∧ length bl = np.count_true mask
    ∧ (0 < np.count_true mask)%nat
    ∧ length (res1 var1) = np.count_true mask
    ∧ length (fcurve1 var1) = np.count_true mask
    ∧ Forall (λ row : list num, length row = T) (fcurve1 var1)
    ∧ length (params2 var1) = np.count_true mask
    ∧ Forall (λ row : list num, (4 ≤ length row)%nat) (params2 var1).

(** The percentage of the last tuple of a queue, [lo] for an empty one. *)
Fixpoint last_pct (lo : num) (q : queue) : num :=
  match q with
  | [] => lo
  | (_, p) :: q' => last_pct p q'
  end.

(** The percentages of the tuples rise strictly, starting above [lo]. *)
Fixpoint rising (lo : num) (q : queue) : Prop :=
  match q with
  | [] => True
  | (_, p) :: q' => (lo <? p)%num = true ∧ rising p q'
  end.

(** ** Sample engines and inputs

    Stand-ins for the compiled extension, used to run the model on concrete
    inputs. *)

Module Samples.

(** [n] voxels with one time point each, all options set to one. *)
Definition voxels (n : nat) : fit_args :=
  {| img1sub := replicate n [Num.zero]; ncols := 1; t101sub := replicate n Num.one;
     r1 := 1; r2 := 1; delt := 1; injt := 1; tr1 := 1; te1 := 1;
     dce_flip_angle := 1; dose := 0; model_choice := 1 |}.

(** An engine that records the chunk size of every [run] call and hands
    the record back as its residuals. *)
Definition chunk_recorder : PyPk_class (list Z) :=
  {| PyPk := λ _ _ _, inr [];
     set_bounds := λ _ _ s, inr s;
     set_parameters := λ _ _ _ _ _ _ s, inr s;
     rinit := λ _ _ s, inr (s, "");
     pk_run := λ size s, inr (s ++ [size], "");
     get_residual := λ s, inr (Num.of_Z <$> s);
     get_fitted_curve := λ _, inr [];
     get_parameters := λ _, inr [] |}.

(** An engine that counts its [run] calls and raises on the second. *)
Definition fit_diverged : exn := PyError "RuntimeError" "fit diverged".

Definition fails_on_second_chunk : PyPk_class nat :=
  {| PyPk := λ _ _ _, inr 0%nat;
     set_bounds := λ _ _ s, inr s;
     set_parameters := λ _ _ _ _ _ _ s, inr s;
     rinit := λ _ _ s, inr (s, "");
     pk_run := λ _ s, if bool_decide (s = 1%nat) then inl fit_diverged
                      else inr (S s, "chunk;");
     get_residual := λ _, inr [];
     get_fitted_curve := λ _, inr [];
     get_parameters := λ _, inr [] |}.

(** An engine that fits nothing: every voxel gets the parameter row it
    was built with, a zero residual and a zero curve. *)
Definition stub (row : list num) : PyPk_class (nat * nat) :=
  {| PyPk := λ t1 img _, inr (length img, length t1);
     set_bounds := λ _ _ s, inr s;
     set_parameters := λ _ _ _ _ _ _ s, inr s;
     rinit := λ _ _ s, inr (s, "init;");
     pk_run := λ _ s, inr (s, "run;");
     get_residual := λ s, inr (replicate s.1 Num.zero);
     get_fitted_curve := λ s, inr (replicate s.1 (replicate s.2 Num.zero));
     get_parameters := λ s, inr (replicate s.1 row) |}.

Definition dec (n : Z) (d : positive) : num := Fin (Q2Qc (n # d)).

(** Two voxels with two time points each, [1, 3] and [2, 4]; a ROI that
    keeps the first voxel only. *)
Definition img : np.ndarray :=
  {| np.shape := [2; 1; 1; 2]%nat; np.flat := Num.of_Z <$> [1; 3; 2; 4]%Z |}.

Definition ones : np.ndarray :=
  {| np.shape := [2; 1; 1]%nat; np.flat := [Num.one; Num.one] |}.

Definition first_voxel : np.ndarray :=
  {| np.shape := [2; 1; 1]%nat; np.flat := [Num.one; Num.zero] |}.

Definition no_voxel : np.ndarray :=
  {| np.shape := [2; 1; 1]%nat; np.flat := [Num.zero; Num.zero] |}.

Definition ivm (image : np.ndarray) : ivm_t :=
  {| main := Some image; current_roi := None;
     rois := {[ "first" := first_voxel; "none" := no_voxel ]};
     data := {[ "T10" := ones ]} |}.

(** Sampling interval 1, injection at [tinj], percentile [thresh]. *)
Definition options (roi : option string) (sfx : string) (tinj thresh : Z) : options_t :=
  {| opt_roi := roi; opt_suffix := Some sfx;
     opt_r1 := Some 1; opt_r2 := Some 1; opt_dt := Some 1;
     opt_tinj := Some (Qc_of_Z tinj); opt_tr := Some 1; opt_te := Some 1;
     opt_fa := Some 1; opt_ve_thresh := Some (Qc_of_Z thresh);
     opt_dose := None; opt_model := Some 1%Z |}.

(** The double nearest to 0.1. *)
Definition tenth : Qc := Q2Qc (3602879701896397 # 36028797018963968).

(** The double just below 2, [2 - 2^-52]. *)
Definition below_two : Qc := Q2Qc (9007199254740991 # 4503599627370496).

(** The options with an injection time and a sampling interval. *)
Definition timed (tinj dt : Qc) : options_t :=
  {| opt_roi := None; opt_suffix := None;
     opt_r1 := Some 1; opt_r2 := Some 1; opt_dt := Some dt;
     opt_tinj := Some tinj; opt_tr := Some 1; opt_te := Some 1;
     opt_fa := Some 1; opt_ve_thresh := Some (Qc_of_Z 50);
     opt_dose := None; opt_model := Some 1%Z |}.

(** Two voxels with the given time series. *)
Definition two_voxels (T : nat) (a b : list Z) : np.ndarray :=
  {| np.shape := [2; 1; 1; T]%nat; np.flat := Num.of_Z <$> (a ++ b) |}.

(** A whole pipeline run: [run], the worker with the stub engine, and
    [self] as [finished] finds it. *)
Definition self_after_run (image : np.ndarray) (o : options_t) : self_t :=
  (run (ivm image) o init).1.

Definition started (image : np.ndarray) (o : options_t) : nat * fit_args :=
  match (run (ivm image) o init).2 with
  | inr call => call
  | inl _ => (0%nat, voxels 0)
  end.

Definition worker_output (row : list num) (image : np.ndarray) (o : options_t)
    : list fit_output :=
  match _run_pk (stub row) 0 [] (started image o).2 with
  | (_, (_, _, Payload out)) => [out]
  | _ => []
  end.

Definition fitted (row : list num) (image : np.ndarray) (o : options_t) : fit_output :=
  default {| res1 := []; fcurve1 := []; params2 := []; fit_log := "" |}
          (head (worker_output row image o)).

Definition self_at_finish (row : list num) (image : np.ndarray) (o : options_t)
    : self_t :=
  set_result SUCCEEDED (worker_output row image o) (self_after_run image o).

(** A worker result of one row: one residual, one curve of two points and
    one row of parameters. *)
Definition one_row : fit_output :=
  {| res1 := [Num.zero]; fcurve1 := [[Num.one; Num.two]];
     params2 := [[Num.one; Num.one; dec 1 2; dec 1 4]]; fit_log := "" |}.

(** An engine that knows model 1 only: [rinit] raises for any other. *)
Definition unknown_model : exn := PyError "RuntimeError" "unknown model".

Definition one_model : PyPk_class (nat * nat) :=
  {| PyPk := PyPk (stub []);
     set_bounds := set_bounds (stub []);
     set_parameters := set_parameters (stub []);
     rinit := λ model _ s, if bool_decide (model = 1%Z) then inr (s, "")
                           else inl unknown_model;
     pk_run := pk_run (stub []);
     get_residual := get_residual (stub []);
     get_fitted_curve := get_fitted_curve (stub []);
     get_parameters := get_parameters (stub []) |}.

(** The same arguments with model 2. *)
Definition model_two (a : fit_args) : fit_args :=
  {| img1sub := img1sub a; ncols := ncols a; t101sub := t101sub a;
     r1 := r1 a; r2 := r2 a; delt := delt a; injt := injt a; tr1 := tr1 a;
     te1 := te1 a; dce_flip_angle := dce_flip_angle a; dose := dose a;
     model_choice := 2 |}.

End Samples.

(** * Properties of the worker *)

(** Unfolding of a bind in the state-and-exception monad. *)
Lemma M_bind_unfold {S A B} (m : M S A) (f : A → M S B) (s : S) :
  (m ≫= f) s = match m s with
               | (s', inl e) => (s', inl e)
               | (s', inr a) => f a s'
               end.
Proof. reflexivity. Qed.

Section WorkerFacts.

Context {pk : Type} (Pk : PyPk_class pk).

(** One iteration of the chunk loop. *)
Lemma run_chunks_step num_row steps size todo ii Pkclass log q :
  run_chunks Pk num_row steps size (S todo) ii Pkclass log q =
  let q1 := if bool_decide (0 < ii)%nat
            then q ++ [(num_row, Fin (Qc_of_Z (Z.of_nat ii) / Qc_of_Z steps * Qc_of_Z 100))]
            else q in
  match pk_run Pk size Pkclass with
  | inl e => (q1, inl e)
  | inr (Pkclass', l) =>
      run_chunks Pk num_row steps size todo (S ii) Pkclass' (log +:+ l) q1
  end.
Proof.
  cbn [run_chunks]. rewrite M_bind_unfold.
  destruct (bool_decide (0 < ii)%nat); cbn;
    rewrite M_bind_unfold; unfold lift;
    destruct (pk_run Pk size Pkclass) as [e | [P' l]]; reflexivity.
Qed.

(** If the first [i] chunks are fitted and the engine raises on the next
    one, the loop raises that exception. *)
Lemma run_chunks_raises num_row steps size e :
  ∀ i n ii Pkclass log q q_i P_i log_i,
    (i < n)%nat →
    run_chunks Pk num_row steps size i ii Pkclass log q = (q_i, inr (P_i, log_i)) →
    pk_run Pk size P_i = inl e →
    ∃ q', run_chunks Pk num_row steps size n ii Pkclass log q = (q', inl e).
Proof.
  induction i as [| i IH]; intros n ii Pkclass log q q_i P_i log_i Hlt Hi He.
  - destruct n as [| n]; [lia |].
    cbn in Hi. injection Hi as <- <- <-.
    rewrite run_chunks_step, He. eauto.
  - destruct n as [| n]; [lia |].
    rewrite run_chunks_step in Hi. rewrite run_chunks_step.
    destruct (pk_run Pk size Pkclass) as [e' | [P' l]]; [discriminate |].
    cbn zeta in *. eapply IH; [lia | exact Hi | exact He].
Qed.

(** Whatever the [try] block raises is what the worker returns. *)
Lemma run_pk_catches worker_id q a q' e :
  run_pk_body Pk a q = (q', inl e) →
  _run_pk Pk worker_id q a = (q', (worker_id, false, Failure e)).
Proof. intros H. unfold _run_pk. rewrite H. reflexivity. Qed.

Lemma run_pk_returns worker_id q a :
  ∃ q' ok v, _run_pk Pk worker_id q a = (q', (worker_id, ok, v)).
Proof.
  unfold _run_pk. destruct (run_pk_body Pk a q) as [q' [e | out]]; eauto.
Qed.

(** The [try] block, once the selection is not empty and the engine is
    set up. *)
Lemma run_pk_body_unfold a q Pkclass log :
  length (img1sub a) ≠ 0%nat →
  pk_setup Pk a = inr (Pkclass, log) →
  run_pk_body Pk a q =
  let size_tot := length (img1sub a) in
  match run_chunks Pk Num.one (steps1 size_tot) (size_step size_tot)
                   (Z.to_nat (steps1 size_tot)) 0 Pkclass log
                   (q ++ [(Num.one, Num.one)]) with
  | (q1, inl e) => (q1, inl e)
  | (q1, inr (Pkclass', log')) =>
      match get_residual Pk Pkclass' with
      | inl e => (q1, inl e)
      | inr res =>
          match get_fitted_curve Pk Pkclass' with
          | inl e => (q1, inl e)
          | inr fcurve =>
              match get_parameters Pk Pkclass' with
              | inl e => (q1, inl e)
              | inr params =>
                  (q1 ++ [(Num.one, Num.of_Z 100)],
                   inr {| res1 := res; fcurve1 := fcurve; params2 := params;
                          fit_log := log' |})
              end
          end
      end
  end.
Proof.
  intros Hne Hsetup. unfold run_pk_body.
  rewrite bool_decide_eq_false_2 by exact Hne.
  rewrite M_bind_unfold. unfold lift at 1. rewrite Hsetup.
  rewrite M_bind_unfold. cbn [queue_put modify].
  rewrite M_bind_unfold. cbn zeta.
  destruct (run_chunks _ _ _ _ _ _ _ _ _) as [q1 [e | [P' log']]]; [reflexivity |].
  rewrite M_bind_unfold. unfold lift at 1.
  destruct (get_residual Pk P') as [e | res]; [reflexivity |].
  rewrite M_bind_unfold. unfold lift at 1.
  destruct (get_fitted_curve Pk P') as [e | fcurve]; [reflexivity |].
  rewrite M_bind_unfold. unfold lift at 1.
  destruct (get_parameters Pk P') as [e | params]; reflexivity.
Qed.

(** An empty selection: the worker raises before it builds the engine
    and before it puts anything into the queue, and returns the error. *)
Lemma run_pk_empty worker_id q a :
  img1sub a = [] →
  _run_pk Pk worker_id q a =
    (q, (worker_id, false,
         Failure (QpException "Pk Modelling - no unmasked data found!"))).
Proof.
  intros H. apply run_pk_catches. unfold run_pk_body. rewrite H. reflexivity.
Qed.

End WorkerFacts.

(** C8. An exception that the fitting engine raises while the worker fits
    its chunks does not leave the worker function: if the engine was set up,
    the first [i] calls of its [run] succeed and the next call raises [e],
    then [_run_pk] returns the tuple (worker id, [False], [e]). *)
Theorem worker_returns_engine_exception {pk : Type} (Pk : PyPk_class pk)
    (worker_id : nat) (q : queue) (a : fit_args)
    (Pkclass : pk) (log : string) (i : nat)
    (q_i : queue) (P_i : pk) (log_i : string) (e : exn) :
  length (img1sub a) ≠ 0%nat →
  pk_setup Pk a = inr (Pkclass, log) →
  (i < Z.to_nat (steps1 (length (img1sub a))))%nat →
  run_chunks Pk Num.one (steps1 (length (img1sub a))) (size_step (length (img1sub a)))
             i 0 Pkclass log (q ++ [(Num.one, Num.one)]) = (q_i, inr (P_i, log_i)) →
  pk_run Pk (size_step (length (img1sub a))) P_i = inl e →
  ∃ q', _run_pk Pk worker_id q a = (q', (worker_id, false, Failure e)).
Proof.
  intros Hne Hsetup Hlt Hi He.
  destruct (run_chunks_raises Pk _ _ _ e i _ _ _ _ _ _ _ _ Hlt Hi He) as [q' Hq'].
  exists q'. apply run_pk_catches.
  rewrite (run_pk_body_unfold Pk a q Pkclass log Hne Hsetup).
  cbn zeta. rewrite Hq'. reflexivity.
Qed.

Lemma worker_returns_engine_exception_witness :
  ∃ q', _run_pk Samples.fails_on_second_chunk 7 [] (Samples.voxels 5)
        = (q', (7%nat, false, Failure Samples.fit_diverged)).
Proof.
  apply (worker_returns_engine_exception Samples.fails_on_second_chunk 7 []
           (Samples.voxels 5) 0%nat "" 1
           [(Num.one, Num.one)] 1%nat "chunk;" Samples.fit_diverged).
  - vm_compute. discriminate.
  - reflexivity.
  - vm_compute. lia.
  - vm_compute. reflexivity.
  - vm_compute. reflexivity.
Defined.

(** The chunk loop calls the engine once per iteration, each time with the
    same chunk size. *)
Lemma run_chunks_recorded num_row steps size :
  ∀ todo ii s log q,
    ∃ q' log',
      run_chunks Samples.chunk_recorder num_row steps size todo ii s log q
      = (q', inr (s ++ replicate todo size, log')).
Proof.
  induction todo as [| todo IH]; intros ii s log q.
  - cbn. rewrite app_nil_r. eauto.
  - rewrite run_chunks_step. cbn [pk_run Samples.chunk_recorder]. cbn zeta.
    match goal with
    | |- context [run_chunks _ _ _ _ todo (S ii) ?s1 ?l1 ?q1] =>
        destruct (IH (S ii) s1 l1 q1) as (q' & log' & ->)
    end.
    exists q', log'. rewrite <- app_assoc. reflexivity.
Qed.

(** For every non-empty selection of [N] voxels the worker calls the
    engine's [run] exactly [round(N / size_step)] times, each time with
    chunk size [size_step = max(1, round(N / 5))]. *)
Lemma worker_chunk_calls worker_id q a :
  length (img1sub a) ≠ 0%nat →
  let N := length (img1sub a) in
  ∃ q' out,
    _run_pk Samples.chunk_recorder worker_id q a = (q', (worker_id, true, Payload out))
    ∧ res1 out = Num.of_Z <$> replicate (Z.to_nat (steps1 N)) (size_step N).
Proof.
  intros Hne N. unfold _run_pk.
  rewrite (run_pk_body_unfold Samples.chunk_recorder a q [] "" Hne eq_refl).
  cbn zeta. fold N.
  destruct (run_chunks_recorded Num.one (steps1 N) (size_step N)
              (Z.to_nat (steps1 N)) 0 [] "" (q ++ [(Num.one, Num.one)]))
    as (q' & log' & ->).
  cbn. eauto.
Qed.

(** C4, at a selection of 13 voxels: the chunk size is 3 and the engine is
    run 4 times, so the calls cover 12 voxels and the last voxel is never
    handed to the engine. *)
Theorem thirteen_voxels_run_in_four_chunks_of_three :
  size_step 13 = 3%Z
  ∧ steps1 13 = 4%Z
  ∧ (size_step 13 * steps1 13 < 13)%Z
  ∧ ∃ q out,
      _run_pk Samples.chunk_recorder 0 [] (Samples.voxels 13)
        = (q, (0%nat, true, Payload out))
      ∧ res1 out = Num.of_Z <$> [3; 3; 3; 3]%Z.
Proof.
  split; [vm_compute; reflexivity |].
  split; [vm_compute; reflexivity |].
  split; [vm_compute; reflexivity |].
  destruct (worker_chunk_calls 0 [] (Samples.voxels 13)) as (q & out & Hrun & Hres).
  - vm_compute. discriminate.
  - exists q, out. split; [exact Hrun |]. rewrite Hres. vm_compute. reflexivity.
Qed.

(** * Properties of the reconstruction *)

(** ** Element-wise facts *)

Lemma Fin_mul_of_bool (q : Qc) (b : bool) :
  (Fin q * Num.of_bool b)%num = Fin (if b then q else 0).
Proof. destruct b; cbn; f_equal; ring. Qed.

Lemma Fin_add (a b : Qc) : (Fin a + Fin b)%num = Fin (a + b).
Proof. reflexivity. Qed.

Lemma Fin_ltb (a b : Qc) : (Fin a <? Fin b)%num = bool_decide (a < b).
Proof. reflexivity. Qed.

Lemma Fin_gtb (a b : Qc) : (Fin a >? Fin b)%num = bool_decide (b < a).
Proof. reflexivity. Qed.

Lemma Fin_geb (a b : Qc) : (Fin a >=? Fin b)%num = bool_decide (b ≤ a).
Proof.
  unfold Num.geb, Num.leb, Num.eqb. rewrite Fin_ltb.
  destruct (decide (b < a)) as [Hlt | Hnlt].
  - rewrite (bool_decide_eq_true_2 _ Hlt). cbn.
    symmetry. apply bool_decide_eq_true_2, Qclt_le_weak, Hlt.
  - rewrite (bool_decide_eq_false_2 _ Hnlt). cbn.
    destruct (decide (b = a)) as [-> | Hne].
    + rewrite !bool_decide_eq_true_2; [reflexivity | apply Qcle_refl | reflexivity].
    + rewrite !bool_decide_eq_false_2; [reflexivity | | congruence].
      intros Hle. apply Qcle_lt_or_eq in Hle as [? | ?]; [auto | ].
      contradiction.
Qed.

Lemma Qc_two_pos : (0 : Qc) < 2.
Proof. compute_done. Qed.

Lemma clip_upper_Fin (q : Qc) :
  clip_upper (Fin q) = Fin (if bool_decide (q < 2) then q
                            else if bool_decide (2 < q) then 2 else 0).
Proof.
  unfold clip_upper, Num.two. rewrite !Fin_mul_of_bool, Fin_ltb, Fin_gtb, Fin_add.
  f_equal. repeat case_bool_decide; try ring.
  exfalso. eapply Qclt_not_le; [eassumption |]. apply Qclt_le_weak. assumption.
Qed.

Lemma clip_upper_below (q : Qc) : q < 2 → clip_upper (Fin q) = Fin q.
Proof. intros Hq. rewrite clip_upper_Fin, bool_decide_eq_true_2; done. Qed.

Lemma clip_upper_above (q : Qc) : 2 < q → clip_upper (Fin q) = Fin 2.
Proof.
  intros Hq. rewrite clip_upper_Fin.
  rewrite bool_decide_eq_false_2 by (apply Qcle_not_lt, Qclt_le_weak, Hq).
  rewrite bool_decide_eq_true_2; done.
Qed.

Lemma clip_upper_two : clip_upper (Fin 2) = Fin 0.
Proof. compute_done. Qed.

Lemma zero_negative_Fin (q : Qc) :
  zero_negative (Fin q) = Fin (if bool_decide (0 < q) then q else 0).
Proof. unfold zero_negative. rewrite Fin_mul_of_bool. reflexivity. Qed.

Lemma clip_upper_ge_Fin (q : Qc) :
  clip_upper_ge (Fin q) = Fin (if bool_decide (q < 2) then q else 2).
Proof.
  unfold clip_upper_ge, Num.two. rewrite !Fin_mul_of_bool, Fin_ltb, Fin_geb, Fin_add.
  f_equal. repeat case_bool_decide; try ring.
  - exfalso. eapply Qclt_not_le; eassumption.
  - exfalso. eauto using Qcnot_lt_le.
Qed.

Lemma zero_nonfinite_Fin (x : num) : ∃ q, zero_nonfinite x = Fin q.
Proof. destruct x; cbn; eauto. Qed.

(** Lines 190 to 192 on one element, against the formula of the
    specification. *)
Lemma kep_pipeline_spec (x : num) :
  clip_upper_ge (zero_negative (zero_nonfinite x))
  = clamp_upper Num.two (num_max (zero_nonfinite x) Num.zero).
Proof.
  destruct (zero_nonfinite_Fin x) as [q ->].
  rewrite zero_negative_Fin, clip_upper_ge_Fin.
  unfold num_max, clamp_upper, Num.zero, Num.two. rewrite Fin_ltb.
  pose proof Qc_two_pos as H2.
  destruct (decide (0 < q)) as [Hpos | Hnpos].
  - rewrite (bool_decide_eq_true_2 _ Hpos).
    rewrite (bool_decide_eq_false_2 (q < 0)) by (apply Qcle_not_lt, Qclt_le_weak, Hpos).
    rewrite Fin_ltb.
    destruct (decide (q < 2)) as [Hlt | Hge].
    + rewrite (bool_decide_eq_true_2 _ Hlt).
      rewrite bool_decide_eq_false_2 by (apply Qcle_not_lt, Qclt_le_weak, Hlt).
      reflexivity.
    + rewrite (bool_decide_eq_false_2 _ Hge).
      apply Qcnot_lt_le, Qcle_lt_or_eq in Hge as [Hgt | Heq].
      * rewrite (bool_decide_eq_true_2 _ Hgt). reflexivity.
      * subst q.
        rewrite bool_decide_eq_false_2; [reflexivity | apply Qcle_not_lt, Qcle_refl].
  - rewrite (bool_decide_eq_false_2 _ Hnpos).
    rewrite (bool_decide_eq_true_2 (0 < 2)) by exact H2.
    assert (Fin 0 = if bool_decide (q < 0) then Fin 0 else Fin q) as <-.
    { case_bool_decide as Hneg; [reflexivity |].
      f_equal. apply Qcle_antisym; apply Qcnot_lt_le; assumption. }
    rewrite Fin_ltb, bool_decide_eq_false_2; [reflexivity |].
    apply Qcle_not_lt, Qclt_le_weak, H2.
Qed.

(** ** Inversion of the exception monads *)

Lemma exn_bind_inr {A B} (m : exn + A) (f : A → exn + B) (b : B) :
  m ≫= f = inr b → ∃ a, m = inr a ∧ f a = inr b.
Proof. destruct m as [e | a]; [discriminate | eauto]. Qed.

Lemma exn_bind_ret (A B : Type) (a : A) (f : A → exn + B) : inr a ≫= f = f a.
Proof. reflexivity. Qed.

Lemma M_bind_inr {S A B} (m : M S A) (f : A → M S B) (s s' : S) (b : B) :
  (m ≫= f) s = (s', inr b) → ∃ s1 a, m s = (s1, inr a) ∧ f a s1 = (s', inr b).
Proof.
  rewrite M_bind_unfold. destruct (m s) as [s1 [e | a]]; [discriminate | eauto].
Qed.

Lemma lift_inr {S A} (r : exn + A) (s s' : S) (a : A) :
  lift r s = (s', inr a) → s' = s ∧ r = inr a.
Proof. unfold lift. intros [= <- ->]. auto. Qed.

(** A successful sequence of statements: peel off its first statement. *)
Tactic Notation "exn_step" hyp(H) "as" ident(x) ident(Hx) :=
  apply exn_bind_inr in H as (x & Hx & H).

Tactic Notation "lifted_step" hyp(H) "as" ident(x) ident(Hx) :=
  let s := fresh "s" in
  apply M_bind_inr in H as (s & x & Hx & H);
  apply lift_inr in Hx as [-> Hx].

(** ** Masked reads and writes *)

Lemma scatter_length {A} (zero : A) mask vals :
  length (np.scatter zero mask vals) = length mask.
Proof.
  revert vals. induction mask as [| [] mask IH]; intros vals; cbn; [done | |].
  - destruct vals; cbn; by rewrite IH.
  - by rewrite IH.
Qed.

(** A position outside the mask keeps the zero it was created with. *)
Lemma scatter_outside {A} (zero : A) mask vals i :
  mask !! i = Some false → np.scatter zero mask vals !! i = Some zero.
Proof.
  revert vals i. induction mask as [| b mask IH]; intros vals i Hi; [done |].
  destruct i as [| i]; cbn in Hi.
  - injection Hi as ->. reflexivity.
  - destruct b; cbn; [destruct vals |]; cbn; by apply IH.
Qed.

(** Reading the masked positions back gives the values written. *)
Lemma select_scatter {A} (zero : A) mask vals :
  length vals = np.count_true mask →
  np.select mask (np.scatter zero mask vals) = vals.
Proof.
  revert vals.
  induction mask as [| [] mask IH]; intros vals Hlen; cbn in *.
  - by destruct vals.
  - destruct vals as [| v vals]; [done |]. cbn in *. f_equal. apply IH. lia.
  - by apply IH.
Qed.

Lemma select_all_false {A} mask (a : list A) :
  Forall (λ b, b = false) mask → np.select mask a = [].
Proof.
  intros H. revert a. induction H as [| b mask -> _ IH]; intros a; [by destruct a |].
  destruct a; cbn; [done | apply IH].
Qed.

Lemma broadcast_to_length {A} (n : nat) (vals vs : list A) :
  np.broadcast_to n vals = Some vs → length vs = n.
Proof.
  unfold np.broadcast_to. case_bool_decide as Hn; [by intros [= <-] |].
  destruct vals as [| v [| ? ?]]; intros [= <-]. apply length_replicate.
Qed.

Lemma broadcast_to_same {A} (n : nat) (vals : list A) :
  length vals = n → np.broadcast_to n vals = Some vals.
Proof. intros H. unfold np.broadcast_to. by rewrite bool_decide_eq_true_2. Qed.

Lemma broadcast_to_fmap {A B} (f : A → B) (n : nat) (vals : list A) (vs : list B) :
  np.broadcast_to n (f <$> vals) = Some vs →
  ∃ vs', np.broadcast_to n vals = Some vs' ∧ vs = f <$> vs'.
Proof.
  unfold np.broadcast_to. rewrite length_fmap.
  case_bool_decide as Hn; [intros [= <-]; eauto |].
  destruct vals as [| v [| ? ?]]; intros [= <-].
  eexists. split; [reflexivity |]. by rewrite fmap_replicate.
Qed.

Lemma broadcast_to_Forall {A} (P : A → Prop) (n : nat) (vals vs : list A) :
  np.broadcast_to n vals = Some vs → Forall P vals → Forall P vs.
Proof.
  unfold np.broadcast_to. case_bool_decide as Hn; [by intros [= <-] |].
  destruct vals as [| v [| ? ?]]; intros [= <-] Hv.
  apply Forall_replicate. by apply Forall_inv in Hv.
Qed.

Lemma setitem_inr {A} (zero : A) mask vals l :
  np.setitem zero mask vals = inr l →
  ∃ vs, np.broadcast_to (np.count_true mask) vals = Some vs
        ∧ length vs = np.count_true mask
        ∧ l = np.scatter zero mask vs.
Proof.
  unfold np.setitem.
  destruct (np.broadcast_to _ _) as [vs |] eqn:Hvs; [| done].
  intros [= <-]. exists vs. split; [done |]. split; [| done].
  by eapply broadcast_to_length.
Qed.

Lemma tabulate_length (R C : nat) (f : nat → nat → num) : length (tabulate R C f) = R.
Proof. unfold tabulate. by rewrite length_fmap, length_seq. Qed.

Lemma tabulate_rows (R C : nat) (f : nat → nat → num) :
  Forall (λ row : list num, length row = C) (tabulate R C f).
Proof.
  unfold tabulate. apply Forall_fmap, Forall_forall. intros i _. cbn.
  by rewrite length_fmap, length_seq.
Qed.

Lemma setitem_rows_inr (T : nat) mask (vals : array2) (l : list (list num)) :
  setitem_rows T mask vals = inr l →
  (dim0 vals = np.count_true mask ∨ dim0 vals = 1%nat)
  ∧ (dim1 vals = T ∨ dim1 vals = 1%nat)
  ∧ l = np.scatter (replicate T Num.zero) mask
          (tabulate (np.count_true mask) T (at2 vals)).
Proof.
  unfold setitem_rows. cbv zeta. case_bool_decide as H; [| done].
  intros [= <-]. destruct H. auto.
Qed.

Lemma masked_column_inr (n k : nat) (params : list (list num)) (v : list num) :
  masked_column n k params = inr v →
  ∃ c, np.column k params = inr c ∧ np.broadcast_to n c = Some v ∧ length v = n.
Proof.
  unfold masked_column. intros H. exn_step H as c Hc.
  destruct (np.broadcast_to n c) as [v' |] eqn:Hv; [| done].
  injection H as <-. exists c. split; [done |]. split; [done |].
  by eapply broadcast_to_length.
Qed.

Lemma masked_column_intro (n k : nat) (params : list (list num)) (c v : list num) :
  np.column k params = inr c → np.broadcast_to n c = Some v →
  masked_column n k params = inr v.
Proof. intros Hc Hv. unfold masked_column. rewrite Hc. cbn. by rewrite Hv. Qed.

Lemma elementwise_inr f a b l :
  np.elementwise f a b = inr l → length a = length b ∧ l = zip_with f a b.
Proof. unfold np.elementwise. case_bool_decide; [intros [= <-]; auto | done]. Qed.

Lemma reshape_inr sh l v :
  np.reshape sh l = inr v →
  np.shape v = sh ∧ np.flat v = l ∧ foldr Nat.mul 1%nat sh = length l.
Proof. unfold np.reshape. case_bool_decide; [intros [= <-]; auto | done]. Qed.

Lemma tile_columns_rows v T :
  Forall (λ row : list num, length row = T) (tile_columns v T).
Proof.
  unfold tile_columns. apply Forall_fmap, Forall_forall. intros b _. cbn.
  apply length_replicate.
Qed.

Lemma zip_rows_length f (a b : list (list num)) T :
  Forall (λ row : list num, length row = T) b →
  Forall2 (λ ra rb : list num, length ra = length rb) a b →
  Forall (λ row : list num, length row = T) (zip_with (zip_with f) a b).
Proof.
  intros Hb Hab. induction Hab as [| ra rb a b Hr _ IH]; cbn; [constructor |].
  apply Forall_cons in Hb as [Hrb Hb]. constructor; [| by apply IH].
  rewrite length_zip_with. lia.
Qed.

(** ** What [reconstruct] computes *)

Lemma reconstruct_inr self var1 m :
  reconstruct self var1 = inr m →
  ∃ roi1v c0 c1 c2 c3,
    roi1vec self = Some roi1v
    ∧ masked_column (np.count_true roi1v) 0 (params2 var1) = inr c0
    ∧ masked_column (np.count_true roi1v) 1 (params2 var1) = inr c1
    ∧ masked_column (np.count_true roi1v) 2 (params2 var1) = inr c2
    ∧ masked_column (np.count_true roi1v) 3 (params2 var1) = inr c3
    ∧ length c0 = np.count_true roi1v
    ∧ length c1 = np.count_true roi1v
    ∧ length c2 = np.count_true roi1v
    ∧ length c3 = np.count_true roi1v
    ∧ Ktrans1 m = np.scatter Num.zero roi1v (clip_upper <$> c0)
    ∧ ve1 m = zero_negative <$> np.scatter Num.zero roi1v (clip_upper <$> c1)
    ∧ kep1 m = clip_upper_ge <$> (zero_negative <$> (zero_nonfinite <$>
                 zip_with Num.div (Ktrans1 m) ((λ v, v + eps)%num <$> ve1 m)))
    ∧ offset1 m = np.scatter Num.zero roi1v c2
    ∧ vp1 m = np.scatter Num.zero roi1v c3
    ∧ ∃ T sig, List.last (shape self) 0%nat = T
        ∧ shape self ≠ []
        ∧ length sig = np.count_true roi1v
        ∧ estimated_curve1 m = np.scatter (replicate T Num.zero) roi1v sig
        ∧ Forall (λ row : list num, length row = T) sig.
Proof.
  unfold reconstruct. intros H.
  exn_step H as roi1v Hroi. exn_step H as c0 Hc0. exn_step H as Ktrans HK.
  exn_step H as c1 Hc1. exn_step H as ve Hve. exn_step H as kep1p Hkep.
  exn_step H as c2 Hc2. exn_step H as offset Hoff. exn_step H as c3 Hc3.
  exn_step H as vp Hvp. exn_step H as T HT. exn_step H as bl Hbl.
  exn_step H as fcurve Hfcurve. exn_step H as sig Hsig.
  exn_step H as curve Hcurve. exn_step H as residual Hres.
  injection H as <-. cbn [Ktrans1 ve1 kep1 offset1 vp1 estimated_curve1].
  destruct (roi1vec self) as [roi1v' |]; [injection Hroi as -> | discriminate].
  apply setitem_inr in HK as (v0 & Hv0 & HlK & ->).
  apply setitem_inr in Hve as (v1 & Hv1 & Hlve & ->).
  apply setitem_inr in Hoff as (v2 & Hv2 & Hloff & ->).
  apply setitem_inr in Hvp as (v3 & Hv3 & Hlvp & ->).
  apply setitem_rows_inr in Hcurve as (_ & _ & ->).
  apply elementwise_inr in Hkep as [_ ->].
  apply broadcast_to_fmap in Hv0 as (k0 & Hk0 & ->).
  apply broadcast_to_fmap in Hv1 as (k1 & Hk1 & ->).
  rewrite length_fmap in HlK, Hlve.
  exists roi1v, k0, k1, v2, v3.
  split; [done |].
  split; [by eapply masked_column_intro |]. split; [by eapply masked_column_intro |].
  split; [by eapply masked_column_intro |]. split; [by eapply masked_column_intro |].
  repeat (split; [done |]).
  exists T, (tabulate (np.count_true roi1v) T (at2 sig)).
  assert (shape self ≠ [] ∧ List.last (shape self) 0%nat = T) as [Hne HT'].
  { destruct (shape self) as [| n sh] using rev_ind; [done |].
    split; [by destruct sh |].
    rewrite fmap_app in HT. cbn in HT. rewrite last_last in HT. rewrite last_last.
    by injection HT. }
  split; [done |]. split; [done |]. split; [apply tabulate_length |].
  split; [done | apply tabulate_rows].
Qed.

(** ** What [finished] writes *)

Lemma finished_inr self self' calls :
  status self = SUCCEEDED →
  finished self = (self', inr calls) →
  ∃ var1 rest m pK pkep,
    output self = var1 :: rest
    ∧ reconstruct self var1 = inr m
    ∧ np.percentile (Ktrans1 m) (thresh1val self) = inr pK
    ∧ np.percentile (kep1 m) (thresh1val self) = inr pkep
    ∧ self' = set_log (λ l, l +:+ fit_log var1) self
    ∧ foldr Nat.mul 1%nat (removelast (shape self)) = length (Ktrans1 m)
    ∧ calls = add_data_calls self m pK pkep.
Proof.
  intros Hst H. unfold finished in H.
  apply M_bind_inr in H as (s1 & self0 & Hget & H).
  injection Hget as <- <-. rewrite Hst in H.
  apply M_bind_inr in H as (s1 & var1 & Hvar & H).
  destruct (output self) as [| var1' rest] eqn:Hout; [discriminate |].
  injection Hvar as <- <-.
  apply M_bind_inr in H as (s2 & [] & Hlog & H). injection Hlog as <-.
  lifted_step H as m Hm. lifted_step H as Kv HKv. lifted_step H as vev Hvev.
  lifted_step H as ov Hov. lifted_step H as vpv Hvpv. lifted_step H as kv Hkv.
  lifted_step H as ev Hev. lifted_step H as pK HpK. lifted_step H as pkep Hpkep.
  injection H as <- <-.
  apply reshape_inr in HKv as (HKs & HKf & Hsize), Hvev as (Hves & Hvef & _).
  apply reshape_inr in Hov as (Hos & Hof & _), Hvpv as (Hvps & Hvpf & _).
  apply reshape_inr in Hkv as (Hks & Hkf & _), Hev as (Hes & Hef & _).
  cbn [np.flat] in Hpkep. rewrite HKf in HpK. rewrite Hkf in Hpkep.
  exists var1', rest, m, pK, pkep. repeat (split; [done |]).
  unfold add_data_calls. rewrite HKs, HKf, Hks, Hkf.
  destruct vev, ov, vpv, ev; cbn in *; subst. reflexivity.
Qed.

(** In any other status nothing is written. *)
Lemma finished_not_succeeded self :
  status self ≠ SUCCEEDED → finished self = (self, inr []).
Proof.
  intros H. unfold finished. rewrite M_bind_unfold. cbn.
  destruct (status self); done.
Qed.

(** ** What [run] computes *)

Lemma run_configured ivm options c self :
  configured ivm options c →
  run ivm options self = vectorise c options self.
Proof.
  intros (Hroi & Hmain & Hdim & HT10 & H1 & H2 & H3 & H4 & H5 & H6 & H7 & H8 & H9 & HK).
  unfold run, vectorise, roi_of, mask_of, time_points, self_configured, suffix_of in *.
  unfold pop, mbind, M_bind, mret, M_ret, lift, modify, gets, raise.
  rewrite Hmain, HT10, H1, H2, H3, H4, H5, H6, H7, H8, H9.
  rewrite bool_decide_eq_false_2 by (intros Hne; apply Hne, Hdim).
  destruct (opt_roi options) as [name |];
    [destruct (rois ivm !! name); [| discriminate] |];
    injection Hroi as <-; cbv beta iota; cbn [suffix set_suffix set_log];
    (destruct (opt_suffix options) as [sfx |]; cbn [default from_option id];
     repeat case_bool_decide; subst; try done);
    cbv beta iota; rewrite HK; cbv beta iota;
    repeat match goal with
           | |- context [match ?x with inl _ => _ | inr _ => _ end] => destruct x
           end; reflexivity.
Qed.

Lemma run_inr ivm options self s1 r :
  run ivm options self = (s1, inr r) →
  ∃ c, configured ivm options c ∧ vectorise c options self = (s1, inr r).
Proof.
  intros H.
  assert (∃ c, configured ivm options c) as [c Hc].
  { unfold run in H.
    assert (match opt_roi options with
            | None => mret (current_roi ivm)
            | Some roi_name =>
                match rois ivm !! roi_name with
                | Some r => mret (Some r)
                | None => raise (QpException "Specified ROI not found")
                end
            end = (lift (roi_of ivm options) : M self_t _)) as Hlift.
    { unfold roi_of. repeat case_match; reflexivity. }
    rewrite Hlift in H. clear Hlift.
    unfold pop, mbind, M_bind, mret, M_ret, lift, modify, gets, raise in H.
    destruct (roi_of ivm options) as [e | roi] eqn:Hroi; [discriminate |].
    cbv beta iota in H. cbn [suffix set_suffix set_log] in H.
    destruct (bool_decide (default "" (opt_suffix options) ≠ ""));
      cbv beta iota in H;
      (destruct (main ivm) as [img1 |] eqn:Hmain; [| discriminate]);
      (destruct (decide (length (np.shape img1) = 4%nat)) as [Hdim | Hdim];
       [rewrite bool_decide_eq_false_2 in H by (intros Hne; apply Hne, Hdim)
       | rewrite bool_decide_eq_true_2 in H by exact Hdim; discriminate]);
      (destruct (data ivm !! "T10") as [t101 |] eqn:HT10; [| discriminate]);
      (destruct (opt_r1 options) as [R1 |] eqn:H1; [| discriminate]);
      (destruct (opt_r2 options) as [R2 |] eqn:H2; [| discriminate]);
      (destruct (opt_dt options) as [DelT |] eqn:H3; [| discriminate]);
      (destruct (opt_tinj options) as [InjT |] eqn:H4; [| discriminate]);
      (destruct (opt_tr options) as [TR |] eqn:H5; [| discriminate]);
      (destruct (opt_te options) as [TE |] eqn:H6; [| discriminate]);
      (destruct (opt_fa options) as [FA |] eqn:H7; [| discriminate]);
      (destruct (opt_ve_thresh options) as [thresh |] eqn:H8; [| discriminate]);
      (destruct (opt_model options) as [model |] eqn:H9; [| discriminate]);
      cbv beta iota in H;
      (destruct (baseline_tpts InjT DelT) as [e | K] eqn:HK; [discriminate |]);
      (exists {| c_roi := roi; c_img1 := img1; c_t101 := t101; c_R1 := R1; c_R2 := R2;
                 c_DelT := DelT; c_InjT := InjT; c_TR := TR; c_TE := TE; c_FA := FA;
                 c_thresh := thresh; c_model := model; c_K := K |});
      unfold configured; cbn; done. }
  exists c. split; [exact Hc |]. rewrite <- (run_configured _ _ _ _ Hc). exact H.
Qed.

(** ** The names under which the maps are stored *)

Lemma run_suffix ivm options self s1 r :
  run ivm options self = (s1, inr r) → suffix s1 = suffix_of options.
Proof.
  intros H. apply run_inr in H as (c & _ & H). unfold vectorise in H.
  repeat case_match; simplify_eq; reflexivity.
Qed.

(** C10. When [run] has dispatched the worker and [finished] completes in
    the succeeded state, exactly six outputs are added, named ktrans, ve,
    kep, offset, vp and model_curves in this order, each followed by an
    underscore and the suffix option when that option is not empty and by
    nothing when it is; only ktrans is added with [make_current=True]. *)
Theorem six_outputs_named_with_suffix (ivm : ivm_t) (options : options_t)
    (self s1 s2 : self_t) (start : nat * fit_args) (out : list fit_output)
    (calls : list add_data_call) :
  run ivm options self = (s1, inr start) →
  finished (set_result SUCCEEDED out s1) = (s2, inr calls) →
  let sfx := match opt_suffix options with
             | Some s => if bool_decide (s = "") then "" else "_" +:+ s
             | None => ""
             end in
  (λ c, (ad_name c, ad_make_current c)) <$> calls =
    [ ("ktrans" +:+ sfx, Some true); ("ve" +:+ sfx, None); ("kep" +:+ sfx, None);
      ("offset" +:+ sfx, None); ("vp" +:+ sfx, None); ("model_curves" +:+ sfx, None) ].
Proof.
  intros Hrun Hfin sfx.
  apply run_suffix in Hrun.
  apply finished_inr in Hfin as (var1 & rest & m & pK & pkep & _ & _ & _ & _ & _ & _ & ->);
    [| reflexivity].
  cbn. rewrite Hrun. reflexivity.
Qed.

Lemma six_outputs_named_with_suffix_witness :
  ∃ s2 calls,
    finished (Samples.self_at_finish [Num.one; Num.one; Num.one; Num.one] Samples.img
                (Samples.options (Some "first") "run1" 0 50)) = (s2, inr calls)
    ∧ (λ c, (ad_name c, ad_make_current c)) <$> calls =
      [ ("ktrans_run1", Some true); ("ve_run1", None); ("kep_run1", None);
        ("offset_run1", None); ("vp_run1", None); ("model_curves_run1", None) ].
Proof.
  destruct (finished (Samples.self_at_finish [Num.one; Num.one; Num.one; Num.one]
                        Samples.img (Samples.options (Some "first") "run1" 0 50)))
    as [s2 [e | calls]] eqn:Hfin; [vm_compute in Hfin; discriminate |].
  exists s2, calls. split; [reflexivity |].
  apply (six_outputs_named_with_suffix (Samples.ivm Samples.img)
           (Samples.options (Some "first") "run1" 0 50) init
           (Samples.self_after_run Samples.img (Samples.options (Some "first") "run1" 0 50))
           s2
           (Samples.started Samples.img (Samples.options (Some "first") "run1" 0 50))
           (Samples.worker_output [Num.one; Num.one; Num.one; Num.one] Samples.img
              (Samples.options (Some "first") "run1" 0 50))
           calls).
  - vm_compute. reflexivity.
  - exact Hfin.
Defined.

(** ** The clamp of Ktrans at exactly 2.0 *)

(** C2, at a raw Ktrans of exactly 2.0: neither [v < 2.0] nor [v > 2.0]
    holds, so the clamp of line 183 gives 0, and the Ktrans volume that
    [finished] stores holds 0 at the masked voxel where the claim says 2.0.
    The clamp of line 192 tests [>=] and keeps 2.0. *)
Theorem ktrans_of_exactly_two_is_zero :
  clip_upper Num.two = Num.zero
  ∧ clip_upper_ge Num.two = Num.two
  ∧ params2 (Samples.fitted [Num.two; Num.one; Num.zero; Num.zero] Samples.img
               (Samples.options (Some "first") "" 0 100))
    = [[Num.two; Num.one; Num.zero; Num.zero]]
  ∧ (λ calls, (λ c, np.flat (ad_data c)) <$> calls !! 0%nat) <$>
      (finished (Samples.self_at_finish [Num.two; Num.one; Num.zero; Num.zero]
                   Samples.img (Samples.options (Some "first") "" 0 100))).2
    = inr (Some [Num.zero; Num.zero]).
Proof. repeat split; compute_done. Qed.

(** ** The kep map *)

(** C5. At every voxel, the kep value of line 192 is the formula of the
    specification applied to the reconstructed (clamped) Ktrans and ve of
    that voxel: the quotient Ktrans / (ve + 0.001), with [nan] and the
    infinities replaced by 0, then [max(., 0)], then the upper clamp at 2.0. *)
Theorem kep_is_clamped_quotient (self : self_t) (var1 : fit_output) (m : maps_t)
    (i : nat) (K v : num) :
  reconstruct self var1 = inr m →
  Ktrans1 m !! i = Some K →
  ve1 m !! i = Some v →
  kep1 m !! i = Some (kep_spec K v).
Proof.
  intros Hm HK Hv.
  apply reconstruct_inr in Hm
    as (roi1v & c0 & c1 & c2 & c3 & _ & _ & _ & _ & _ & _ & _ & _ & _ & _ & _ & -> & _).
  rewrite !list_lookup_fmap, lookup_zip_with, list_lookup_fmap, HK, Hv. cbn.
  f_equal. apply kep_pipeline_spec.
Qed.

Lemma kep_is_clamped_quotient_witness :
  ∃ m, reconstruct
         (Samples.self_at_finish [Samples.dec 15 10; Samples.dec 3 10; Num.zero; Num.zero]
            Samples.img (Samples.options (Some "first") "" 0 100))
         (Samples.fitted [Samples.dec 15 10; Samples.dec 3 10; Num.zero; Num.zero]
            Samples.img (Samples.options (Some "first") "" 0 100)) = inr m
       ∧ kep1 m !! 0%nat = Some (kep_spec (Samples.dec 15 10) (Samples.dec 3 10))
       ∧ kep_spec (Samples.dec 15 10) (Samples.dec 3 10) = Num.two.
Proof.
  destruct (reconstruct
              (Samples.self_at_finish [Samples.dec 15 10; Samples.dec 3 10; Num.zero; Num.zero]
                 Samples.img (Samples.options (Some "first") "" 0 100))
              (Samples.fitted [Samples.dec 15 10; Samples.dec 3 10; Num.zero; Num.zero]
                 Samples.img (Samples.options (Some "first") "" 0 100)))
    as [e | m] eqn:Hm; [vm_compute in Hm; discriminate |].
  exists m. split; [reflexivity |]. split; [| compute_done].
  apply (kep_is_clamped_quotient _ _ m 0 (Samples.dec 15 10) (Samples.dec 3 10) Hm).
  - vm_compute in Hm. injection Hm as <-. compute_done.
  - vm_compute in Hm. injection Hm as <-. compute_done.
Defined.

(** ** The percentile of values that are not negative *)

Lemma not_negative_zero : not_negative Num.zero.
Proof. right. exists 0. split; [reflexivity | apply Qcle_refl]. Qed.

(** A zero is not above a threshold that is not negative. *)
Lemma threshold_keeps_zero (p : num) (vol : list num) (i : nat) :
  not_negative p → vol !! i = Some Num.zero → threshold p vol !! i = Some Num.zero.
Proof.
  intros Hp Hi. unfold threshold. rewrite list_lookup_fmap, Hi. cbn.
  destruct Hp as [-> | (q & -> & Hq)]; [reflexivity |].
  unfold Num.gtb, Num.zero. rewrite Fin_ltb.
  rewrite bool_decide_eq_false_2; [reflexivity | by apply Qcle_not_lt].
Qed.

Lemma insert_sorted_Forall (P : num → Prop) x l :
  P x → Forall P l → Forall P (np.insert_sorted x l).
Proof.
  intros Hx Hl. induction Hl as [| y l Hy Hl IH]; cbn; [by repeat constructor |].
  destruct (Num.leb x y); repeat constructor; done.
Qed.

Lemma sort_Forall (P : num → Prop) l : Forall P l → Forall P (np.sort l).
Proof.
  unfold np.sort. induction 1 as [| x l Hx Hl IH]; cbn; [constructor |].
  by apply insert_sorted_Forall.
Qed.

Lemma lookup_total_Forall (P : num → Prop) (l : list num) (i : nat) :
  P inhabitant → Forall P l → P (l !!! i).
Proof.
  intros Hd Hl. rewrite list_lookup_total_alt.
  destruct (l !! i) as [x |] eqn:Hi; cbn; [| exact Hd].
  eapply Forall_lookup_1; eassumption.
Qed.

Lemma Qc_of_Z_floor_le (h : Qc) : Qc_of_Z (Qfloor h) ≤ h.
Proof. unfold Qcle. cbn. apply Qfloor_le. Qed.

Lemma Qc_lt_floor_succ (h : Qc) : h < Qc_of_Z (Qfloor h) + 1.
Proof.
  rewrite <- Z2Qc_inj_1, <- Z2Qc_inj_add. unfold Qclt. cbn. apply Qlt_floor.
Qed.

(** Linear interpolation between two non-negative values stays non-negative. *)
Lemma lerp_nonneg (a b g : Qc) : 0 ≤ a → 0 ≤ b → 0 ≤ g → g ≤ 1 → 0 ≤ a + (b + - a) * g.
Proof.
  intros Ha Hb Hg Hg1.
  replace (a + (b + - a) * g) with (a * (1 - g) + b * g) by ring.
  apply Qcplus_nonneg_nonneg; apply Qcmult_nonneg_nonneg; try done.
  apply (Qcplus_le_mono_r _ _ g). ring_simplify. exact Hg1.
Qed.

(** Between two finite neighbours both branches of [np.lerp] give the same
    value. *)
Lemma lerp_Fin (a b g : Qc) : np.lerp (Fin a) (Fin b) g = Fin (a + (b + - a) * g).
Proof.
  unfold np.lerp. cbv zeta. case_bool_decide;
    cbn [Num.sub Num.add Num.neg Num.mul]; f_equal; ring.
Qed.

Lemma lerp_nan_l (hi : num) (g : Qc) : np.lerp NaN hi g = NaN.
Proof. unfold np.lerp. cbv zeta. case_bool_decide; by destruct hi. Qed.

Lemma lerp_nan_r (lo : num) (g : Qc) : np.lerp lo NaN g = NaN.
Proof. unfold np.lerp. cbv zeta. case_bool_decide; by destruct lo. Qed.

Lemma lerp_not_negative (lo hi : num) (g : Qc) :
  not_negative lo → not_negative hi → 0 ≤ g → g ≤ 1 →
  not_negative (np.lerp lo hi g).
Proof.
  intros [-> | (a & -> & Ha)] Hhi Hg Hg1; [left; apply lerp_nan_l |].
  destruct Hhi as [-> | (b & -> & Hb)]; [left; apply lerp_nan_r |].
  right. rewrite lerp_Fin. eexists. split; [reflexivity |]. by apply lerp_nonneg.
Qed.

Lemma percentile_not_negative (a : list num) (q : Qc) (p : num) :
  Forall not_negative a → np.percentile a q = inr p → not_negative p.
Proof.
  intros Ha. unfold np.percentile. cbv zeta.
  destruct (bool_decide (0 ≤ q) && bool_decide (q ≤ Qc_of_Z 100)); [| discriminate].
  destruct (bool_decide (length a = 0%nat) || existsb Num.isnan a);
    intros Hp;
    apply (f_equal (λ r, match r with inr x => x | inl _ => NaN end)) in Hp;
    cbv beta iota in Hp; subst p; [by left |].
  set (h := q / Qc_of_Z 100 * Qc_of_Z (Z.of_nat (length a - 1))).
  apply lerp_not_negative.
  - apply lookup_total_Forall; [apply not_negative_zero | apply sort_Forall, Ha].
  - apply lookup_total_Forall; [apply not_negative_zero | apply sort_Forall, Ha].
  - apply (Qcplus_le_mono_r _ _ (Qc_of_Z (Qfloor h))).
    replace (0 + Qc_of_Z (Qfloor h)) with (Qc_of_Z (Qfloor h)) by ring.
    replace (h - Qc_of_Z (Qfloor h) + Qc_of_Z (Qfloor h)) with h by ring.
    apply Qc_of_Z_floor_le.
  - apply Qclt_le_weak, (Qcplus_lt_mono_r _ _ (Qc_of_Z (Qfloor h))).
    replace (h - Qc_of_Z (Qfloor h) + Qc_of_Z (Qfloor h)) with h by ring.
    rewrite Qcplus_comm. apply Qc_lt_floor_succ.
Qed.

(** ** Voxels outside the mask *)

Lemma clip_upper_not_negative (x : num) :
  (x <? Num.zero)%num = false → not_negative (clip_upper x).
Proof.
  destruct x as [| | | q]; intros Hx; [by left | by left | discriminate |].
  unfold Num.zero in Hx. rewrite Fin_ltb in Hx. apply bool_decide_eq_false_1 in Hx.
  apply Qcnot_lt_le in Hx.
  right. rewrite clip_upper_Fin. eexists. split; [reflexivity |].
  repeat case_bool_decide; [done | apply Qclt_le_weak, Qc_two_pos | apply Qcle_refl].
Qed.

Lemma kep_pipeline_not_negative (x : num) :
  not_negative (clip_upper_ge (zero_negative (zero_nonfinite x))).
Proof.
  destruct (zero_nonfinite_Fin x) as [q ->].
  rewrite zero_negative_Fin, clip_upper_ge_Fin.
  right. eexists. split; [reflexivity |].
  repeat case_bool_decide;
    try apply Qcle_refl; try (by apply Qclt_le_weak); apply Qclt_le_weak, Qc_two_pos.
Qed.

Lemma scatter_Forall {A} (P : A → Prop) (zero : A) mask vals :
  P zero → Forall P vals → Forall P (np.scatter zero mask vals).
Proof.
  intros Hz. revert vals. induction mask as [| [] mask IH]; intros vals Hv; cbn.
  - constructor.
  - destruct Hv as [| v vals Hv Hvals]; constructor; auto.
  - constructor; auto.
Qed.

Lemma column_Forall (P : num → Prop) k m c :
  np.column k m = inr c →
  Forall (λ row : list num, ∀ x, row !! k = Some x → P x) m →
  Forall P c.
Proof.
  unfold np.column. intros Hc Hm.
  destruct (mapM (λ row : list num, row !! k) m) as [c' |] eqn:Hmap;
    [| destruct m; discriminate].
  assert (c' = c) as -> by (destruct m; [discriminate | by injection Hc]).
  apply mapM_Some in Hmap. clear Hc.
  induction Hmap as [| row x m c Hx _ IH]; [constructor |].
  apply Forall_cons in Hm as [Hrow Hm]. constructor; auto.
Qed.

Lemma column_length (k : nat) (m : list (list num)) (c : list num) :
  np.column k m = inr c → length c = length m.
Proof.
  unfold np.column. destruct m as [| row m]; [discriminate |].
  destruct (mapM _ _) as [c' |] eqn:Hc; [| discriminate].
  intros [= <-]. symmetry. by eapply length_mapM.
Qed.

Lemma masked_column_Forall (P : num → Prop) n k m c :
  masked_column n k m = inr c →
  Forall (λ row : list num, ∀ x, row !! k = Some x → P x) m →
  Forall P c.
Proof.
  intros Hc Hm. apply masked_column_inr in Hc as (c' & Hc' & Hb & _).
  eapply broadcast_to_Forall; [exact Hb |]. by eapply column_Forall.
Qed.

(** A row of a matrix, read from the row-major elements. *)
Lemma concat_lookup_row (rows : list (list num)) (T i t : nat) (row : list num) :
  Forall (λ r : list num, length r = T) rows →
  rows !! i = Some row →
  (t < T)%nat →
  concat rows !! (i * T + t)%nat = row !! t.
Proof.
  intros Hrows. revert i. induction Hrows as [| r rows Hr _ IH]; intros i Hi Ht; [done |].
  destruct i as [| i]; cbn in *.
  - injection Hi as ->. apply lookup_app_l. lia.
  - rewrite lookup_app_r by lia. rewrite <- (IH i Hi Ht). f_equal. lia.
Qed.

Lemma zero_negative_zero : zero_negative Num.zero = Num.zero.
Proof. compute_done. Qed.

Lemma kep_of_zeros :
  clip_upper_ge (zero_negative (zero_nonfinite (Num.zero / (Num.zero + eps))%num))
  = Num.zero.
Proof. compute_done. Qed.

(** C3, as amended.  In the succeeded state, at every position where the
    mask is false, the stored ve, kep, offset and vp volumes hold 0 and the
    stored curve volume holds 0 at every time point, also after the
    percentile thresholding of kep; the stored Ktrans volume holds 0 there
    whenever no raw Ktrans value of the parameter matrix is negative. *)
Theorem outside_mask_is_zero (self s2 : self_t) (calls : list add_data_call)
    (var1 : fit_output) (mask : list bool) (i : nat) :
  status self = SUCCEEDED →
  finished self = (s2, inr calls) →
  head (output self) = Some var1 →
  roi1vec self = Some mask →
  mask !! i = Some false →
  ∃ Ktransvol vevol kepvol offsetvol vpvol curvevol,
    ad_data <$> calls = [Ktransvol; vevol; kepvol; offsetvol; vpvol; curvevol]
    ∧ np.flat vevol !! i = Some Num.zero
    ∧ np.flat kepvol !! i = Some Num.zero
    ∧ np.flat offsetvol !! i = Some Num.zero
    ∧ np.flat vpvol !! i = Some Num.zero
    ∧ (∀ t, (t < List.last (shape self) 0)%nat →
            np.flat curvevol !! (i * List.last (shape self) 0 + t)%nat = Some Num.zero)
    ∧ (Forall (λ row : list num,
                 ∀ k, row !! 0%nat = Some k → (k <? Num.zero)%num = false)
              (params2 var1) →
       np.flat Ktransvol !! i = Some Num.zero).
Proof.
  intros Hst Hfin Hout Hmask Hi.
  apply finished_inr in Hfin
    as (var1' & rest & m & pK & pkep & Hout' & Hm & HpK & Hpkep & _ & _ & ->);
    [| exact Hst].
  rewrite Hout' in Hout. injection Hout as ->.
  apply reconstruct_inr in Hm
    as (roi1v & c0 & c1 & c2 & c3 & Hroi & Hc0 & _ & _ & _ & _ & _ & _ & _
        & HK & Hve & Hkep & Hoff & Hvp & T & sig & HT & _ & _ & Hcurve & Hsig).
  rewrite Hmask in Hroi. injection Hroi as <-.
  assert (Ktrans1 m !! i = Some Num.zero) as HKi
    by (rewrite HK; by apply scatter_outside).
  assert (ve1 m !! i = Some Num.zero) as Hvei.
  { rewrite Hve, list_lookup_fmap, (scatter_outside _ _ _ _ Hi).
    exact (f_equal Some zero_negative_zero). }
  assert (kep1 m !! i = Some Num.zero) as Hkepi.
  { rewrite Hkep, !list_lookup_fmap, lookup_zip_with, list_lookup_fmap, HKi, Hvei.
    exact (f_equal Some kep_of_zeros). }
  eexists _, _, _, _, _, _. split; [reflexivity |]. cbn [np.flat ad_data].
  split; [exact Hvei |].
  split.
  { apply threshold_keeps_zero; [| exact Hkepi].
    eapply percentile_not_negative; [| exact Hpkep].
    rewrite Hkep. rewrite <- !list_fmap_compose. apply Forall_fmap, Forall_forall.
    intros x _. apply kep_pipeline_not_negative. }
  split; [rewrite Hoff; by apply scatter_outside |].
  split; [rewrite Hvp; by apply scatter_outside |].
  split.
  { intros t Ht. rewrite HT in *.
    rewrite (concat_lookup_row _ T i t (replicate T Num.zero)); [| | | exact Ht].
    - by apply lookup_replicate_2.
    - rewrite Hcurve. apply scatter_Forall; [apply length_replicate | exact Hsig].
    - rewrite Hcurve. by apply scatter_outside. }
  intros Hraw.
  apply threshold_keeps_zero; [| exact HKi].
  eapply percentile_not_negative; [| exact HpK].
  rewrite HK. apply scatter_Forall; [apply not_negative_zero |].
  apply Forall_fmap. eapply Forall_impl; [| intros x Hx; apply clip_upper_not_negative, Hx].
  eapply masked_column_Forall; [exact Hc0 | exact Hraw].
Qed.

Lemma outside_mask_is_zero_witness :
  ∃ s2 calls,
    finished (Samples.self_at_finish [Num.one; Num.one; Num.zero; Num.zero] Samples.img
                (Samples.options (Some "first") "" 0 50)) = (s2, inr calls)
    ∧ ∃ Ktransvol vevol kepvol offsetvol vpvol curvevol,
        ad_data <$> calls = [Ktransvol; vevol; kepvol; offsetvol; vpvol; curvevol]
        ∧ np.flat vevol !! 1%nat = Some Num.zero
        ∧ np.flat kepvol !! 1%nat = Some Num.zero
        ∧ np.flat offsetvol !! 1%nat = Some Num.zero
        ∧ np.flat vpvol !! 1%nat = Some Num.zero
        ∧ np.flat curvevol !! 2%nat = Some Num.zero
        ∧ np.flat curvevol !! 3%nat = Some Num.zero
        ∧ np.flat Ktransvol !! 1%nat = Some Num.zero.
Proof.
  set (row := [Num.one; Num.one; Num.zero; Num.zero]).
  set (o := Samples.options (Some "first") "" 0 50).
  destruct (finished (Samples.self_at_finish row Samples.img o))
    as [s2 [e | calls]] eqn:Hfin; [vm_compute in Hfin; discriminate |].
  exists s2, calls. split; [reflexivity |].
  destruct (outside_mask_is_zero (Samples.self_at_finish row Samples.img o) s2 calls
              (Samples.fitted row Samples.img o) [true; false] 1)
    as (Kv & vev & kv & ov & vpv & cv & Hcalls & Hve & Hkep & Hoff & Hvp & Hcurve & HK).
  - reflexivity.
  - exact Hfin.
  - vm_compute. reflexivity.
  - vm_compute. reflexivity.
  - reflexivity.
  - exists Kv, vev, kv, ov, vpv, cv.
    repeat (split; [assumption |]).
    split; [apply (Hcurve 0%nat); vm_compute; lia |].
    split; [apply (Hcurve 1%nat); vm_compute; lia |].
    apply HK. vm_compute. repeat constructor; intros k [= <-]; reflexivity.
Defined.

(** C3, as stated, fails for Ktrans: with the raw Ktrans -1 at the masked
    voxel and percentile 0, the threshold is -1 and the stored Ktrans volume
    holds -1 at the voxel outside the mask. *)
Lemma outside_mask_ktrans_counterexample :
  let self := Samples.self_at_finish [Num.of_Z (-1); Num.one; Num.zero; Num.zero]
                Samples.img (Samples.options (Some "first") "" 0 0) in
  status self = SUCCEEDED
  ∧ roi1vec self = Some [true; false]
  ∧ params2 <$> head (output self) = Some [[Num.of_Z (-1); Num.one; Num.zero; Num.zero]]
  ∧ (λ calls, (λ c, np.flat (ad_data c)) <$> calls !! 0%nat) <$> (finished self).2
    = inr (Some [Num.of_Z (-1); Num.of_Z (-1)])
  ∧ Num.of_Z (-1) ≠ Num.zero.
Proof. repeat split; compute_done. Qed.

(** ** The percentile thresholds *)

(** C9. The two thresholds are the percentiles of the whole flat Ktrans and
    kep arrays: these have one element for every voxel of the spatial
    volume, and the elements outside the mask are the zeros the arrays were
    created with.  The stored Ktrans and kep volumes are these arrays cut at
    their thresholds. *)
Theorem percentile_over_whole_volume (self s2 : self_t) (calls : list add_data_call)
    (var1 : fit_output) (mask : list bool) :
  status self = SUCCEEDED →
  finished self = (s2, inr calls) →
  head (output self) = Some var1 →
  roi1vec self = Some mask →
  ∃ m pK pkep,
    reconstruct self var1 = inr m
    ∧ length (Ktrans1 m) = foldr Nat.mul 1%nat (removelast (shape self))
    ∧ length (Ktrans1 m) = length mask
    ∧ length (kep1 m) = length mask
    ∧ (∀ i, mask !! i = Some false →
            Ktrans1 m !! i = Some Num.zero ∧ kep1 m !! i = Some Num.zero)
    ∧ np.percentile (Ktrans1 m) (thresh1val self) = inr pK
    ∧ np.percentile (kep1 m) (thresh1val self) = inr pkep
    ∧ (λ c, np.flat (ad_data c)) <$> calls !! 0%nat = Some (threshold pK (Ktrans1 m))
    ∧ (λ c, np.flat (ad_data c)) <$> calls !! 2%nat = Some (threshold pkep (kep1 m)).
Proof.
  intros Hst Hfin Hout Hmask.
  apply finished_inr in Hfin
    as (var1' & rest & m & pK & pkep & Hout' & Hm & HpK & Hpkep & _ & Hsize & ->);
    [| exact Hst].
  rewrite Hout' in Hout. injection Hout as ->.
  exists m, pK, pkep. split; [exact Hm |].
  apply reconstruct_inr in Hm
    as (roi1v & c0 & c1 & c2 & c3 & Hroi & _ & _ & _ & _ & _ & _ & _ & _
        & HK & Hve & Hkep & _).
  rewrite Hmask in Hroi. injection Hroi as <-.
  assert (length (Ktrans1 m) = length mask) as HlK by (rewrite HK; apply scatter_length).
  assert (length (ve1 m) = length mask) as Hlve
    by (rewrite Hve, length_fmap; apply scatter_length).
  split; [done |]. split; [exact HlK |].
  split; [rewrite Hkep, !length_fmap, length_zip_with, length_fmap; lia |].
  split; [| done].
  intros i Hi.
  assert (Ktrans1 m !! i = Some Num.zero) as HKi
    by (rewrite HK; by apply scatter_outside).
  split; [exact HKi |].
  rewrite Hkep, !list_lookup_fmap, lookup_zip_with, list_lookup_fmap, HKi.
  rewrite Hve, list_lookup_fmap, (scatter_outside _ _ _ _ Hi).
  exact (f_equal Some kep_of_zeros).
Qed.

(** With a partial mask the zeros outside it lower the percentile: one
    masked voxel with Ktrans 1 and one voxel outside the mask give the
    median 1/2 over the volume, where the masked values alone give 1. *)
Lemma percentile_over_whole_volume_witness :
  ∃ m,
    reconstruct (Samples.self_at_finish [Num.one; Num.one; Num.zero; Num.zero] Samples.img
                   (Samples.options (Some "first") "" 0 50))
                (Samples.fitted [Num.one; Num.one; Num.zero; Num.zero] Samples.img
                   (Samples.options (Some "first") "" 0 50)) = inr m
    ∧ Ktrans1 m = [Num.one; Num.zero]
    ∧ np.percentile (Ktrans1 m) (Qc_of_Z 50) = inr (Samples.dec 1 2)
    ∧ np.percentile (np.select [true; false] (Ktrans1 m)) (Qc_of_Z 50) = inr Num.one
    ∧ (λ calls, (λ c, np.flat (ad_data c)) <$> calls !! 0%nat) <$>
        (finished (Samples.self_at_finish [Num.one; Num.one; Num.zero; Num.zero]
                     Samples.img (Samples.options (Some "first") "" 0 50))).2
      = inr (Some [Samples.dec 1 2; Num.zero]).
Proof.
  set (row := [Num.one; Num.one; Num.zero; Num.zero]).
  set (o := Samples.options (Some "first") "" 0 50).
  destruct (finished (Samples.self_at_finish row Samples.img o))
    as [s2 [e | calls]] eqn:Hfin; [vm_compute in Hfin; discriminate |].
  destruct (percentile_over_whole_volume (Samples.self_at_finish row Samples.img o)
              s2 calls (Samples.fitted row Samples.img o) [true; false])
    as (m & pK & pkep & Hm & Hvol & HlK & Hlkep & Hout & HpK & Hpkep & HKv & Hkv).
  - reflexivity.
  - exact Hfin.
  - vm_compute. reflexivity.
  - vm_compute. reflexivity.
  - exists m. split; [exact Hm |].
    assert (Ktrans1 m = [Num.one; Num.zero]) as HK.
    { vm_compute in Hm. injection Hm as <-. compute_done. }
    split; [exact HK |].
    rewrite HK in *.
    assert (pK = Samples.dec 1 2) as ->.
    { vm_compute in HpK. injection HpK as <-. compute_done. }
    split; [compute_done |]. split; [compute_done |].
    cbn. rewrite HKv. compute_done.
Defined.

(** ** The normalisation *)

Lemma add_eps_zero (b : num) : (b + eps)%num = Num.zero → b = Num.neg eps.
Proof.
  destruct b as [| | | q]; try discriminate.
  unfold eps, Num.zero, Num.neg, Num.add. intros H. f_equal.
  assert (q + Q2Qc (1 # 1000) = 0) as Hq by congruence.
  apply (inj (λ x, x + Q2Qc (1 # 1000))). rewrite Hq. ring.
Qed.

(** C7, as amended.  The denominator Baseline + 0.001 is not zero at any
    voxel whose baseline is not exactly -0.001. *)
Theorem denominator_nonzero_unless_minus_eps (baseline : list num) (T : nat) :
  Forall (λ b, b ≠ Num.neg eps) baseline →
  Forall (Forall (λ d, d ≠ Num.zero)) (denominators baseline T).
Proof.
  intros Hb. unfold denominators, mat_map, tile_columns.
  rewrite <- list_fmap_compose. apply Forall_fmap.
  eapply Forall_impl; [exact Hb |]. intros b Hne. cbn.
  rewrite fmap_replicate. apply Forall_replicate.
  intros Hz. apply Hne, add_eps_zero, Hz.
Qed.

Lemma denominator_nonzero_unless_minus_eps_witness :
  Forall (Forall (λ d, d ≠ Num.zero)) (denominators [Num.zero; Num.of_Z (-1)] 2).
Proof.
  apply denominator_nonzero_unless_minus_eps.
  repeat constructor; compute_done.
Defined.

(** C7, as stated, fails: a voxel whose first time point is -0.001, with
    the injection at time 0, has the baseline -0.001; its denominator is
    exactly zero and its normalised signal is minus infinity. *)
Lemma zero_denominator_counterexample :
  let image := {| np.shape := [2; 1; 1; 1]%nat;
                  np.flat := [Samples.dec (-1) 1000; Num.one] |} in
  let o := Samples.options None "" 0 50 in
  baseline (Samples.self_after_run image o) = Some [Samples.dec (-1) 1000; Num.one]
  ∧ denominators [Samples.dec (-1) 1000; Num.one] 1
    = [[Num.zero]; [Samples.dec 1001 1000]]
  ∧ img1sub (Samples.started image o).2 = [[NInf]; [Samples.dec (-1) 1001]].
Proof. repeat split; compute_done. Qed.

(** ** The baseline *)

Lemma rows_length n T l : length (np.rows n T l) = n.
Proof. revert l. induction n as [| n IH]; intros l; cbn; [done | by rewrite IH]. Qed.

Lemma baseline_of_length K img :
  length (baseline_of K img) = foldr Nat.mul 1%nat (removelast (np.shape img)).
Proof. unfold baseline_of, voxel_series. by rewrite length_fmap, rows_length. Qed.


(** ** Rounding to a double *)

Lemma Qc_of_Z_pos (z : Z) : (0 < z)%Z → 0 < Qc_of_Z z.
Proof. intros Hz. rewrite <- Z2Qc_inj_0. apply (proj1 (Z2Qc_inj_lt _ _)). lia. Qed.

Lemma Qc_pos_neq (x : Qc) : 0 < x → x ≠ 0.
Proof. intros Hx Hz. rewrite Hz in Hx. by apply Qclt_not_eq in Hx. Qed.

Ltac Qc_field :=
  field; repeat split; first [by apply Qc_pos_neq | assumption | compute_done].

Lemma pow2_Z_pos (e : Z) : 0 < Qc_of_Z (2 ^ Z.max e 0).
Proof. apply Qc_of_Z_pos. apply Z.pow_pos_nonneg; lia. Qed.

Lemma pow2_pos (e : Z) : 0 < Double.pow2 e.
Proof.
  unfold Double.pow2. apply Qcmult_pos_pos; [apply pow2_Z_pos |].
  apply Qcinv_pos, pow2_Z_pos.
Qed.

Lemma Qcinv_1 : / 1 = 1.
Proof. compute_done. Qed.

Lemma pow2_nonneg_exp (e : Z) : (0 ≤ e)%Z → Double.pow2 e = Qc_of_Z (2 ^ e).
Proof.
  intros He. unfold Double.pow2.
  rewrite (Z.max_l e 0), (Z.max_r (- e) 0) by lia.
  change (2 ^ 0)%Z with 1%Z. rewrite Z2Qc_inj_1. unfold Qcdiv.
  by rewrite Qcinv_1, Qcmult_1_r.
Qed.

Lemma pow2_nonpos_exp (e : Z) : (e ≤ 0)%Z → Double.pow2 e = / Qc_of_Z (2 ^ (- e)).
Proof.
  intros He. unfold Double.pow2.
  rewrite (Z.max_r e 0), (Z.max_l (- e) 0) by lia.
  change (2 ^ 0)%Z with 1%Z. rewrite Z2Qc_inj_1. unfold Qcdiv.
  by rewrite Qcmult_1_l.
Qed.

(** [2^(a-b) * 2^b = 2^a] *)
Lemma pow2_sub (a b : Z) :
  (0 ≤ a)%Z → (0 ≤ b)%Z →
  Double.pow2 (a - b) * Qc_of_Z (2 ^ b) = Qc_of_Z (2 ^ a).
Proof.
  intros Ha Hb.
  assert (Qc_of_Z (2 ^ b) ≠ 0) as Hnz
    by (apply Qc_pos_neq, Qc_of_Z_pos, Z.pow_pos_nonneg; lia).
  destruct (decide (b ≤ a)%Z) as [Hle | Hgt].
  - rewrite pow2_nonneg_exp, <- Z2Qc_inj_mul, <- Z.pow_add_r by lia.
    f_equal. f_equal. lia.
  - rewrite pow2_nonpos_exp by lia.
    assert (Qc_of_Z (2 ^ (- (a - b))) ≠ 0) as Hnz'
      by (apply Qc_pos_neq, Qc_of_Z_pos, Z.pow_pos_nonneg; lia).
    replace b with (- (a - b) + a)%Z at 2 by lia.
    rewrite Z.pow_add_r, Z2Qc_inj_mul by lia. Qc_field.
Qed.

Lemma Qc_pos_num (q : Qc) : 0 < q → (0 < Qnum q)%Z.
Proof.
  intros Hq. unfold Qclt in Hq. change (this 0) with (0 # 1)%Q in Hq.
  unfold Qlt in Hq. cbn in Hq. lia.
Qed.

Lemma Qc_ge_1_num (r : Qc) : 1 ≤ r → (Z.pos (Qden r) ≤ Qnum r)%Z.
Proof.
  intros Hr. unfold Qcle in Hr. change (this 1) with (1 # 1)%Q in Hr.
  unfold Qle in Hr. cbn in Hr. lia.
Qed.

Lemma Qc_frac (q : Qc) : q = Qc_of_Z (Qnum q) / Qc_of_Z (Zpos (Qden q)).
Proof.
  apply Qc_is_canon. destruct q as [[n d] Hc]. cbn.
  rewrite !Qred_correct. unfold Qeq. cbn. lia.
Qed.

Lemma Qcle_mult_div (x y z : Qc) : 0 < z → x * z ≤ y → x ≤ y / z.
Proof.
  intros Hz H. apply (proj2 (Qcmult_le_mono_pos_r _ _ z Hz)).
  replace (y / z * z) with y by Qc_field. exact H.
Qed.

Lemma mag_lower (q : Qc) : 0 < q → Double.pow2 (Double.mag q - 1) ≤ q.
Proof.
  intros Hq. unfold Double.mag. cbv zeta.
  case_bool_decide as Htest.
  - by replace (Z.log2 (Qnum q) - Z.log2 (Z.pos (Qden q)) + 1 - 1)%Z
      with (Z.log2 (Qnum q) - Z.log2 (Z.pos (Qden q)))%Z by lia.
  - clear Htest.
    pose proof (Qc_pos_num q Hq) as Hn.
    set (n := Qnum q) in *. set (d := Z.pos (Qden q)).
    assert (0 < d)%Z as Hd by (unfold d; lia).
    pose proof (Z.log2_spec n Hn) as [Hn1 _].
    pose proof (Z.log2_spec d Hd) as [_ Hd2].
    pose proof (Z.log2_nonneg n). pose proof (Z.log2_nonneg d).
    rewrite (Qc_frac q). fold n d.
    apply Qcle_mult_div; [by apply Qc_of_Z_pos |].
    transitivity (Qc_of_Z (2 ^ Z.log2 n));
      [| apply (proj1 (Z2Qc_inj_le _ _)); exact Hn1].
    rewrite <- (pow2_sub (Z.log2 n) (Z.log2 d + 1)) by lia.
    replace (Z.log2 n - Z.log2 d - 1)%Z with (Z.log2 n - (Z.log2 d + 1))%Z by lia.
    apply Qcmult_le_mono_nonneg_l; [apply Qclt_le_weak, pow2_pos |].
    apply (proj1 (Z2Qc_inj_le _ _)). unfold Z.succ in Hd2. lia.
Qed.

Lemma Qfloor_Qc_of_Z (z : Z) : Qfloor (Qc_of_Z z) = z.
Proof.
  transitivity (Qfloor (inject_Z z)); [| apply Qfloor_Z].
  apply Qfloor_comp. cbn. reflexivity.
Qed.

Lemma around_cases (y : Qc) :
  np.around y = Qfloor y ∨ np.around y = (Qfloor y + 1)%Z.
Proof. unfold np.around. cbv zeta. repeat case_match; auto. Qed.

Lemma around_ge_Z (z : Z) (y : Qc) : Qc_of_Z z ≤ y → (z ≤ np.around y)%Z.
Proof.
  intros Hle.
  assert (z ≤ Qfloor y)%Z as Hf.
  { rewrite <- (Qfloor_Qc_of_Z z). by apply Qfloor_resp_le. }
  destruct (around_cases y) as [-> | ->]; lia.
Qed.

Lemma around_Z (z : Z) : np.around (Qc_of_Z z) = z.
Proof.
  unfold np.around. cbv zeta. rewrite Qfloor_Qc_of_Z.
  replace (Qc_of_Z z - Qc_of_Z z) with 0 by ring.
  by rewrite bool_decide_eq_true_2 by compute_done.
Qed.

(** A value from 1 on rounds to a double from 1 on, or overflows. *)
Lemma round_pos_ge_1 (q : Qc) :
  1 ≤ q → Double.round_pos q = PInf ∨ ∃ r, Double.round_pos q = Fin r ∧ 1 ≤ r.
Proof.
  intros Hq. unfold Double.round_pos. cbv zeta.
  case_bool_decide as Hover; [by left |]. right. eexists. split; [reflexivity |].
  clear Hover.
  assert (0 < q) as Hq0 by (eapply Qclt_le_trans; [| exact Hq]; compute_done).
  set (e := Z.max (Double.mag q - 53) (-1074)).
  pose proof (pow2_pos e) as HP.
  destruct (decide (e ≤ 0)%Z) as [He | He].
  - rewrite (pow2_nonpos_exp e He) in *.
    set (Zp := Qc_of_Z (2 ^ (- e))) in *.
    assert (0 < Zp) as HZp by (apply Qc_of_Z_pos, Z.pow_pos_nonneg; lia).
    assert (2 ^ (- e) ≤ np.around (q / / Zp))%Z as Hm.
    { apply around_ge_Z. fold Zp.
      replace (q / / Zp) with (q * Zp) by Qc_field.
      rewrite <- (Qcmult_1_l Zp) at 1.
      apply Qcmult_le_mono_nonneg_r; [by apply Qclt_le_weak | exact Hq]. }
    apply (proj1 (Z2Qc_inj_le _ _)) in Hm. fold Zp in Hm.
    apply (proj2 (Qcmult_le_mono_pos_r _ _ Zp HZp)).
    replace (Qc_of_Z (np.around (q / / Zp)) * / Zp * Zp)
      with (Qc_of_Z (np.around (q / / Zp))) by Qc_field.
    by rewrite Qcmult_1_l.
  - assert (e = Double.mag q - 53)%Z as Heq by lia.
    pose proof (mag_lower q Hq0) as Hlow.
    replace (Double.mag q - 1)%Z with (e + 52)%Z in Hlow by lia.
    rewrite pow2_nonneg_exp in Hlow by lia.
    rewrite pow2_nonneg_exp in * by lia.
    set (P := Qc_of_Z (2 ^ e)) in *.
    assert (1 ≤ P) as HP1.
    { rewrite <- Z2Qc_inj_1. apply (proj1 (Z2Qc_inj_le _ _)).
      assert (0 < 2 ^ e)%Z by (apply Z.pow_pos_nonneg; lia). lia. }
    assert (P ≤ q) as HPq.
    { etrans; [| exact Hlow]. apply (proj1 (Z2Qc_inj_le _ _)).
      apply Z.pow_le_mono_r; lia. }
    assert (1 ≤ np.around (q / P))%Z as Hm.
    { apply around_ge_Z. rewrite Z2Qc_inj_1. apply Qcle_mult_div; [done |].
      by rewrite Qcmult_1_l. }
    apply (proj1 (Z2Qc_inj_le _ _)) in Hm. rewrite Z2Qc_inj_1 in Hm.
    etrans; [exact Hm |].
    rewrite <- (Qcmult_1_r (Qc_of_Z _)) at 1.
    apply Qcmult_le_mono_nonneg_l; [| exact HP1].
    etrans; [| exact Hm]. compute_done.
Qed.

(** A value that is not negative rounds to a double that is not negative,
    or overflows. *)
Lemma round_nonneg (q : Qc) :
  0 ≤ q → Double.round q = PInf ∨ ∃ r, Double.round q = Fin r ∧ 0 ≤ r.
Proof.
  intros Hq. unfold Double.round.
  case_bool_decide as Hz; [right; by exists 0 |].
  rewrite bool_decide_eq_false_2 by (by apply Qcle_not_lt).
  unfold Double.round_pos. cbv zeta.
  case_bool_decide as Hover; [by left |]. right. eexists. split; [reflexivity |].
  apply Qcmult_nonneg_nonneg; [| apply Qclt_le_weak, pow2_pos].
  rewrite <- Z2Qc_inj_0. apply (proj1 (Z2Qc_inj_le _ _)), around_ge_Z.
  rewrite Z2Qc_inj_0. apply Qcmult_nonneg_nonneg; [exact Hq |].
  apply Qclt_le_weak, Qcinv_pos, pow2_pos.
Qed.

Lemma Qnum_Qc_of_Z (z : Z) : Qnum (Qc_of_Z z) = z ∧ Qden (Qc_of_Z z) = 1%positive.
Proof.
  unfold Qc_of_Z. cbn. done.
Qed.

(** A whole number below [2^53] is a double. *)
Lemma round_integer (z : Z) :
  (0 ≤ z < 2 ^ 53)%Z → Double.round (Qc_of_Z z) = Fin (Qc_of_Z z).
Proof.
  intros [Hz0 Hz]. unfold Double.round.
  case_bool_decide as Hzero; [by rewrite Hzero |].
  assert (0 < z)%Z as Hpos.
  { destruct (decide (z = 0%Z)) as [-> | ?]; [| lia]. by rewrite Z2Qc_inj_0 in Hzero. }
  rewrite bool_decide_eq_false_2
    by (apply Qcle_not_lt, Qclt_le_weak; by apply Qc_of_Z_pos).
  unfold Double.round_pos. cbv zeta.
  set (e := Z.max (Double.mag (Qc_of_Z z) - 53) (-1074)).
  assert (e ≤ 0)%Z as He.
  { unfold e, Double.mag. cbv zeta.
    destruct (Qnum_Qc_of_Z z) as [-> ->]. change (Z.log2 1) with 0%Z.
    assert (Z.log2 z < 53)%Z by (apply Z.log2_lt_pow2; lia).
    case_bool_decide; lia. }
  rewrite (pow2_nonpos_exp e He).
  set (Zp := Qc_of_Z (2 ^ (- e))).
  assert (0 < Zp) as HZp by (apply Qc_of_Z_pos, Z.pow_pos_nonneg; lia).
  replace (Qc_of_Z z / / Zp) with (Qc_of_Z (z * 2 ^ (- e)))
    by (rewrite Z2Qc_inj_mul; fold Zp; Qc_field).
  rewrite around_Z, Z2Qc_inj_mul. fold Zp.
  replace (Qc_of_Z z * Zp * / Zp) with (Qc_of_Z z) by Qc_field.
  rewrite bool_decide_eq_false_2; [done |].
  apply Qclt_not_le. rewrite pow2_nonneg_exp by lia.
  apply (proj1 (Z2Qc_inj_lt _ _)).
  assert (2 ^ 53 < 2 ^ 1024)%Z by (apply Z.pow_lt_mono_r; lia). lia.
Qed.

Lemma int_Z (z : Z) : int (Fin (Qc_of_Z z)) = inr z.
Proof.
  unfold int. destruct (Qnum_Qc_of_Z z) as [-> ->]. by rewrite Z.quot_1_r.
Qed.

Lemma int_ge_1 (r : Qc) : 1 ≤ r → ∃ K, int (Fin r) = inr K ∧ (1 ≤ K)%Z.
Proof.
  intros Hr. eexists. split; [reflexivity |].
  pose proof (Qc_ge_1_num r Hr). apply Z.quot_le_lower_bound; lia.
Qed.

Lemma getitem_inr {A} (mask : list bool) (a l : list A) :
  np.getitem mask a = inr l → length mask = length a ∧ l = np.select mask a.
Proof. unfold np.getitem. case_bool_decide; [intros [= <-]; auto | done]. Qed.

Lemma slice_to_nonneg {A} (K : Z) (l : list A) :
  (0 ≤ K)%Z → np.slice_to K l = take (Z.to_nat K) l.
Proof. intros HK. unfold np.slice_to. rewrite bool_decide_eq_false_2; [done | lia]. Qed.

Lemma baseline_of_take (K : Z) (img : np.ndarray) :
  (0 ≤ K)%Z →
  baseline_of K img = np.mean <$> (take (Z.to_nat K) <$> voxel_series img).
Proof.
  intros HK. unfold baseline_of. rewrite <- list_fmap_compose.
  apply list_fmap_ext. intros i series _. cbn. by rewrite slice_to_nonneg.
Qed.

(** The baseline that [run] leaves in [self], whatever happens after it is
    stored. *)
Lemma vectorise_baseline c options self :
  baseline (vectorise c options self).1 =
    match np.reshape_rows (time_points c) (np.flat (c_img1 c)) with
    | inl _ => baseline self
    | inr img1vec =>
        if bool_decide (length (mask_of c) = length img1vec
                        ∧ length (mask_of c) = length (np.flat (c_t101 c))
                        ∧ length (mask_of c) = length (baseline_of (c_K c) (c_img1 c)))
        then Some (np.select (mask_of c) (baseline_of (c_K c) (c_img1 c)))
        else baseline self
    end.
Proof.
  unfold vectorise.
  destruct (np.reshape_rows _ _) as [e | img1vec]; [reflexivity |].
  unfold np.getitem.
  repeat case_bool_decide; try (exfalso; tauto); try reflexivity.
  destruct (normalise _ _ _); reflexivity.
Qed.

(** [int(1 + n)] for a quotient that is a whole number [n]. *)
Lemma baseline_tpts_whole (n : Z) (DelT : Qc) :
  DelT ≠ 0 → (0 ≤ n < 2 ^ 53 - 1)%Z →
  baseline_tpts (Qc_of_Z n * DelT) DelT = inr (1 + n)%Z.
Proof.
  intros HD Hn. unfold baseline_tpts, truediv.
  rewrite bool_decide_eq_false_2 by exact HD.
  replace (Qc_of_Z n * DelT / DelT) with (Qc_of_Z n) by (field; exact HD).
  rewrite round_integer by lia. rewrite exn_bind_ret.
  unfold float_add, Num.one. cbn [Num.add].
  rewrite <- Z2Qc_inj_1, <- Z2Qc_inj_add, round_integer by lia.
  apply int_Z.
Qed.

Lemma baseline_tpts_divisor (InjT DelT : Qc) (K : Z) :
  baseline_tpts InjT DelT = inr K → DelT ≠ 0.
Proof.
  unfold baseline_tpts, truediv. case_bool_decide as Hz; [discriminate | done].
Qed.

(** C6, as amended.  K is the count that line 137 computes,
    [int(1 + InjT / DelT)] in the arithmetic of Python floats.  When K is
    not negative, the baseline of every voxel is the mean of the first K
    points of its time series, the baseline that a successful [run] stores
    is the masked selection of these means, and a volume of the same shape
    that agrees with the image on the first K points of every voxel gives
    the same stored baseline.  K is 1 + InjT / DelT when that quotient is a
    whole number from 0 to 2^53 - 2. *)
Theorem baseline_from_first_K_points (ivm : ivm_t) (options : options_t)
    (self : self_t) (c : config) (img2 : np.ndarray) :
  configured ivm options c →
  (0 ≤ c_K c)%Z →
  np.shape img2 = np.shape (c_img1 c) →
  length (np.flat img2) = length (np.flat (c_img1 c)) →
  take (Z.to_nat (c_K c)) <$> voxel_series img2
    = take (Z.to_nat (c_K c)) <$> voxel_series (c_img1 c) →
  baseline_tpts (c_InjT c) (c_DelT c) = inr (c_K c)
  ∧ baseline_of (c_K c) (c_img1 c)
    = (λ series, np.mean (take (Z.to_nat (c_K c)) series)) <$> voxel_series (c_img1 c)
  ∧ (∀ s1 r, run ivm options self = (s1, inr r) →
             baseline s1 = Some (np.select (mask_of c) (baseline_of (c_K c) (c_img1 c))))
  ∧ baseline (run ivm options self).1 = baseline (run (set_main img2 ivm) options self).1
  ∧ (∀ n, (0 ≤ n < 2 ^ 53 - 1)%Z → c_InjT c = Qc_of_Z n * c_DelT c →
          c_K c = (1 + n)%Z).
Proof.
  intros Hc HK Hshape Hlen Hagree.
  assert (baseline_tpts (c_InjT c) (c_DelT c) = inr (c_K c)) as Htpts
    by (by destruct Hc as (_ & _ & _ & _ & _ & _ & _ & _ & _ & _ & _ & _ & _ & ?)).
  split; [exact Htpts |]. split; [| split; [| split]].
  - rewrite baseline_of_take by exact HK. by rewrite <- list_fmap_compose.
  - intros s1 r Hrun. rewrite (run_configured _ _ _ _ Hc) in Hrun.
    pose proof (vectorise_baseline c options self) as Hb. rewrite Hrun in Hb.
    cbn [fst] in Hb. rewrite Hb. unfold vectorise in Hrun.
    destruct (np.reshape_rows _ _) as [e | img1vec]; [discriminate |].
    destruct (np.getitem (mask_of c) img1vec) as [e | x1] eqn:H1; [discriminate |].
    destruct (np.getitem (mask_of c) (np.flat (c_t101 c))) as [e | x2] eqn:H2;
      [discriminate |].
    destruct (np.getitem (mask_of c) (baseline_of (c_K c) (c_img1 c))) as [e | x3] eqn:H3;
      [discriminate |].
    apply getitem_inr in H1 as [? _], H2 as [? _], H3 as [? _].
    by rewrite bool_decide_eq_true_2.
  - set (c2 := {| c_roi := c_roi c; c_img1 := img2; c_t101 := c_t101 c;
                  c_R1 := c_R1 c; c_R2 := c_R2 c; c_DelT := c_DelT c;
                  c_InjT := c_InjT c; c_TR := c_TR c; c_TE := c_TE c; c_FA := c_FA c;
                  c_thresh := c_thresh c; c_model := c_model c; c_K := c_K c |}).
    assert (configured (set_main img2 ivm) options c2) as Hc2.
    { destruct Hc as (? & ? & ? & ? & ? & ? & ? & ? & ? & ? & ? & ? & ? & ?).
      unfold configured. cbn. rewrite Hshape. done. }
    rewrite (run_configured _ _ _ _ Hc), (run_configured _ _ _ _ Hc2).
    rewrite !vectorise_baseline.
    assert (mask_of c2 = mask_of c) as -> by (unfold mask_of; cbn; by rewrite Hshape).
    assert (time_points c2 = time_points c) as ->
      by (unfold time_points; cbn; by rewrite Hshape).
    assert (baseline_of (c_K c2) (c_img1 c2) = baseline_of (c_K c) (c_img1 c)) as ->.
    { cbn. rewrite !baseline_of_take by exact HK. by rewrite Hagree. }
    cbn [c_img1 c_t101 c2]. unfold np.reshape_rows.
    case_bool_decide; [reflexivity |].
    rewrite !rows_length, Hlen. reflexivity.
  - intros n Hn Hinj.
    pose proof (baseline_tpts_divisor _ _ _ Htpts) as HD.
    rewrite Hinj, (baseline_tpts_whole n _ HD Hn) in Htpts. by injection Htpts.
Qed.

Lemma baseline_from_first_K_points_witness :
  let o := Samples.timed (Q2Qc (1 # 2)) Samples.tenth in
  let image := Samples.two_voxels 7 [1; 2; 3; 4; 5; 6; 7]%Z [2; 3; 4; 5; 6; 7; 8]%Z in
  let later := Samples.two_voxels 7 [1; 2; 3; 4; 5; 6; 0]%Z [2; 3; 4; 5; 6; 7; 9]%Z in
  baseline_tpts (Q2Qc (1 # 2)) Samples.tenth = inr 6%Z
  ∧ baseline (run (Samples.ivm image) o init).1
    = Some [Samples.dec 7 2; Samples.dec 9 2]
  ∧ baseline (run (Samples.ivm image) o init).1
    = baseline (run (set_main later (Samples.ivm image)) o init).1.
Proof.
  intros o image later.
  destruct (baseline_from_first_K_points (Samples.ivm image) o init
              {| c_roi := None; c_img1 := image;
                 c_t101 := Samples.ones; c_R1 := 1; c_R2 := 1;
                 c_DelT := Samples.tenth; c_InjT := Q2Qc (1 # 2);
                 c_TR := 1; c_TE := 1; c_FA := 1;
                 c_thresh := Qc_of_Z 50; c_model := 1; c_K := 6 |} later)
    as (HK & Hmean & Hstored & Hsame & _).
  - unfold configured. repeat split; vm_compute; reflexivity.
  - vm_compute. discriminate.
  - reflexivity.
  - reflexivity.
  - vm_compute. reflexivity.
  - split; [exact HK |]. split; [compute_done | exact Hsame].
Defined.

(** C6, as stated, fails.  With the injection 3 s before the first time
    point and one point a second, the formula gives K = -2 and the program
    too; any two volumes agree on their first -2 points, but the slice
    [:-2] keeps all points except the last two, and the baselines differ.
    With the injection at the double just below 2, the formula gives
    K = 2, but the sum 1 + 1.9999999999999998 rounds to 3.0: the program
    averages three points, and two volumes that agree on the first two have
    different baselines. *)
Lemma baseline_formula_counterexample :
  let early := Samples.timed (Qc_of_Z (-3)) 1 in
  let a := Samples.two_voxels 4 [1; 2; 3; 4]%Z [1; 2; 3; 4]%Z in
  let b := Samples.two_voxels 4 [4; 6; 3; 4]%Z [1; 2; 3; 4]%Z in
  let late := Samples.timed Samples.below_two 1 in
  let a' := Samples.two_voxels 4 [1; 2; 3; 4]%Z [1; 2; 3; 4]%Z in
  let b' := Samples.two_voxels 4 [1; 2; 6; 4]%Z [1; 2; 3; 4]%Z in
  ((1 + Qfloor (Qc_of_Z (-3) / 1)%Qc)%Z = (-2)%Z
   ∧ baseline_tpts (Qc_of_Z (-3)) 1 = inr (-2)%Z
   ∧ take (Z.to_nat (-2)) <$> voxel_series a = take (Z.to_nat (-2)) <$> voxel_series b
   ∧ baseline (Samples.self_after_run a early) = Some [Samples.dec 3 2; Samples.dec 3 2]
   ∧ baseline (Samples.self_after_run b early) = Some [Num.of_Z 5; Samples.dec 3 2])
  ∧ ((1 + Qfloor (Samples.below_two / 1)%Qc)%Z = 2%Z
     ∧ baseline_tpts Samples.below_two 1 = inr 3%Z
     ∧ take 2 <$> voxel_series a' = take 2 <$> voxel_series b'
     ∧ baseline (Samples.self_after_run a' late) = Some [Num.of_Z 2; Num.of_Z 2]
     ∧ baseline (Samples.self_after_run b' late) = Some [Num.of_Z 3; Num.of_Z 2]).
Proof. repeat split; compute_done. Qed.


(** ** An empty selection *)

Lemma vectorise_empty_selection c options self :
  on_one_grid c →
  Forall (λ b, b = false) (mask_of c) →
  ∃ s1 a, vectorise c options self = (s1, inr (1%nat, a)) ∧ img1sub a = [].
Proof.
  intros (HT & Hflat & Hmask & Ht10) Hfalse. unfold vectorise, np.reshape_rows.
  rewrite bool_decide_eq_false_2 by exact HT.
  unfold np.getitem.
  rewrite rows_length, Hflat, Nat.div_mul by exact HT.
  rewrite baseline_of_length, Ht10.
  rewrite !bool_decide_eq_true_2 by exact Hmask.
  rewrite !select_all_false by exact Hfalse.
  eexists _, _. split; reflexivity.
Qed.

(** C1, as amended.  When the configuration passes the checks of [run], the
    arrays lie on one grid and the mask has no true entry, [run] raises
    nothing and dispatches one worker with no voxel; that worker, with any
    engine, returns at once the tuple (worker id, [False], empty-selection
    error) and leaves the queue as it found it. *)
Theorem empty_selection_fails_in_worker (ivm : ivm_t) (options : options_t)
    (self : self_t) (c : config) :
  configured ivm options c →
  on_one_grid c →
  Forall (λ b, b = false) (mask_of c) →
  ∃ s1 a,
    run ivm options self = (s1, inr (1%nat, a))
    ∧ img1sub a = []
    ∧ ∀ (pk : Type) (Pk : PyPk_class pk) (worker_id : nat) (q : queue),
        _run_pk Pk worker_id q a
        = (q, (worker_id, false,
               Failure (QpException "Pk Modelling - no unmasked data found!"))).
Proof.
  intros Hc Hgrid Hfalse.
  destruct (vectorise_empty_selection c options self Hgrid Hfalse) as (s1 & a & Hv & Ha).
  exists s1, a. rewrite (run_configured _ _ _ _ Hc).
  split; [exact Hv |]. split; [exact Ha |].
  intros pk Pk worker_id q. by apply run_pk_empty.
Qed.

Lemma empty_selection_fails_in_worker_witness :
  ∃ s1 a,
    run (Samples.ivm Samples.img) (Samples.options (Some "none") "" 0 50) init
      = (s1, inr (1%nat, a))
    ∧ img1sub a = []
    ∧ _run_pk Samples.chunk_recorder 3 [] a
      = ([], (3%nat, false,
              Failure (QpException "Pk Modelling - no unmasked data found!"))).
Proof.
  destruct (empty_selection_fails_in_worker (Samples.ivm Samples.img)
              (Samples.options (Some "none") "" 0 50) init
              {| c_roi := Some Samples.no_voxel; c_img1 := Samples.img;
                 c_t101 := Samples.ones; c_R1 := 1; c_R2 := 1; c_DelT := 1;
                 c_InjT := Qc_of_Z 0; c_TR := 1; c_TE := 1; c_FA := 1;
                 c_thresh := Qc_of_Z 50; c_model := 1; c_K := 1 |})
    as (s1 & a & Hrun & Ha & Hworker).
  - unfold configured. repeat split; vm_compute; reflexivity.
  - unfold on_one_grid. repeat split; vm_compute; (reflexivity || discriminate).
  - vm_compute. repeat constructor.
  - exists s1, a. split; [exact Hrun |]. split; [exact Ha |]. apply Hworker.
Defined.

(** C1, as stated, fails: with a ROI that selects no voxel, [run] raises
    nothing and dispatches the worker, and the empty-selection error is the
    failure value that the worker returns. *)
Lemma empty_selection_counterexample :
  let r := run (Samples.ivm Samples.img) (Samples.options (Some "none") "" 0 50) init in
  roi1vec r.1 = Some [false; false]
  ∧ r.2 = inr (Samples.started Samples.img (Samples.options (Some "none") "" 0 50))
  ∧ r.2 ≠ inl (QpException "Pk Modelling - no unmasked data found!")
  ∧ (Samples.started Samples.img (Samples.options (Some "none") "" 0 50)).1 = 1%nat
  ∧ _run_pk Samples.chunk_recorder 0 []
      (Samples.started Samples.img (Samples.options (Some "none") "" 0 50)).2
    = ([], (0%nat, false,
            Failure (QpException "Pk Modelling - no unmasked data found!"))).
Proof. repeat split; compute_done. Qed.

(** * Further properties of the worker and of the progress queue *)

Lemma drain_app q r p p0 : drain (q ++ [(r, p)]) p0 = ([], p).
Proof.
  revert p0. induction q as [| [r' p'] q IH]; intros p0; cbn; [done | apply IH].
Qed.

Lemma timeout_snoc (q : queue) (r p : num) :
  timeout (q ++ [(r, p)]) = ([], [(p / Num.of_Z 100)%num]).
Proof.
  destruct q as [| [r' p'] q]; cbn; [done |]. by rewrite drain_app.
Qed.

(** X1.  The timer reports the latest progress only: whatever was queued before
    the last tuple is dropped, and the queue is left empty. *)
Theorem timeout_emits_latest (q : queue) (r p : num) :
  timeout (q ++ [(r, p)]) = ([], [(p / Num.of_Z 100)%num]).
Proof. apply timeout_snoc. Qed.

(** X2.  A second tick with nothing new in the queue emits nothing. *)
Theorem timeout_twice (q : queue) : timeout (timeout q).1 = ([], []).
Proof.
  destruct q as [| item q] using rev_ind; [done |].
  destruct item as [r p]. by rewrite timeout_snoc.
Qed.

(** ** Ticks of the timer between the puts of the worker *)

Lemma timeout_empties (q : queue) : (timeout q).1 = [].
Proof.
  destruct q as [| item q] using rev_ind; [done |].
  destruct item as [r p]. by rewrite timeout_snoc.
Qed.

Lemma play_app (evs1 evs2 : list event) (q : queue) :
  play (evs1 ++ evs2) q
  = let '(q1, s1) := play evs1 q in
    let '(q2, s2) := play evs2 q1 in (q2, s1 ++ s2).
Proof.
  revert q. induction evs1 as [| [item |] evs1 IH]; intros q; cbn.
  - by destruct (play evs2 q).
  - apply IH.
  - destruct (timeout q) as [q1 emitted]. rewrite IH.
    destruct (play evs1 q1) as [q2 later]. destruct (play evs2 q2) as [q3 s3].
    by rewrite app_assoc.
Qed.

Lemma puts_of_app (evs1 evs2 : list event) :
  puts_of (evs1 ++ evs2) = puts_of evs1 ++ puts_of evs2.
Proof. unfold puts_of. apply omap_app. Qed.

Lemma play_tick_empties (evs : list event) (q : queue) :
  (play (evs ++ [Tick]) q).1 = [].
Proof.
  rewrite play_app. destruct (play evs q) as [q1 s1]. cbn.
  pose proof (timeout_empties q1) as H. destruct (timeout q1) as [q2 s2].
  cbn in *. by subst.
Qed.

(** The last tuple that was put is either still in the queue, as its last
    tuple, or it was taken by the last tick that emitted something. *)
Lemma play_last (evs : list event) (q items : queue) (r p : num) :
  q ++ puts_of evs = items ++ [(r, p)] →
  (∃ q1, (play evs q).1 = q1 ++ [(r, p)])
  ∨ ((play evs q).1 = [] ∧ ∃ s, (play evs q).2 = s ++ [(p / Num.of_Z 100)%num]).
Proof.
  induction evs as [| e evs IH] using rev_ind; intros Hputs.
  - left. exists items. cbn in *. by rewrite app_nil_r in Hputs.
  - rewrite play_app. destruct (play evs q) as [q1 s1] eqn:Hplay. cbn [fst snd] in IH.
    rewrite puts_of_app in Hputs. destruct e as [item |]; cbn in *.
    + left. rewrite app_assoc in Hputs. apply app_inj_tail in Hputs as [_ ->]. eauto.
    + rewrite app_nil_r in Hputs.
      destruct (IH Hputs) as [[q1' ->] | [-> [s ->]]].
      * rewrite timeout_snoc. cbn. right. split; [done | eauto].
      * cbn. right. split; [done |]. exists s. by rewrite !app_nil_r.
Qed.

Lemma puts_of_ticked (q : queue) :
  puts_of (q ≫= (λ item, [Put item; Tick])) = q.
Proof.
  induction q as [| item q IH]; [done |].
  change (puts_of ([Put item; Tick] ++ (q ≫= (λ item, [Put item; Tick]))) = item :: q).
  rewrite puts_of_app, IH. reflexivity.
Qed.

Section WorkerProgress.

Context {pk : Type} (Pk : PyPk_class pk).

Lemma progress_of_chunk (ii : nat) (steps : Z) :
  (0 < ii)%nat → (Z.of_nat ii < steps)%Z →
  progress_item (Num.one, Fin (Qc_of_Z (Z.of_nat ii) / Qc_of_Z steps * Qc_of_Z 100)).
Proof.
  intros Hii Hlt. split; [done |]. eexists. split; [reflexivity |].
  assert (0 < Qc_of_Z (Z.of_nat ii)) as Hi
    by (rewrite <- Z2Qc_inj_0; apply (proj1 (Z2Qc_inj_lt _ _)); lia).
  assert (0 < Qc_of_Z steps) as Hs
    by (rewrite <- Z2Qc_inj_0; apply (proj1 (Z2Qc_inj_lt _ _)); lia).
  assert (0 < Qc_of_Z 100) as H100 by compute_done.
  split.
  - apply Qcmult_pos_pos; [| done]. apply Qcmult_pos_pos; [done |]. by apply Qcinv_pos.
  - rewrite <- (Qcmult_1_l (Qc_of_Z 100)) at 2.
    apply Qcmult_le_mono_nonneg_r; [by apply Qclt_le_weak |].
    apply (Qcmult_le_mono_pos_r _ _ (Qc_of_Z steps)); [done |].
    rewrite Qcmult_1_l. unfold Qcdiv. rewrite <- Qcmult_assoc, Qcmult_inv_l.
    + rewrite Qcmult_1_r. apply (proj1 (Z2Qc_inj_le _ _)). lia.
    + intros Hz. rewrite Hz in Hs. by apply Qclt_not_eq in Hs.
Qed.

Lemma run_chunks_queue num_row steps size :
  num_row = Num.one →
  ∀ todo ii Pkclass log q q' r,
    (todo = 0%nat ∨ Z.of_nat (ii + todo) ≤ steps)%Z →
    run_chunks Pk num_row steps size todo ii Pkclass log q = (q', r) →
    ∃ added, q' = q ++ added ∧ Forall progress_item added.
Proof.
  intros ->. induction todo as [| todo IH]; intros ii Pkclass log q q' r Hle Hrun.
  - cbn in Hrun. injection Hrun as <- <-. exists []. by rewrite app_nil_r.
  - rewrite run_chunks_step in Hrun. cbn zeta in Hrun.
    assert (∃ added1,
              (if bool_decide (0 < ii)%nat
               then q ++ [(Num.one,
                           Fin (Qc_of_Z (Z.of_nat ii) / Qc_of_Z steps * Qc_of_Z 100))]
               else q) = q ++ added1 ∧ Forall progress_item added1)
      as (added1 & Hq1 & Hadded1).
    { case_bool_decide as Hii.
      - eexists. split; [reflexivity |]. constructor; [| constructor].
        apply progress_of_chunk; lia.
      - exists []. by rewrite app_nil_r. }
    rewrite Hq1 in Hrun.
    destruct (pk_run Pk size Pkclass) as [e | [P' l]].
    + injection Hrun as <- <-. eauto.
    + apply IH in Hrun as (added2 & -> & Hadded2); [| lia].
      exists (added1 ++ added2). rewrite app_assoc. split; [done |].
      by apply Forall_app.
Qed.

Lemma run_pk_body_queue a q q' r :
  run_pk_body Pk a q = (q', r) →
  ∃ added, q' = q ++ added ∧ Forall progress_item added
           ∧ (∀ out, r = inr out → ∃ before, added = before ++ [(Num.one, Num.of_Z 100)]).
Proof.
  assert (progress_item (Num.one, Num.one)) as Hfirst.
  { split; [done |]. exists 1. repeat split; compute_done. }
  assert (progress_item (Num.one, Num.of_Z 100)) as Hlast.
  { split; [done |]. eexists. repeat split; compute_done. }
  intros Hrun.
  destruct (decide (length (img1sub a) = 0%nat)) as [Hz | Hnz].
  { unfold run_pk_body in Hrun. rewrite bool_decide_eq_true_2 in Hrun by exact Hz.
    injection Hrun as <- <-. exists []. rewrite app_nil_r. by repeat split. }
  destruct (pk_setup Pk a) as [e | [Pkclass log]] eqn:Hsetup.
  { unfold run_pk_body in Hrun. rewrite bool_decide_eq_false_2 in Hrun by exact Hnz.
    rewrite M_bind_unfold in Hrun. unfold lift in Hrun. rewrite Hsetup in Hrun.
    injection Hrun as <- <-. exists []. rewrite app_nil_r. by repeat split. }
  rewrite (run_pk_body_unfold Pk a q Pkclass log Hnz Hsetup) in Hrun. cbn zeta in Hrun.
  destruct (run_chunks _ _ _ _ _ _ _ _ _) as [q1 r1] eqn:Hchunks.
  apply run_chunks_queue in Hchunks as (added & -> & Hadded); [| done | lia].
  rewrite <- app_assoc in Hrun.
  assert (Forall progress_item ([(Num.one, Num.one)] ++ added)) as Hpre
    by (apply Forall_app; split; [by constructor | done]).
  destruct r1 as [e | [P' log']].
  { injection Hrun as <- <-. eexists. by repeat split. }
  destruct (get_residual Pk P'); [injection Hrun as <- <-; eexists; by repeat split |].
  destruct (get_fitted_curve Pk P');
    [injection Hrun as <- <-; eexists; by repeat split |].
  destruct (get_parameters Pk P');
    [injection Hrun as <- <-; eexists; by repeat split |].
  injection Hrun as <- <-. rewrite <- app_assoc.
  eexists. split; [reflexivity |]. split.
  - apply Forall_app. split; [done | by constructor].
  - intros out _. eauto.
Qed.

(** X3.  The worker only adds to the queue, and all it adds are progress tuples
    with a percentage above 0 and at most 100. *)
Theorem worker_puts_progress_only (worker_id : nat) (q q' : queue) (a : fit_args)
    (r : nat * bool * worker_value) :
  _run_pk Pk worker_id q a = (q', r) →
  ∃ added, q' = q ++ added ∧ Forall progress_item added.
Proof.
  unfold _run_pk. destruct (run_pk_body Pk a q) as [q1 r1] eqn:Hbody.
  apply run_pk_body_queue in Hbody as (added & -> & Hadded & _).
  destruct r1; intros [= <- <-]; eauto.
Qed.

(** X4.  When the worker has succeeded, then under every interleaving of
    ticks of the timer with the puts of the worker, a tick after the last
    put leaves the queue empty, and the last progress that was emitted, by
    that tick or by an earlier one, is full progress. *)
Theorem timeout_after_success (worker_id : nat) (q added : queue) (a : fit_args)
    (out : fit_output) (evs : list event) :
  _run_pk Pk worker_id q a = (q ++ added, (worker_id, true, Payload out)) →
  puts_of evs = added →
  (play (evs ++ [Tick]) q).1 = []
  ∧ last (play (evs ++ [Tick]) q).2 = Some Num.one.
Proof.
  unfold _run_pk. destruct (run_pk_body Pk a q) as [q1 r1] eqn:Hbody.
  apply run_pk_body_queue in Hbody as (added' & -> & _ & Hlast).
  destruct r1 as [e | out1]; intros [= Hq <-] Hputs.
  apply app_inv_head in Hq as <-.
  destruct (Hlast out1 eq_refl) as [before ->].
  split; [apply play_tick_empties |].
  destruct (play_last (evs ++ [Tick]) q (q ++ before) Num.one (Num.of_Z 100))
    as [[q1' Hq1] | [_ [s' Hs]]].
  - rewrite puts_of_app, Hputs. cbn. by rewrite app_nil_r, app_assoc.
  - pose proof (play_tick_empties evs q) as Hempty. rewrite Hq1 in Hempty.
    by destruct q1'.
  - rewrite Hs, last_snoc. f_equal. compute_done.
Qed.

(** X5.  An exception raised while the engine is built or initialised (for
    instance for an unknown model) is returned as the failure value, and
    nothing has been put into the queue. *)
Theorem setup_exception_is_returned (worker_id : nat) (q : queue) (a : fit_args)
    (e : exn) :
  length (img1sub a) ≠ 0%nat →
  pk_setup Pk a = inl e →
  _run_pk Pk worker_id q a = (q, (worker_id, false, Failure e)).
Proof.
  intros Hnz Hsetup. apply run_pk_catches. unfold run_pk_body.
  rewrite bool_decide_eq_false_2 by exact Hnz.
  rewrite M_bind_unfold. unfold lift. by rewrite Hsetup.
Qed.

End WorkerProgress.

Lemma worker_puts_progress_only_witness :
  ∃ added,
    (_run_pk Samples.fails_on_second_chunk 0 [(Num.one, Num.one)] (Samples.voxels 5)).1
      = [(Num.one, Num.one)] ++ added
    ∧ Forall progress_item added.
Proof.
  destruct (_run_pk Samples.fails_on_second_chunk 0 [(Num.one, Num.one)]
              (Samples.voxels 5)) as [q' r] eqn:Hrun.
  exact (worker_puts_progress_only Samples.fails_on_second_chunk 0 _ q'
           (Samples.voxels 5) r Hrun).
Defined.

(** A tick after every put: the tick after the worker has returned finds
    the queue empty, and the last progress emitted is still 1. *)
Lemma timeout_after_success_witness :
  let puts := (_run_pk Samples.chunk_recorder 0 [] (Samples.voxels 5)).1 in
  let evs := puts ≫= (λ item, [Put item; Tick]) in
  (play (evs ++ [Tick]) []).1 = []
  ∧ last (play (evs ++ [Tick]) []).2 = Some Num.one.
Proof.
  intros puts evs.
  destruct (worker_chunk_calls 0 [] (Samples.voxels 5)) as (q1 & out & Hok & _);
    [vm_compute; discriminate |].
  apply (timeout_after_success Samples.chunk_recorder 0 [] puts (Samples.voxels 5) out).
  - unfold puts. rewrite Hok. reflexivity.
  - apply puts_of_ticked.
Defined.

Lemma setup_exception_is_returned_witness :
  _run_pk Samples.one_model 4 [] (Samples.model_two (Samples.voxels 3))
  = ([], (4%nat, false, Failure Samples.unknown_model)).
Proof.
  apply setup_exception_is_returned.
  - vm_compute. discriminate.
  - reflexivity.
Defined.

(** ** The chunking arithmetic *)

Lemma half_half : Q2Qc (1 # 2) + Q2Qc (1 # 2) = 1.
Proof. compute_done. Qed.

Lemma Qcle_by_diff (x y d : Qc) : 0 ≤ d → y - x = d → x ≤ y.
Proof. intros Hd Heq. apply (proj2 (Qcle_minus_iff x y)). by rewrite <- Heq in Hd. Qed.

(** [np.around] is within one half of its argument. *)
Lemma around_spec (q : Qc) :
  q - Q2Qc (1 # 2) ≤ Qc_of_Z (np.around q) ∧ Qc_of_Z (np.around q) ≤ q + Q2Qc (1 # 2).
Proof.
  unfold np.around. cbv zeta.
  set (F := Qc_of_Z (Qfloor q)). set (half := Q2Qc (1 # 2)).
  assert (0 ≤ q - F) as Hlo by apply (proj1 (Qcle_minus_iff F q)), Qc_of_Z_floor_le.
  assert (0 ≤ F + 1 - q) as Hhi.
  { apply Qclt_le_weak, (proj1 (Qclt_minus_iff q (F + 1))), Qc_lt_floor_succ. }
  assert (0 ≤ half) as Hhalf by compute_done.
  assert (half + half = 1) as H1 by apply half_half.
  assert (Qc_of_Z (Qfloor q + 1) = F + 1) as HF1
    by (rewrite Z2Qc_inj_add, Z2Qc_inj_1; reflexivity).
  assert (q - half ≤ F + 1) as Hup.
  { apply (Qcle_by_diff _ _ ((F + 1 - q) + half)); [| ring].
    by apply Qcplus_nonneg_nonneg. }
  assert (F ≤ q + half) as Hdown.
  { apply (Qcle_by_diff _ _ ((q - F) + half)); [| ring].
    by apply Qcplus_nonneg_nonneg. }
  assert (¬ q - F < half → ¬ half < q - F → q - F = half) as Htie.
  { intros Ha Hb. apply Qcle_antisym; by apply Qcnot_lt_le. }
  case_bool_decide as Hr1; [| case_bool_decide as Hr2].
  - fold F. split; [| exact Hdown].
    apply (Qcle_by_diff _ _ (half - (q - F))); [| ring].
    apply Qclt_le_weak, (proj1 (Qclt_minus_iff (q - F) half)), Hr1.
  - rewrite HF1. split; [exact Hup |].
    apply (Qcle_by_diff _ _ ((q - F) - half)); [| rewrite <- H1; ring].
    apply Qclt_le_weak, (proj1 (Qclt_minus_iff half (q - F))), Hr2.
  - specialize (Htie Hr1 Hr2).
    destruct (Z.even (Qfloor q)); [fold F | rewrite HF1]; split;
      try exact Hup; try exact Hdown.
    + apply (Qcle_by_diff _ _ 0); [done |]. rewrite <- Htie. ring.
    + apply (Qcle_by_diff _ _ 0); [done |]. rewrite <- H1, <- Htie. ring.
Qed.

(** The same bound for a quotient of integers, without fractions. *)
Lemma around_div_bounds (a b : Z) :
  (0 < b)%Z →
  (2 * a - b ≤ 2 * b * np.around (Qc_of_Z a / Qc_of_Z b)
   ∧ 2 * b * np.around (Qc_of_Z a / Qc_of_Z b) ≤ 2 * a + b)%Z.
Proof.
  intros Hb.
  set (k := np.around (Qc_of_Z a / Qc_of_Z b)).
  destruct (around_spec (Qc_of_Z a / Qc_of_Z b)) as [Hlo Hhi]. fold k in Hlo, Hhi.
  assert (0 < Qc_of_Z b) as HB
    by (rewrite <- Z2Qc_inj_0; apply (proj1 (Z2Qc_inj_lt _ _)); lia).
  assert (Qc_of_Z b ≠ 0) as HB0
    by (intros Hz; rewrite Hz in HB; by apply Qclt_not_eq in HB).
  assert (0 ≤ 2 * Qc_of_Z b) as H2B.
  { apply Qcmult_nonneg_nonneg; [compute_done | by apply Qclt_le_weak]. }
  pose proof half_half as Hh.
  split; apply (proj2 (Z2Qc_inj_le _ _)).
  - rewrite Z2Qc_inj_sub, !Z2Qc_inj_mul, Z2Qc_inj_2.
    apply (Qcmult_le_mono_nonneg_l _ _ _ H2B) in Hlo.
    etrans; [| exact Hlo]. apply Qcle_by_diff with (d := 0); [done |].
    revert Hh. generalize (Q2Qc (1 # 2)). intros h Hh.
    transitivity (Qc_of_Z b * (1 - (h + h))); [field; exact HB0 | rewrite Hh; ring].
  - rewrite Z2Qc_inj_add, !Z2Qc_inj_mul, Z2Qc_inj_2.
    apply (Qcmult_le_mono_nonneg_l _ _ _ H2B) in Hhi.
    etrans; [exact Hhi |]. apply Qcle_by_diff with (d := 0); [done |].
    revert Hh. generalize (Q2Qc (1 # 2)). intros h Hh.
    transitivity (Qc_of_Z b * (1 - (h + h))); [field; exact HB0 | rewrite Hh; ring].
Qed.

Lemma chunk_bounds (N : nat) :
  (0 < N)%nat →
  (1 ≤ size_step N
   ∧ 1 ≤ steps1 N
   ∧ 2 * Z.abs (size_step N * steps1 N - Z.of_nat N) ≤ size_step N)%Z.
Proof.
  intros HN.
  assert (1 ≤ size_step N)%Z as Hsize by (unfold size_step; lia).
  assert (size_step N ≤ Z.of_nat N)%Z as HsizeN.
  { unfold size_step.
    destruct (around_div_bounds (Z.of_nat N) 5) as [_ H]; lia. }
  destruct (around_div_bounds (Z.of_nat N) (size_step N)) as [Hlo Hhi]; [lia |].
  fold (steps1 N) in Hlo, Hhi.
  split; [exact Hsize |]. split; nia.
Qed.

(** X6.  For every non-empty selection the loop runs at least once with a chunk
    size of at least one, and the voxels its calls cover differ from the
    selection by at most half a chunk: too few or too many, never more. *)
Theorem chunks_cover_within_half_a_chunk (N : nat) :
  (0 < N)%nat →
  (1 ≤ size_step N
   ∧ 1 ≤ steps1 N
   ∧ 2 * Z.abs (size_step N * steps1 N - Z.of_nat N) ≤ size_step N)%Z.
Proof. apply chunk_bounds. Qed.

Lemma chunks_cover_within_half_a_chunk_witness :
  (1 ≤ size_step 13
   ∧ 1 ≤ steps1 13
   ∧ 2 * Z.abs (size_step 13 * steps1 13 - 13) ≤ size_step 13)%Z.
Proof. apply (chunks_cover_within_half_a_chunk 13). lia. Defined.

(** X7.  When the chunk size divides the number of voxels, the calls cover the
    selection exactly. *)
Theorem chunks_cover_exactly (N : nat) :
  (0 < N)%nat →
  (size_step N | Z.of_nat N)%Z →
  (size_step N * steps1 N = Z.of_nat N)%Z.
Proof.
  intros HN [k Hk].
  destruct (chunk_bounds N HN) as (Hsize & _ & Hhalf).
  rewrite Hk in *.
  replace (size_step N * steps1 N - k * size_step N)%Z
    with (size_step N * (steps1 N - k))%Z in Hhalf by ring.
  rewrite Z.abs_mul, (Z.abs_eq (size_step N)) in Hhalf by lia.
  assert (Z.abs (steps1 N - k) = 0)%Z as Hd by nia.
  apply Z.abs_0_iff in Hd. nia.
Qed.

Lemma chunks_cover_exactly_witness : (size_step 10 * steps1 10 = 10)%Z.
Proof.
  apply (chunks_cover_exactly 10); [lia |].
  exists 5%Z. vm_compute. reflexivity.
Defined.

(** * Further properties of [run] *)

Lemma run_checks_vectorise ivm options self :
  run ivm options self =
    match run_checks ivm options self with
    | (s, inl e) => (s, inl e)
    | (_, inr c) => vectorise c options self
    end.
Proof.
  destruct (run_checks ivm options self) as [s [e | c]] eqn:Hchecks; cycle 1.
  { apply run_configured. unfold run_checks in Hchecks.
    repeat (case_match; try discriminate). simplify_eq. unfold configured. cbn.
    repeat split; try done.
    match goal with
    | H : bool_decide (_ ≠ _) = false |- _ => apply bool_decide_eq_false_1 in H; lia
    end. }
  unfold run.
  assert (match opt_roi options with
          | None => mret (current_roi ivm)
          | Some roi_name =>
              match rois ivm !! roi_name with
              | Some r => mret (Some r)
              | None => raise (QpException "Specified ROI not found")
              end
          end = (lift (roi_of ivm options) : M self_t _)) as Hlift.
  { unfold roi_of. repeat case_match; reflexivity. }
  rewrite Hlift. clear Hlift.
  unfold run_checks in Hchecks.
  unfold pop, mbind, M_bind, mret, M_ret, lift, modify, gets, raise.
  destruct (roi_of ivm options) as [e' | roi]; [by injection Hchecks as <- <- |].
  cbv beta iota. cbn [suffix set_suffix set_log].
  unfold suffix_of in Hchecks.
  destruct (opt_suffix options) as [sfx |]; cbn [default from_option id] in *;
    repeat case_bool_decide; subst; try done; cbv beta iota.
  all: destruct (main ivm) as [img1 |]; [| by injection Hchecks as <- <-].
  all: destruct (bool_decide (length (np.shape img1) ≠ 4%nat));
    [by injection Hchecks as <- <- |].
  all: repeat (match type of Hchecks with
               | context [match ?x with _ => _ end] =>
                   destruct x; [| by injection Hchecks as <- <-]
               end; cbv beta iota).
  all: destruct (baseline_tpts _ _); [by injection Hchecks as <- <- | discriminate].
Qed.

(** X8.  A ROI name that the data store does not know is rejected before
    anything else is looked at: only the log of [self] is reset, the suffix
    and the threshold of an earlier run stay. *)
Theorem unknown_roi_is_rejected (ivm : ivm_t) (options : options_t) (self : self_t)
    (name : string) :
  opt_roi options = Some name →
  rois ivm !! name = None →
  run ivm options self
  = (set_log (λ _, "") self, inl (QpException "Specified ROI not found")).
Proof.
  intros Hname Hroi. rewrite run_checks_vectorise. unfold run_checks, roi_of.
  by rewrite Hname, Hroi.
Qed.

Lemma unknown_roi_is_rejected_witness :
  run (Samples.ivm Samples.img) (Samples.options (Some "liver") "x" 0 50) init
  = (set_log (λ _, "") init, inl (QpException "Specified ROI not found")).
Proof. by apply (unknown_roi_is_rejected _ _ _ "liver"). Defined.

(** X9.  Without a main volume, or with one that is not four-dimensional, [run]
    raises its own error whatever the options hold, after it has stored the
    suffix. *)
Theorem data_must_be_loaded_and_4d (ivm : ivm_t) (options : options_t)
    (self : self_t) (roi : option np.ndarray) :
  roi_of ivm options = inr roi →
  (∀ img, main ivm = Some img → length (np.shape img) ≠ 4%nat) →
  run ivm options self
  = (set_suffix (suffix_of options) (set_log (λ _, "") self),
     inl (QpException (match main ivm with
                       | None => "No data loaded"
                       | Some _ => "Data must be 4D for DCE PK modelling"
                       end))).
Proof.
  intros Hroi Hdim. rewrite run_checks_vectorise. unfold run_checks. rewrite Hroi.
  destruct (main ivm) as [img |]; [| done].
  by rewrite bool_decide_eq_true_2 by auto.
Qed.

Lemma data_must_be_loaded_and_4d_witness :
  run (Samples.ivm Samples.ones) (Samples.options None "x" 0 50) init
  = (set_suffix "_x" (set_log (λ _, "") init),
     inl (QpException "Data must be 4D for DCE PK modelling")).
Proof.
  apply (data_must_be_loaded_and_4d (Samples.ivm Samples.ones)
           (Samples.options None "x" 0 50) init None).
  - reflexivity.
  - intros img [= <-]. vm_compute. discriminate.
Defined.

(** X10.  When the data are there and the T10 map or an option without a default
    is missing, [run] raises the [KeyError] of the first missing key in the
    order of its lookups. *)
Theorem first_missing_key_is_reported (ivm : ivm_t) (options : options_t)
    (self : self_t) (roi : option np.ndarray) (img : np.ndarray)
    (key : string) (rest : list string) :
  roi_of ivm options = inr roi →
  main ivm = Some img →
  length (np.shape img) = 4%nat →
  missing_keys ivm options = key :: rest →
  (run ivm options self).2 = inl (KeyError key).
Proof.
  intros Hroi Hmain Hdim Hmiss. rewrite run_checks_vectorise.
  unfold run_checks, missing_keys in *. rewrite Hroi, Hmain.
  rewrite bool_decide_eq_false_2 by (intros Hne; apply Hne, Hdim).
  repeat (match goal with
          | |- context [match ?x with Some _ => _ | None => _ end] =>
              destruct x; [| by injection Hmiss as <- _]
          end; cbn [app] in Hmiss).
  discriminate.
Qed.

Lemma first_missing_key_is_reported_witness :
  (run (Samples.ivm Samples.img)
       {| opt_roi := None; opt_suffix := None; opt_r1 := Some 1; opt_r2 := Some 1;
          opt_dt := None; opt_tinj := Some 1; opt_tr := None; opt_te := Some 1;
          opt_fa := Some 1; opt_ve_thresh := Some 1; opt_dose := None;
          opt_model := None |} init).2
  = inl (KeyError "dt").
Proof.
  apply (first_missing_key_is_reported _ _ _ None Samples.img "dt" ["tr"; "model"]);
    reflexivity.
Defined.

(** X11.  A sampling interval of zero, with everything else in place, ends [run]
    with a [ZeroDivisionError]. *)
Theorem zero_sampling_interval_is_rejected (ivm : ivm_t) (options : options_t)
    (self : self_t) (roi : option np.ndarray) (img : np.ndarray) :
  roi_of ivm options = inr roi →
  main ivm = Some img →
  length (np.shape img) = 4%nat →
  missing_keys ivm options = [] →
  opt_dt options = Some 0 →
  (run ivm options self).2 = inl ZeroDivisionError.
Proof.
  intros Hroi Hmain Hdim Hmiss Hdt. rewrite run_checks_vectorise.
  unfold run_checks, missing_keys in *. rewrite Hroi, Hmain, Hdt in *.
  rewrite bool_decide_eq_false_2 by (intros Hne; apply Hne, Hdim).
  repeat (match goal with
          | |- context [match ?x with Some _ => _ | None => _ end] =>
              destruct x; [| discriminate]
          end; cbn [app] in Hmiss).
  reflexivity.
Qed.

Lemma zero_sampling_interval_is_rejected_witness :
  (run (Samples.ivm Samples.img)
       {| opt_roi := None; opt_suffix := None; opt_r1 := Some 1; opt_r2 := Some 1;
          opt_dt := Some 0; opt_tinj := Some 1; opt_tr := Some 1; opt_te := Some 1;
          opt_fa := Some 1; opt_ve_thresh := Some 1; opt_dose := None;
          opt_model := Some 1%Z |} init).2
  = inl ZeroDivisionError.
Proof.
  apply (zero_sampling_interval_is_rejected _ _ _ None Samples.img); reflexivity.
Defined.

(** X12.  With an injection time that is not negative and a positive sampling
    interval, line 137 yields a count of at least one time point, or, when
    the quotient overflows to infinity, the [OverflowError] of [int]; it
    raises nothing else.  When the quotient is a whole number [n] up to
    2^53 - 2, the count is [1 + n]. *)
Theorem baseline_uses_at_least_one_point (InjT DelT : Qc) :
  0 ≤ InjT → 0 < DelT →
  match baseline_tpts InjT DelT with
  | inr K => (1 ≤ K)%Z
  | inl e => e = OverflowError "cannot convert float infinity to integer"
  end
  ∧ (∀ n, (0 ≤ n < 2 ^ 53 - 1)%Z → InjT = Qc_of_Z n * DelT →
          baseline_tpts InjT DelT = inr (1 + n)%Z).
Proof.
  intros HInj HDel.
  assert (DelT ≠ 0) as HD by (by apply Qc_pos_neq).
  split; [| intros n Hn ->; by apply baseline_tpts_whole].
  unfold baseline_tpts, truediv. rewrite bool_decide_eq_false_2 by exact HD.
  rewrite exn_bind_ret.
  assert (0 ≤ InjT / DelT) as Hq
    by (apply Qcmult_nonneg_nonneg; [done | by apply Qclt_le_weak, Qcinv_pos]).
  destruct (round_nonneg _ Hq) as [-> | (r & -> & Hr)]; [reflexivity |].
  unfold float_add, Num.one. cbn [Num.add].
  assert (1 ≤ 1 + r) as H1.
  { rewrite <- (Qcplus_0_r 1) at 1. by apply Qcplus_le_mono_l. }
  assert (Double.round (1 + r) = Double.round_pos (1 + r)) as ->.
  { unfold Double.round.
    rewrite bool_decide_eq_false_2
      by (apply Qc_pos_neq; eapply Qclt_le_trans; [| exact H1]; compute_done).
    rewrite bool_decide_eq_false_2; [done |].
    apply Qcle_not_lt. etrans; [| exact H1]. compute_done. }
  destruct (round_pos_ge_1 _ H1) as [-> | (r' & -> & Hr')]; [reflexivity |].
  destruct (int_ge_1 r' Hr') as (K & -> & HK). exact HK.
Qed.

Lemma baseline_uses_at_least_one_point_witness :
  ∃ K, baseline_tpts (Q2Qc (1 # 2)) Samples.tenth = inr K ∧ (1 ≤ K)%Z.
Proof.
  destruct (baseline_uses_at_least_one_point (Q2Qc (1 # 2)) Samples.tenth)
    as [HK _]; [compute_done | compute_done |].
  revert HK.
  destruct (baseline_tpts (Q2Qc (1 # 2)) Samples.tenth) as [e | K] eqn:Heq;
    [vm_compute in Heq; discriminate | intros HK; exists K; by split].
Defined.

(** ** What [run] hands to the worker *)

Lemma select_length {A} (mask : list bool) (a : list A) :
  length mask = length a → length (np.select mask a) = np.count_true mask.
Proof.
  revert a. induction mask as [| b mask IH]; intros [| x a] Hlen; cbn in *; try done.
  destruct b; cbn; rewrite IH by lia; reflexivity.
Qed.

Lemma select_Forall {A} (P : A → Prop) (mask : list bool) (a : list A) :
  Forall P a → Forall P (np.select mask a).
Proof.
  intros Ha. revert mask. induction Ha as [| x a Hx _ IH]; intros [| b mask]; cbn;
    try constructor.
  destruct b; [constructor |]; auto.
Qed.

Lemma rows_Forall (n T : nat) (l : list num) :
  (n * T ≤ length l)%nat → Forall (λ row : list num, length row = T) (np.rows n T l).
Proof.
  revert l. induction n as [| n IH]; intros l Hlen; cbn; constructor.
  - rewrite length_take. lia.
  - apply IH. rewrite length_drop. lia.
Qed.

Lemma count_true_replicate (n : nat) : np.count_true (replicate n true) = n.
Proof. induction n as [| n IH]; cbn; [done | by rewrite IH]. Qed.

(** The normalisation succeeds on a matrix with one baseline for each row
    and keeps its shape; each element is [x / (b + 0.001) - 1]. *)
Lemma normalise_rows (img : list (list num)) (bl : list num) (T : nat) :
  Forall (λ row : list num, length row = T) img →
  length img = length bl →
  normalise img bl T
  = inr (zip_with (λ (row : list num) (b : num),
                     (λ x, x / (b + eps) - Num.one)%num <$> row) img bl).
Proof.
  intros Hrows Hlen. unfold normalise, denominators, mat_elementwise.
  rewrite bool_decide_eq_true_2.
  - cbn. f_equal. unfold mat_map, tile_columns.
    revert bl Hlen. induction Hrows as [| row img Hrow _ IH]; intros [| b bl] Hlen;
      cbn in *; try done.
    f_equal; [| apply IH; lia].
    rewrite fmap_replicate. subst T. clear.
    induction row as [| x row IH]; cbn; [done | by rewrite IH].
  - unfold mat_map, tile_columns. rewrite !length_fmap. split; [done |].
    revert bl Hlen. induction Hrows as [| row img Hrow _ IH]; intros [| b bl] Hlen;
      cbn in *; try done.
    constructor; [| apply IH; lia].
    by rewrite length_fmap, length_replicate.
Qed.

Lemma zip_rows_shape (f : list num → num → list num) (img : list (list num))
    (bl : list num) (T : nat) :
  (∀ row b, length (f row b) = length row) →
  Forall (λ row : list num, length row = T) img →
  length img = length bl →
  length (zip_with f img bl) = length img
  ∧ Forall (λ row : list num, length row = T) (zip_with f img bl).
Proof.
  intros Hf Hrows Hlen. split; [rewrite length_zip_with; lia |].
  revert bl Hlen. induction Hrows as [| row img Hrow _ IH]; intros [| b bl] Hlen;
    cbn in *; try done.
  constructor; [by rewrite Hf | apply IH; lia].
Qed.

Lemma run_vectorised (ivm : ivm_t) (options : options_t)
    (self : self_t) (c : config) :
  configured ivm options c →
  on_one_grid c →
  ∃ s1 a bl,
    run ivm options self = (s1, inr (1%nat, a))
    ∧ length (img1sub a) = np.count_true (mask_of c)
    ∧ Forall (λ row : list num, length row = time_points c) (img1sub a)
    ∧ ncols a = time_points c
    ∧ length (t101sub a) = np.count_true (mask_of c)
    ∧ roi1vec s1 = Some (mask_of c)
    ∧ baseline s1 = Some bl
    ∧ length bl = np.count_true (mask_of c)
    ∧ shape s1 = np.shape (c_img1 c)
    ∧ suffix s1 = suffix_of options
    ∧ thresh1val s1 = c_thresh c.
Proof.
  intros Hc (HT & Hflat & Hmask & Ht10). rewrite (run_configured _ _ _ _ Hc).
  unfold vectorise, np.reshape_rows.
  rewrite bool_decide_eq_false_2 by exact HT.
  rewrite Hflat, Nat.div_mul by exact HT.
  set (n := foldr Nat.mul 1%nat (removelast (np.shape (c_img1 c)))) in *.
  set (T := time_points c) in *.
  assert (Forall (λ row : list num, length row = T) (np.rows n T (np.flat (c_img1 c))))
    as Hrows by (apply rows_Forall; lia).
  unfold np.getitem.
  rewrite rows_length, baseline_of_length, Ht10. fold n.
  rewrite !bool_decide_eq_true_2 by exact Hmask.
  set (img0 := np.select (mask_of c) (np.rows n T (np.flat (c_img1 c)))).
  set (bl := np.select (mask_of c) (baseline_of (c_K c) (c_img1 c))).
  assert (length img0 = np.count_true (mask_of c)) as Hl0
    by (apply select_length; by rewrite rows_length).
  assert (length bl = np.count_true (mask_of c)) as Hlb
    by (apply select_length; by rewrite baseline_of_length).
  assert (Forall (λ row : list num, length row = T) img0) as Hrows0
    by by apply select_Forall.
  rewrite (normalise_rows img0 bl T Hrows0) by lia.
  destruct (zip_rows_shape
              (λ (row : list num) (b : num), (λ x, x / (b + eps) - Num.one)%num <$> row)
              img0 bl T) as [Hln Hrn]; [intros; apply length_fmap | done | lia |].
  eexists _, _, bl. split; [reflexivity |]. cbn.
  repeat split; try done; try lia.
  apply select_length. by rewrite Ht10.
Qed.

(** X13.  With the image, the ROI and the T10 map on one grid, [run] dispatches
    one worker whose arrays have one row for each selected voxel and one
    column for each time point, and [self] holds the mask, one baseline for
    each selected voxel, the shape of the image, the suffix and the
    threshold. *)
Theorem run_dispatches_selected_voxels (ivm : ivm_t) (options : options_t)
    (self : self_t) (c : config) :
  configured ivm options c →
  on_one_grid c →
  ∃ s1 a bl,
    run ivm options self = (s1, inr (1%nat, a))
    ∧ length (img1sub a) = np.count_true (mask_of c)
    ∧ Forall (λ row : list num, length row = time_points c) (img1sub a)
    ∧ ncols a = time_points c
    ∧ length (t101sub a) = np.count_true (mask_of c)
    ∧ roi1vec s1 = Some (mask_of c)
    ∧ baseline s1 = Some bl
    ∧ length bl = np.count_true (mask_of c)
    ∧ shape s1 = np.shape (c_img1 c)
    ∧ suffix s1 = suffix_of options
    ∧ thresh1val s1 = c_thresh c.
Proof. apply run_vectorised. Qed.

Lemma run_dispatches_selected_voxels_witness :
  ∃ s1 a,
    run (Samples.ivm Samples.img) (Samples.options (Some "first") "x" 0 50) init
      = (s1, inr (1%nat, a))
    ∧ length (img1sub a) = 1%nat
    ∧ Forall (λ row : list num, length row = 2%nat) (img1sub a)
    ∧ shape s1 = [2; 1; 1; 2]%nat.
Proof.
  destruct (run_dispatches_selected_voxels (Samples.ivm Samples.img)
              (Samples.options (Some "first") "x" 0 50) init
              {| c_roi := Some Samples.first_voxel; c_img1 := Samples.img;
                 c_t101 := Samples.ones; c_R1 := 1; c_R2 := 1; c_DelT := 1;
                 c_InjT := Qc_of_Z 0; c_TR := 1; c_TE := 1; c_FA := 1;
                 c_thresh := Qc_of_Z 50; c_model := 1; c_K := 1 |})
    as (s1 & a & bl & Hrun & Hn & Hrows & _ & _ & _ & _ & _ & Hshape & _).
  - unfold configured. repeat split; vm_compute; reflexivity.
  - unfold on_one_grid. repeat split; vm_compute; (reflexivity || discriminate).
  - exists s1, a. repeat split; assumption.
Defined.

(** X14.  Without a ROI, named or current, every voxel of the image is selected. *)
Theorem no_roi_selects_every_voxel (ivm : ivm_t) (options : options_t)
    (self : self_t) (c : config) :
  configured ivm options c →
  on_one_grid c →
  opt_roi options = None →
  current_roi ivm = None →
  ∃ s1 a,
    run ivm options self = (s1, inr (1%nat, a))
    ∧ length (img1sub a) = foldr Nat.mul 1%nat (take 3 (np.shape (c_img1 c)))
    ∧ roi1vec s1
      = Some (replicate (foldr Nat.mul 1%nat (take 3 (np.shape (c_img1 c)))) true).
Proof.
  intros Hc Hgrid Hopt Hcur.
  destruct (run_vectorised ivm options self c Hc Hgrid)
    as (s1 & a & bl & Hrun & Hn & _ & _ & _ & Hroi & _).
  assert (mask_of c
          = replicate (foldr Nat.mul 1%nat (take 3 (np.shape (c_img1 c)))) true) as Hm.
  { destruct Hc as (Hr & _). unfold roi_of in Hr. rewrite Hopt, Hcur in Hr.
    injection Hr as Hr. unfold mask_of. rewrite <- Hr. by rewrite fmap_replicate. }
  exists s1, a. rewrite Hn, Hroi, Hm, count_true_replicate. done.
Qed.

Lemma no_roi_selects_every_voxel_witness :
  ∃ s1 a,
    run (Samples.ivm Samples.img) (Samples.options None "" 0 50) init
      = (s1, inr (1%nat, a))
    ∧ length (img1sub a) = 2%nat
    ∧ roi1vec s1 = Some [true; true].
Proof.
  apply (no_roi_selects_every_voxel (Samples.ivm Samples.img)
           (Samples.options None "" 0 50) init
           {| c_roi := None; c_img1 := Samples.img;
              c_t101 := Samples.ones; c_R1 := 1; c_R2 := 1; c_DelT := 1;
              c_InjT := Qc_of_Z 0; c_TR := 1; c_TE := 1; c_FA := 1;
              c_thresh := Qc_of_Z 50; c_model := 1; c_K := 1 |}).
  - unfold configured. repeat split; vm_compute; reflexivity.
  - unfold on_one_grid. repeat split; vm_compute; (reflexivity || discriminate).
  - reflexivity.
  - reflexivity.
Defined.

(** * Further properties of the reconstruction *)

(** ** Ranges of the stored maps *)

Lemma Qc_two_nonneg : (0 : Qc) ≤ 2.
Proof. apply Qclt_le_weak, Qc_two_pos. Qed.

Lemma within_zero : within 0 2 Num.zero.
Proof. exists 0. split; [done |]. split; [apply Qcle_refl | apply Qc_two_nonneg]. Qed.

(** Line 186 and 187 on one element: [nan], or between 0 and 2. *)
Lemma ve_element_range (x : num) :
  zero_negative (clip_upper x) = NaN ∨ within 0 2 (zero_negative (clip_upper x)).
Proof.
  destruct x as [| | | q]; [by left | by left | by left |].
  right. rewrite clip_upper_Fin, zero_negative_Fin. eexists. split; [reflexivity |].
  pose proof Qc_two_pos. pose proof Qc_two_nonneg.
  repeat case_bool_decide; split;
    try apply Qcle_refl; try done; try (by apply Qclt_le_weak).
Qed.

(** Lines 190 to 192 on one element: finite, between 0 and 2. *)
Lemma kep_element_range (x : num) :
  within 0 2 (clip_upper_ge (zero_negative (zero_nonfinite x))).
Proof.
  destruct (zero_nonfinite_Fin x) as [q ->].
  rewrite zero_negative_Fin, clip_upper_ge_Fin. eexists. split; [reflexivity |].
  pose proof Qc_two_pos. pose proof Qc_two_nonneg.
  repeat case_bool_decide; split;
    try apply Qcle_refl; try done; try (by apply Qclt_le_weak).
Qed.

Lemma lerp_within (lo hi : num) (g : Qc) :
  within 0 2 lo → within 0 2 hi → 0 ≤ g → g ≤ 1 →
  within 0 2 (np.lerp lo hi g).
Proof.
  intros (a & -> & Ha0 & Ha2) (b & -> & Hb0 & Hb2) Hg Hg1.
  rewrite lerp_Fin.
  eexists. split; [reflexivity |]. split; [by apply lerp_nonneg |].
  assert (0 ≤ 1 - g) as Hg' by (apply (proj1 (Qcle_minus_iff g 1)); exact Hg1).
  apply (Qcle_by_diff _ _ ((2 - a) * (1 - g) + (2 - b) * g)); [| ring].
  apply Qcplus_nonneg_nonneg; apply Qcmult_nonneg_nonneg; try done;
    by apply (proj1 (Qcle_minus_iff _ 2)).
Qed.

Lemma percentile_within (a : list num) (q : Qc) (p : num) :
  Forall (within 0 2) a → np.percentile a q = inr p → p = NaN ∨ within 0 2 p.
Proof.
  intros Ha. unfold np.percentile. cbv zeta.
  destruct (bool_decide (0 ≤ q) && bool_decide (q ≤ Qc_of_Z 100)); [| discriminate].
  destruct (bool_decide (length a = 0%nat) || existsb Num.isnan a);
    intros Hp;
    apply (f_equal (λ r, match r with inr x => x | inl _ => NaN end)) in Hp;
    cbv beta iota in Hp; subst p; [by left |].
  right.
  set (h := q / Qc_of_Z 100 * Qc_of_Z (Z.of_nat (length a - 1))).
  apply lerp_within.
  - apply lookup_total_Forall; [apply within_zero | apply sort_Forall, Ha].
  - apply lookup_total_Forall; [apply within_zero | apply sort_Forall, Ha].
  - apply (Qcle_by_diff _ _ (h - Qc_of_Z (Qfloor h))); [| ring].
    apply (proj1 (Qcle_minus_iff _ _)), Qc_of_Z_floor_le.
  - apply (Qcle_by_diff _ _ (Qc_of_Z (Qfloor h) + 1 - h)); [| ring].
    apply Qclt_le_weak, (proj1 (Qclt_minus_iff _ _)), Qc_lt_floor_succ.
Qed.

Lemma threshold_within (p : num) (vol : list num) :
  p = NaN ∨ within 0 2 p → Forall (within 0 2) vol → Forall (within 0 2) (threshold p vol).
Proof.
  intros Hp Hvol. unfold threshold. apply Forall_fmap.
  eapply Forall_impl; [exact Hvol |]. intros v Hv. cbn.
  destruct (v >? p)%num eqn:Hgt; [| done].
  destruct Hp as [-> | Hp]; [| done].
  unfold Num.gtb in Hgt. cbn in Hgt. discriminate.
Qed.

(** X15.  In the stored ve volume every value is [nan] or lies between 0 and 2;
    in the stored kep volume every value is finite and lies between 0 and
    2, also after the percentile thresholding. *)
Theorem ve_and_kep_within_bounds (self s2 : self_t) (calls : list add_data_call) :
  status self = SUCCEEDED →
  finished self = (s2, inr calls) →
  ∃ vevol kepvol,
    ad_data <$> calls !! 1%nat = Some vevol
    ∧ ad_data <$> calls !! 2%nat = Some kepvol
    ∧ Forall (λ v, v = NaN ∨ within 0 2 v) (np.flat vevol)
    ∧ Forall (within 0 2) (np.flat kepvol).
Proof.
  intros Hst Hfin.
  apply finished_inr in Hfin
    as (var1 & rest & m & pK & pkep & _ & Hm & _ & Hpkep & _ & _ & ->); [| exact Hst].
  apply reconstruct_inr in Hm
    as (roi1v & c0 & c1 & c2 & c3 & _ & _ & _ & _ & _ & _ & _ & _ & _
        & _ & Hve & Hkep & _).
  assert (Forall (within 0 2) (kep1 m)) as Hkeps.
  { rewrite Hkep, <- !list_fmap_compose. apply Forall_fmap, Forall_forall.
    intros x _. apply kep_element_range. }
  eexists _, _. split; [reflexivity |]. split; [reflexivity |]. cbn [np.flat ad_data].
  split.
  - rewrite Hve. rewrite Forall_fmap. apply scatter_Forall.
    + right. change (within 0 2 (zero_negative Num.zero)).
      rewrite zero_negative_zero. apply within_zero.
    + apply Forall_fmap, Forall_forall. intros x _. apply ve_element_range.
  - apply threshold_within; [| exact Hkeps].
    by eapply percentile_within.
Qed.

Lemma ve_and_kep_within_bounds_witness :
  ∃ s2 calls vevol kepvol,
    finished (Samples.self_at_finish
                [Samples.dec 15 10; Samples.dec (-3) 10; Num.zero; Num.zero]
                Samples.img (Samples.options None "" 0 50)) = (s2, inr calls)
    ∧ ad_data <$> calls !! 1%nat = Some vevol
    ∧ ad_data <$> calls !! 2%nat = Some kepvol
    ∧ Forall (λ v, v = NaN ∨ within 0 2 v) (np.flat vevol)
    ∧ Forall (within 0 2) (np.flat kepvol).
Proof.
  destruct (finished (Samples.self_at_finish
                        [Samples.dec 15 10; Samples.dec (-3) 10; Num.zero; Num.zero]
                        Samples.img (Samples.options None "" 0 50)))
    as [s2 [e | calls]] eqn:Hfin; [vm_compute in Hfin; discriminate |].
  destruct (ve_and_kep_within_bounds
              (Samples.self_at_finish
                 [Samples.dec 15 10; Samples.dec (-3) 10; Num.zero; Num.zero]
                 Samples.img (Samples.options None "" 0 50)) s2 calls)
    as (vevol & kepvol & Hve & Hkep & Hvr & Hkr); [reflexivity | exact Hfin |].
  exists s2, calls, vevol, kepvol. repeat split; assumption.
Defined.

(** ** Thresholding *)

Lemma ltb_irrefl (x : num) : (x <? x)%num = false.
Proof.
  destruct x as [| | | q]; cbn; try done.
  apply bool_decide_eq_false_2, Qcle_not_lt, Qcle_refl.
Qed.

Lemma ltb_trans (x y z : num) :
  (x <? y)%num = true → (y <? z)%num = true → (x <? z)%num = true.
Proof.
  destruct x as [| | | a], y as [| | | b], z as [| | | c]; cbn; try done.
  rewrite !bool_decide_eq_true. apply Qclt_trans.
Qed.

(** After [vol[vol > p] = p] no element is above [p]. *)
Lemma threshold_cap (p : num) (vol : list num) :
  Forall (λ v, (v >? p)%num = false) (threshold p vol).
Proof.
  unfold threshold. apply Forall_fmap, Forall_forall. intros v _. cbn.
  destruct (v >? p)%num eqn:Hgt; [apply ltb_irrefl | exact Hgt].
Qed.

(** Thresholding does not raise an element above a bound it respected. *)
Lemma threshold_keeps_bound (p bound : num) (vol : list num) :
  Forall (λ v, (v >? bound)%num = false) vol →
  Forall (λ v, (v >? bound)%num = false) (threshold p vol).
Proof.
  intros Hvol. unfold threshold. apply Forall_fmap.
  eapply Forall_impl; [exact Hvol |]. intros v Hv. cbn.
  destruct (v >? p)%num eqn:Hgt; [| exact Hv].
  unfold Num.gtb in *. destruct (bound <? p)%num eqn:Hbp; [| done].
  by rewrite (ltb_trans _ _ _ Hbp Hgt) in Hv.
Qed.

Lemma clip_upper_at_most_two (x : num) : (clip_upper x >? Num.two)%num = false.
Proof.
  destruct x as [| | | q]; [done | done | done |].
  rewrite clip_upper_Fin. unfold Num.two. rewrite Fin_gtb.
  apply bool_decide_eq_false_2.
  repeat case_bool_decide.
  - apply Qcle_not_lt. by apply Qclt_le_weak.
  - apply Qcle_not_lt, Qcle_refl.
  - apply Qcle_not_lt, Qc_two_nonneg.
Qed.

(** X16.  The stored Ktrans and kep volumes hold no value above the percentile
    they were cut at, and the stored Ktrans volume holds no value above 2. *)
Theorem stored_maps_respect_thresholds (self s2 : self_t)
    (calls : list add_data_call) (var1 : fit_output) :
  status self = SUCCEEDED →
  finished self = (s2, inr calls) →
  head (output self) = Some var1 →
  ∃ m pK pkep Ktransvol kepvol,
    reconstruct self var1 = inr m
    ∧ np.percentile (Ktrans1 m) (thresh1val self) = inr pK
    ∧ np.percentile (kep1 m) (thresh1val self) = inr pkep
    ∧ ad_data <$> calls !! 0%nat = Some Ktransvol
    ∧ ad_data <$> calls !! 2%nat = Some kepvol
    ∧ Forall (λ v, (v >? pK)%num = false) (np.flat Ktransvol)
    ∧ Forall (λ v, (v >? pkep)%num = false) (np.flat kepvol)
    ∧ Forall (λ v, (v >? Num.two)%num = false) (np.flat Ktransvol).
Proof.
  intros Hst Hfin Hout.
  apply finished_inr in Hfin
    as (var1' & rest & m & pK & pkep & Hout' & Hm & HpK & Hpkep & _ & _ & ->);
    [| exact Hst].
  rewrite Hout' in Hout. injection Hout as ->.
  exists m, pK, pkep. eexists _, _.
  split; [exact Hm |]. split; [exact HpK |]. split; [exact Hpkep |].
  split; [reflexivity |]. split; [reflexivity |]. cbn [np.flat ad_data].
  split; [apply threshold_cap |]. split; [apply threshold_cap |].
  apply threshold_keeps_bound.
  apply reconstruct_inr in Hm
    as (roi1v & c0 & c1 & c2 & c3 & _ & _ & _ & _ & _ & _ & _ & _ & _ & -> & _).
  apply scatter_Forall; [done |].
  apply Forall_fmap, Forall_forall. intros x _. apply clip_upper_at_most_two.
Qed.

Lemma stored_maps_respect_thresholds_witness :
  ∃ s2 calls Ktransvol,
    finished (Samples.self_at_finish [Num.of_Z 7; Num.one; Num.zero; Num.zero]
                Samples.img (Samples.options None "" 0 50)) = (s2, inr calls)
    ∧ ad_data <$> calls !! 0%nat = Some Ktransvol
    ∧ Forall (λ v, (v >? Num.two)%num = false) (np.flat Ktransvol).
Proof.
  destruct (finished (Samples.self_at_finish [Num.of_Z 7; Num.one; Num.zero; Num.zero]
                        Samples.img (Samples.options None "" 0 50)))
    as [s2 [e | calls]] eqn:Hfin; [vm_compute in Hfin; discriminate |].
  destruct (stored_maps_respect_thresholds
              (Samples.self_at_finish [Num.of_Z 7; Num.one; Num.zero; Num.zero]
                 Samples.img (Samples.options None "" 0 50)) s2 calls
              (Samples.fitted [Num.of_Z 7; Num.one; Num.zero; Num.zero]
                 Samples.img (Samples.options None "" 0 50)))
    as (m & pK & pkep & Kv & kv & _ & _ & _ & HKv & _ & _ & _ & Htwo);
    [reflexivity | exact Hfin | vm_compute; reflexivity |].
  exists s2, calls, Kv. repeat split; assumption.
Defined.

(** ** The values at the masked voxels *)

(** X17.  Reading the stored offset and vp volumes at the masked voxels, in mask
    order, gives back columns 2 and 3 of the parameter matrix unchanged:
    value for value when the matrix has one row for each masked voxel, and
    the one value of a matrix of one row at every masked voxel. *)
Theorem offset_and_vp_are_stored_unchanged (self s2 : self_t)
    (calls : list add_data_call) (var1 : fit_output) (mask : list bool) :
  status self = SUCCEEDED →
  finished self = (s2, inr calls) →
  head (output self) = Some var1 →
  roi1vec self = Some mask →
  ∃ offsetvol vpvol,
    ad_data <$> calls !! 3%nat = Some offsetvol
    ∧ ad_data <$> calls !! 4%nat = Some vpvol
    ∧ inr (np.select mask (np.flat offsetvol))
      = masked_column (np.count_true mask) 2 (params2 var1)
    ∧ inr (np.select mask (np.flat vpvol))
      = masked_column (np.count_true mask) 3 (params2 var1)
    ∧ (length (params2 var1) = np.count_true mask →
       inr (np.select mask (np.flat offsetvol)) = np.column 2 (params2 var1)
       ∧ inr (np.select mask (np.flat vpvol)) = np.column 3 (params2 var1)).
Proof.
  intros Hst Hfin Hout Hmask.
  apply finished_inr in Hfin
    as (var1' & rest & m & pK & pkep & Hout' & Hm & _ & _ & _ & _ & ->); [| exact Hst].
  rewrite Hout' in Hout. injection Hout as ->.
  apply reconstruct_inr in Hm
    as (roi1v & c0 & c1 & c2 & c3 & Hroi & _ & _ & Hc2 & Hc3 & _ & _ & Hl2 & Hl3
        & _ & _ & _ & Hoff & Hvp & _).
  rewrite Hmask in Hroi. injection Hroi as <-.
  eexists _, _. split; [reflexivity |]. split; [reflexivity |]. cbn [np.flat ad_data].
  rewrite Hoff, Hvp, !select_scatter by done.
  split; [done |]. split; [done |]. intros Hrows.
  apply masked_column_inr in Hc2 as (k2 & Hk2 & Hb2 & _).
  apply masked_column_inr in Hc3 as (k3 & Hk3 & Hb3 & _).
  rewrite broadcast_to_same in Hb2 by (by rewrite (column_length _ _ _ Hk2)).
  rewrite broadcast_to_same in Hb3 by (by rewrite (column_length _ _ _ Hk3)).
  injection Hb2 as <-. injection Hb3 as <-. done.
Qed.

Lemma offset_and_vp_are_stored_unchanged_witness :
  ∃ s2 calls offsetvol vpvol,
    finished (set_result SUCCEEDED [Samples.one_row]
                (Samples.self_after_run Samples.img (Samples.options None "" 0 50)))
      = (s2, inr calls)
    ∧ ad_data <$> calls !! 3%nat = Some offsetvol
    ∧ ad_data <$> calls !! 4%nat = Some vpvol
    ∧ np.select [true; true] (np.flat offsetvol) = [Samples.dec 1 2; Samples.dec 1 2]
    ∧ np.select [true; true] (np.flat vpvol) = [Samples.dec 1 4; Samples.dec 1 4].
Proof.
  set (self := set_result SUCCEEDED [Samples.one_row]
                 (Samples.self_after_run Samples.img (Samples.options None "" 0 50))).
  destruct (finished self) as [s2 [e | calls]] eqn:Hfin;
    [vm_compute in Hfin; discriminate |].
  destruct (offset_and_vp_are_stored_unchanged self s2 calls Samples.one_row
              [true; true])
    as (ov & vv & Hov & Hvv & Ho & Hv & _);
    [reflexivity | exact Hfin | reflexivity | vm_compute; reflexivity |].
  exists s2, calls, ov, vv. repeat split; try assumption.
  - assert (masked_column 2 2 (params2 Samples.one_row)
            = inr [Samples.dec 1 2; Samples.dec 1 2]) as Hc by compute_done.
    change (np.count_true [true; true]) with 2%nat in Ho.
    rewrite Hc in Ho. by injection Ho.
  - assert (masked_column 2 3 (params2 Samples.one_row)
            = inr [Samples.dec 1 4; Samples.dec 1 4]) as Hc by compute_done.
    change (np.count_true [true; true]) with 2%nat in Hv.
    rewrite Hc in Hv. by injection Hv.
Defined.

(** ** When [finished] completes *)

Lemma column_ok (k : nat) (m : list (list num)) :
  m ≠ [] → Forall (λ row : list num, (k < length row)%nat) m →
  ∃ c, np.column k m = inr c ∧ length c = length m.
Proof.
  intros Hne Hrows. unfold np.column.
  destruct (mapM (λ row : list num, row !! k) m) as [c |] eqn:Hc.
  - exists c. split; [by destruct m |]. symmetry. by eapply length_mapM.
  - assert (is_Some (mapM (λ row : list num, row !! k) m)) as [c' Hc'].
    { apply mapM_is_Some. eapply Forall_impl; [exact Hrows |].
      intros row Hrow. by apply lookup_lt_is_Some_2. }
    congruence.
Qed.

Lemma setitem_ok {A} (zero : A) (mask : list bool) (vals : list A) :
  length vals = np.count_true mask →
  np.setitem zero mask vals = inr (np.scatter zero mask vals).
Proof. intros H. unfold np.setitem. by rewrite broadcast_to_same. Qed.

Lemma operand_ok (fit : list (list num)) (T : nat) :
  fit ≠ [] → Forall (λ row : list num, length row = T) fit →
  operand fit = inr {| dim0 := length fit; dim1 := T; entries := fit |}.
Proof.
  intros Hne Hrows. destruct fit as [| row fit]; [done |]. unfold operand.
  pose proof (Forall_inv Hrows) as Hrow. cbn beta in Hrow.
  rewrite bool_decide_eq_true_2; [by rewrite Hrow |].
  eapply Forall_impl; [exact Hrows |]. intros r Hr. cbn beta in *. congruence.
Qed.

Lemma bdim_same (n : nat) : bdim n n = Some n.
Proof. unfold bdim. by rewrite bool_decide_eq_true_2. Qed.

Lemma last_snoc_Some (sh : list nat) (T : nat) :
  List.last (Some <$> (sh ++ [T])) None = Some T.
Proof. rewrite fmap_app. cbn. apply last_last. Qed.

Lemma attr_Some (A : Type) (name : string) (a : A) : attr name (Some a) = inr a.
Proof. reflexivity. Qed.

Lemma reconstruct_ok (self : self_t) (var1 : fit_output) :
  fit_matches self var1 → ∃ m, reconstruct self var1 = inr m.
Proof.
  intros (mask & bl & sh & T & Hroi & Hbl & Hsh & Hsize & Hlbl & Hpos & Hres & Hfit
          & Hfrows & Hpar & Hprows).
  assert (params2 var1 ≠ []) as Hne by (intros Hnil; rewrite Hnil in Hpar; cbn in Hpar; lia).
  destruct (column_ok 0 (params2 var1) Hne) as (c0 & Hc0 & Hl0);
    [eapply Forall_impl; [exact Hprows | cbn; lia] |].
  destruct (column_ok 1 (params2 var1) Hne) as (c1 & Hc1 & Hl1);
    [eapply Forall_impl; [exact Hprows | cbn; lia] |].
  destruct (column_ok 2 (params2 var1) Hne) as (c2 & Hc2 & Hl2);
    [eapply Forall_impl; [exact Hprows | cbn; lia] |].
  destruct (column_ok 3 (params2 var1) Hne) as (c3 & Hc3 & Hl3);
    [eapply Forall_impl; [exact Hprows | cbn; lia] |].
  unfold reconstruct. rewrite Hroi, Hbl, Hsh, last_snoc_Some, Hc0, Hc1, Hc2, Hc3.
  change (mret T : exn + nat) with (inr T : exn + nat).
  assert (fcurve1 var1 ≠ []) as Hfne
    by (intros Hnil; rewrite Hnil in Hfit; cbn in Hfit; lia).
  rewrite (operand_ok _ T Hfne Hfrows).
  unfold np.elementwise, broadcast2, setitem_rows.
  repeat first
    [ rewrite exn_bind_ret
    | rewrite attr_Some
    | rewrite setitem_ok by (rewrite ?length_fmap, ?length_zip_with; lia)
    | rewrite bool_decide_eq_true_2 by (rewrite !length_fmap, !scatter_length; done)
    | progress cbn [dim0 dim1 map2 tile]
    | rewrite Hfit, Hlbl, !bdim_same
    | rewrite bool_decide_eq_true_2 by tauto ].
  eexists. reflexivity.
Qed.

Lemma reshape_ok (sh : list nat) (l : list num) :
  foldr Nat.mul 1%nat sh = length l →
  np.reshape sh l = inr {| np.shape := sh; np.flat := l |}.
Proof. intros H. unfold np.reshape. by rewrite bool_decide_eq_true_2. Qed.

Lemma percentile_ok (a : list num) (q : Qc) :
  0 ≤ q → q ≤ Qc_of_Z 100 → ∃ p, np.percentile a q = inr p.
Proof.
  intros H0 H100. unfold np.percentile.
  rewrite !bool_decide_eq_true_2 by done. cbn [andb].
  destruct (_ || _); eexists; reflexivity.
Qed.

Lemma M_bind_lift {S A B} (a : A) (r : exn + A) (f : A → M S B) (s : S) :
  r = inr a → (lift r ≫= f) s = f a s.
Proof. intros ->. reflexivity. Qed.

Lemma foldr_mul_snoc (sh : list nat) (T : nat) :
  foldr Nat.mul 1%nat (sh ++ [T]) = (foldr Nat.mul 1%nat sh * T)%nat.
Proof. induction sh as [| n sh IH]; cbn; [lia | rewrite IH; lia]. Qed.

Lemma concat_length_rows (rows : list (list num)) (T : nat) :
  Forall (λ row : list num, length row = T) rows →
  length (concat rows) = (length rows * T)%nat.
Proof.
  induction 1 as [| row rows Hrow _ IH]; cbn; [done |].
  rewrite length_app, IH, Hrow. lia.
Qed.

Lemma scatter_rows (T : nat) (mask : list bool) (vals : list (list num)) :
  Forall (λ row : list num, length row = T) vals →
  Forall (λ row : list num, length row = T) (np.scatter (replicate T Num.zero) mask vals).
Proof.
  intros Hvals. apply scatter_Forall; [apply length_replicate | exact Hvals].
Qed.

(** The sizes of what [reconstruct] returns. *)
Lemma reconstruct_sizes (self : self_t) (var1 : fit_output) (m : maps_t)
    (mask : list bool) :
  reconstruct self var1 = inr m →
  roi1vec self = Some mask →
  length (Ktrans1 m) = length mask ∧ length (ve1 m) = length mask
  ∧ length (kep1 m) = length mask ∧ length (offset1 m) = length mask
  ∧ length (vp1 m) = length mask
  ∧ length (concat (estimated_curve1 m))
    = (length mask * List.last (shape self) 0)%nat.
Proof.
  intros Hm Hmask.
  apply reconstruct_inr in Hm
    as (roi1v & c0 & c1 & c2 & c3 & Hroi & _ & _ & _ & _ & _ & _ & _ & _
        & HK & Hve & Hkep & Hoff & Hvp & T & sig & HT & _ & _ & Hcurve & Hrows).
  rewrite Hmask in Hroi. injection Hroi as <-.
  assert (length (Ktrans1 m) = length mask) as HlK by (rewrite HK; apply scatter_length).
  assert (length (ve1 m) = length mask) as Hlve
    by (rewrite Hve, length_fmap; apply scatter_length).
  repeat split; try done.
  - rewrite Hkep, !length_fmap, length_zip_with, length_fmap. lia.
  - rewrite Hoff. apply scatter_length.
  - rewrite Hvp. apply scatter_length.
  - rewrite Hcurve, (concat_length_rows _ T) by (by apply scatter_rows).
    by rewrite scatter_length, HT.
Qed.

Lemma finished_ok (self : self_t) (var1 : fit_output) :
  status self = SUCCEEDED →
  head (output self) = Some var1 →
  fit_matches self var1 →
  0 ≤ thresh1val self → thresh1val self ≤ Qc_of_Z 100 →
  ∃ calls,
    finished self = (set_log (λ l, l +:+ fit_log var1) self, inr calls)
    ∧ length calls = 6%nat.
Proof.
  intros Hst Hout Hfit H0 H100.
  destruct (reconstruct_ok self var1 Hfit) as [m Hm].
  destruct Hfit as (mask & bl & sh & T & Hroi & _ & Hsh & Hsize & _).
  destruct (reconstruct_sizes self var1 m mask Hm Hroi)
    as (HlK & Hlve & Hlkep & Hloff & Hlvp & Hlcurve).
  rewrite Hsh, last_last in Hlcurve.
  destruct (percentile_ok (Ktrans1 m) (thresh1val self) H0 H100) as [pK HpK].
  destruct (percentile_ok (kep1 m) (thresh1val self) H0 H100) as [pkep Hpkep].
  destruct (output self) as [| var1' rest] eqn:Houtput; [discriminate |].
  injection Hout as ->.
  unfold finished. rewrite M_bind_unfold. cbn [gets id]. rewrite Hst, Houtput.
  rewrite M_bind_unfold. cbn [mret M_ret]. rewrite M_bind_unfold. cbn [modify].
  rewrite (M_bind_lift m) by exact Hm.
  rewrite Hsh, removelast_last.
  rewrite (M_bind_lift _ _ _ _ (reshape_ok sh (Ktrans1 m) ltac:(lia))).
  rewrite (M_bind_lift _ _ _ _ (reshape_ok sh (ve1 m) ltac:(lia))).
  rewrite (M_bind_lift _ _ _ _ (reshape_ok sh (offset1 m) ltac:(lia))).
  rewrite (M_bind_lift _ _ _ _ (reshape_ok sh (vp1 m) ltac:(lia))).
  rewrite (M_bind_lift _ _ _ _ (reshape_ok sh (kep1 m) ltac:(lia))).
  rewrite (M_bind_lift _ _ _ _
             (reshape_ok (sh ++ [T]) (concat (estimated_curve1 m))
                ltac:(rewrite foldr_mul_snoc; lia))).
  cbn [np.flat].
  rewrite (M_bind_lift pK) by exact HpK.
  rewrite (M_bind_lift pkep) by exact Hpkep.
  eexists. split; reflexivity.
Qed.

(** X18.  With the status SUCCEEDED, a worker result that fits the state, and a
    percentile between 0 and 100, [finished] completes: it appends the
    worker's log to the log, changes nothing else in [self], and makes six
    [add_data] calls. *)
Theorem finished_writes_six_volumes (self : self_t) (var1 : fit_output) :
  status self = SUCCEEDED →
  head (output self) = Some var1 →
  fit_matches self var1 →
  0 ≤ thresh1val self → thresh1val self ≤ Qc_of_Z 100 →
  ∃ calls,
    finished self = (set_log (λ l, l +:+ fit_log var1) self, inr calls)
    ∧ length calls = 6%nat.
Proof. apply finished_ok. Qed.

Lemma finished_writes_six_volumes_witness :
  ∃ s2 calls,
    finished (Samples.self_at_finish [Num.one; Num.one; Num.zero; Num.zero]
                Samples.img (Samples.options None "" 0 50)) = (s2, inr calls)
    ∧ length calls = 6%nat.
Proof.
  destruct (finished_writes_six_volumes
              (Samples.self_at_finish [Num.one; Num.one; Num.zero; Num.zero]
                 Samples.img (Samples.options None "" 0 50))
              (Samples.fitted [Num.one; Num.one; Num.zero; Num.zero]
                 Samples.img (Samples.options None "" 0 50)))
    as (calls & Hfin & Hlen).
  - reflexivity.
  - vm_compute. reflexivity.
  - exists [true; true], [Num.one; Num.of_Z 2], [2; 1; 1]%nat, 2%nat.
    repeat split;
      first [ vm_compute; reflexivity | compute_done | cbn; lia
            | vm_compute; repeat constructor ].
  - by vm_compute.
  - by vm_compute.
  - eauto.
Defined.

(** ** From [run] to [finished] *)

(** X19.  After a successful [run], a worker result with a residual, a curve of
    as many points as the worker was given and at least four parameters
    for each voxel of the worker's input lets [finished] complete with six
    [add_data] calls. *)
Theorem result_of_dispatched_fit_is_written (ivm : ivm_t) (options : options_t)
    (self s1 : self_t) (c : config) (n : nat) (a : fit_args) (var1 : fit_output) :
  configured ivm options c →
  on_one_grid c →
  0 ≤ c_thresh c → c_thresh c ≤ Qc_of_Z 100 →
  run ivm options self = (s1, inr (n, a)) →
  img1sub a ≠ [] →
  length (res1 var1) = length (img1sub a) →
  length (fcurve1 var1) = length (img1sub a) →
  Forall (λ row : list num, length row = ncols a) (fcurve1 var1) →
  length (params2 var1) = length (img1sub a) →
  Forall (λ row : list num, (4 ≤ length row)%nat) (params2 var1) →
  ∃ s2 calls,
    finished (set_result SUCCEEDED [var1] s1) = (s2, inr calls)
    ∧ length calls = 6%nat.
Proof.
  intros Hc Hgrid H0 H100 Hrun Hne Hres Hfit Hfrows Hpar Hprows.
  destruct (run_vectorised ivm options self c Hc Hgrid)
    as (s1' & a' & bl & Hrun' & Hn & _ & Hcols & _ & Hroi & Hbl & Hlbl & Hshape & _ & Hth).
  rewrite Hrun in Hrun'. injection Hrun' as <- _ <-.
  destruct Hgrid as (HT & _ & Hmask & _).
  assert (np.shape (c_img1 c)
          = removelast (np.shape (c_img1 c)) ++ [time_points c]) as Hsplit.
  { apply app_removelast_last. intros Hnil. unfold time_points in HT.
    rewrite Hnil in HT. by apply HT. }
  destruct (finished_ok (set_result SUCCEEDED [var1] s1) var1)
    as (calls & Hfin & Hlen).
  - reflexivity.
  - reflexivity.
  - exists (mask_of c), bl, (removelast (np.shape (c_img1 c))), (time_points c).
    cbn [roi1vec baseline shape set_result].
    rewrite <- Hn, <- Hcols.
    repeat split; try done; try congruence.
    destruct (img1sub a); [done | cbn; lia].
  - cbn [thresh1val set_result]. by rewrite Hth.
  - cbn [thresh1val set_result]. by rewrite Hth.
  - eauto.
Qed.

Lemma result_of_dispatched_fit_is_written_witness :
  ∃ s2 calls,
    finished (set_result SUCCEEDED
                [Samples.fitted [Num.one; Num.one; Num.zero; Num.zero]
                   Samples.img (Samples.options (Some "first") "" 0 50)]
                (Samples.self_after_run Samples.img
                   (Samples.options (Some "first") "" 0 50)))
    = (s2, inr calls)
    ∧ length calls = 6%nat.
Proof.
  set (o := Samples.options (Some "first") "" 0 50).
  apply (result_of_dispatched_fit_is_written (Samples.ivm Samples.img) o init
           (Samples.self_after_run Samples.img o)
           {| c_roi := Some Samples.first_voxel; c_img1 := Samples.img;
              c_t101 := Samples.ones; c_R1 := 1; c_R2 := 1; c_DelT := 1;
              c_InjT := Qc_of_Z 0; c_TR := 1; c_TE := 1; c_FA := 1;
              c_thresh := Qc_of_Z 50; c_model := 1; c_K := 1 |}
           (Samples.started Samples.img o).1 (Samples.started Samples.img o).2).
  - unfold configured. repeat split; vm_compute; reflexivity.
  - unfold on_one_grid. repeat split; vm_compute; (reflexivity || discriminate).
  - by vm_compute.
  - by vm_compute.
  - unfold Samples.self_after_run, Samples.started.
    destruct (run (Samples.ivm Samples.img) o init) as [s1 [e | [n a]]] eqn:Hrun;
      [vm_compute in Hrun; discriminate | reflexivity].
  - vm_compute. discriminate.
  - vm_compute. reflexivity.
  - vm_compute. reflexivity.
  - vm_compute. repeat constructor.
  - vm_compute. reflexivity.
  - vm_compute. repeat constructor.
Defined.

(** ** When [finished] writes nothing *)

(** X20.  With a percentile below 0 or above 100 [finished] raises and makes no
    [add_data] call. *)
Theorem percentile_out_of_range_writes_nothing (self : self_t) :
  status self = SUCCEEDED →
  thresh1val self < 0 ∨ Qc_of_Z 100 < thresh1val self →
  ∃ s2 e, finished self = (s2, inl e).
Proof.
  intros Hst Hq.
  destruct (finished self) as [s2 [e | calls]] eqn:Hfin; [eauto |].
  apply finished_inr in Hfin as (var1 & rest & m & pK & pkep & _ & _ & HpK & _);
    [| exact Hst].
  unfold np.percentile in HpK.
  destruct Hq as [Hq | Hq].
  - rewrite (bool_decide_eq_false_2 (0 ≤ thresh1val self)) in HpK
      by (by apply Qclt_not_le).
    discriminate.
  - rewrite (bool_decide_eq_false_2 (thresh1val self ≤ Qc_of_Z 100)) in HpK
      by (by apply Qclt_not_le).
    rewrite andb_false_r in HpK. discriminate.
Qed.

Lemma percentile_out_of_range_writes_nothing_witness :
  ∃ s2 e,
    finished (Samples.self_at_finish [Num.one; Num.one; Num.zero; Num.zero]
                Samples.img (Samples.options None "" 0 101)) = (s2, inl e).
Proof.
  apply percentile_out_of_range_writes_nothing.
  - reflexivity.
  - right. by vm_compute.
Defined.

(** ** The shapes of what [finished] writes *)

(** X21.  Every array [finished] stores has as many elements as its shape says:
    the five parameter maps have the shape of the image without its time
    axis, the model curves the shape of the image, and the mask has one
    entry for each voxel. *)
Theorem stored_volumes_are_well_shaped (self s2 : self_t)
    (calls : list add_data_call) :
  status self = SUCCEEDED →
  finished self = (s2, inr calls) →
  Forall (λ c, foldr Nat.mul 1%nat (np.shape (ad_data c))
               = length (np.flat (ad_data c))) calls
  ∧ (λ c, np.shape (ad_data c)) <$> calls
    = replicate 5 (removelast (shape self)) ++ [shape self]
  ∧ ∃ mask, roi1vec self = Some mask
            ∧ length mask = foldr Nat.mul 1%nat (removelast (shape self)).
Proof.
  intros Hst Hfin.
  apply finished_inr in Hfin
    as (var1 & rest & m & pK & pkep & _ & Hm & _ & _ & _ & Hsize & ->); [| exact Hst].
  pose proof Hm as Hm'.
  apply reconstruct_inr in Hm'
    as (mask & _ & _ & _ & _ & Hroi & _ & _ & _ & _ & _ & _ & _ & _
        & _ & _ & _ & _ & _ & T & sig & HT & Hne & _).
  destruct (reconstruct_sizes self var1 m mask Hm Hroi)
    as (HlK & Hlve & Hlkep & Hloff & Hlvp & Hlcurve).
  split; [| split; [reflexivity | exists mask; split; [done | lia]]].
  unfold add_data_calls, threshold.
  repeat constructor; cbn [ad_data np.shape np.flat]; rewrite ?length_fmap; try lia.
  rewrite Hlcurve, (app_removelast_last 0%nat Hne) at 1.
  rewrite foldr_mul_snoc. lia.
Qed.

Lemma stored_volumes_are_well_shaped_witness :
  ∃ s2 calls,
    finished (Samples.self_at_finish [Num.one; Num.one; Num.zero; Num.zero]
                Samples.img (Samples.options None "" 0 50)) = (s2, inr calls)
    ∧ (λ c, np.shape (ad_data c)) <$> calls
      = replicate 5 [2; 1; 1]%nat ++ [[2; 1; 1; 2]%nat].
Proof.
  destruct (finished (Samples.self_at_finish [Num.one; Num.one; Num.zero; Num.zero]
                        Samples.img (Samples.options None "" 0 50)))
    as [s2 [e | calls]] eqn:Hfin; [vm_compute in Hfin; discriminate |].
  destruct (stored_volumes_are_well_shaped
              (Samples.self_at_finish [Num.one; Num.one; Num.zero; Num.zero]
                 Samples.img (Samples.options None "" 0 50)) s2 calls)
    as (_ & Hshapes & _); [reflexivity | exact Hfin |].
  exists s2, calls. split; [reflexivity | exact Hshapes].
Defined.

(** ** The model curves *)

Lemma bindex_lt (n i : nat) : (i < n)%nat → bindex n i = i.
Proof. intros Hi. unfold bindex. case_bool_decide; lia. Qed.

Lemma tabulate_lookup (R C : nat) (f : nat → nat → num) (i t : nat) :
  (i < R)%nat → (t < C)%nat → (tabulate R C f !!! i) !!! t = f i t.
Proof.
  intros Hi Ht. unfold tabulate.
  rewrite (list_lookup_total_fmap (λ i, (λ t, f i t) <$> seq 0 C))
    by (by rewrite length_seq).
  rewrite lookup_total_seq_lt by done. cbn.
  rewrite (list_lookup_total_fmap (λ t, f i t)) by (by rewrite length_seq).
  by rewrite lookup_total_seq_lt.
Qed.

Lemma tabulate_ext (R C : nat) (f g : nat → nat → num) :
  (∀ i t, (i < R)%nat → (t < C)%nat → f i t = g i t) →
  tabulate R C f = tabulate R C g.
Proof.
  intros H. unfold tabulate. apply list_fmap_ext. intros k i Hk.
  apply lookup_seq in Hk as [-> Hi]. cbn.
  apply list_fmap_ext. intros k' t Hk'. apply lookup_seq in Hk' as [-> Ht]. cbn.
  by apply H.
Qed.

Lemma tabulate_S (R C : nat) (f : nat → nat → num) :
  tabulate (S R) C f = ((λ t, f 0%nat t) <$> seq 0 C) :: tabulate R C (λ i, f (S i)).
Proof.
  unfold tabulate. cbn [seq fmap list_fmap]. f_equal.
  rewrite <- fmap_S_seq, <- list_fmap_compose. reflexivity.
Qed.

Lemma fmap_seq_row (h : num → num) (row : list num) :
  (λ t, h (row !!! t)) <$> seq 0 (length row) = h <$> row.
Proof.
  induction row as [| x row IH]; [done |].
  cbn [length seq fmap list_fmap]. f_equal.
  rewrite <- fmap_S_seq, <- list_fmap_compose. exact IH.
Qed.

(** With one row for each baseline and nothing to broadcast, the table of
    line 201 is the row-wise product. *)
Lemma tabulate_rows_zip (fit : list (list num)) (bl : list num) (T : nat) :
  length fit = length bl →
  Forall (λ row : list num, length row = T) fit →
  tabulate (length fit) T (λ i t, ((fit !!! i) !!! t + Num.one) * (bl !!! i))%num
  = zip_with (λ (row : list num) (b : num), (λ x, (x + Num.one) * b)%num <$> row) fit bl.
Proof.
  intros Hlen Hrows. revert bl Hlen.
  induction Hrows as [| row fit Hrow _ IH]; intros [| b bl] Hlen; try done.
  cbn [length]. rewrite tabulate_S. cbn [zip_with]. f_equal.
  - rewrite <- Hrow. exact (fmap_seq_row (λ x, (x + Num.one) * b)%num row).
  - apply IH. cbn in Hlen. lia.
Qed.

Lemma reconstruct_curve (self : self_t) (var1 : fit_output) (m : maps_t) :
  reconstruct self var1 = inr m →
  ∃ mask bl fcurve sig,
    roi1vec self = Some mask ∧ baseline self = Some bl
    ∧ operand (fcurve1 var1) = inr fcurve
    ∧ broadcast2 Num.mul (map2 (λ x, x + Num.one)%num fcurve)
        (tile bl (List.last (shape self) 0%nat)) = inr sig
    ∧ estimated_curve1 m
      = np.scatter (replicate (List.last (shape self) 0%nat) Num.zero) mask
          (tabulate (np.count_true mask) (List.last (shape self) 0%nat) (at2 sig)).
Proof.
  unfold reconstruct. intros H.
  exn_step H as roi1v Hroi. exn_step H as c0 Hc0. exn_step H as Ktrans HK.
  exn_step H as c1 Hc1. exn_step H as ve Hve. exn_step H as kep1p Hkep.
  exn_step H as c2 Hc2. exn_step H as offset Hoff. exn_step H as c3 Hc3.
  exn_step H as vp Hvp. exn_step H as T HT. exn_step H as bl Hbl.
  exn_step H as fcurve Hfcurve. exn_step H as sig Hsig.
  exn_step H as curve Hcurve. exn_step H as residual Hres.
  injection H as <-. cbn [estimated_curve1].
  destruct (roi1vec self) as [mask |]; [injection Hroi as -> | discriminate].
  destruct (baseline self) as [bl' |]; [injection Hbl as -> | discriminate].
  apply setitem_rows_inr in Hcurve as (_ & _ & ->).
  assert (List.last (shape self) 0%nat = T) as ->.
  { destruct (shape self) as [| n sh] using rev_ind; [discriminate |].
    rewrite last_last. rewrite last_snoc_Some in HT. by injection HT. }
  exists roi1v, bl, fcurve, sig. done.
Qed.

(** Line 201 on a matrix of fitted curves with one row for each baseline
    and [T] columns. *)
Lemma signal_rows (fit : list (list num)) (bl : list num) (T : nat)
    (fcurve sig : array2) :
  length fit = length bl →
  Forall (λ row : list num, length row = T) fit →
  operand fit = inr fcurve →
  broadcast2 Num.mul (map2 (λ x, x + Num.one)%num fcurve) (tile bl T) = inr sig →
  tabulate (length bl) T (at2 sig)
  = zip_with (λ (row : list num) (b : num), (λ x, (x + Num.one) * b)%num <$> row) fit bl.
Proof.
  intros Hlen Hrows Hop Hsig.
  destruct (decide (fit = [])) as [-> | Hne].
  { destruct bl; [reflexivity | discriminate]. }
  rewrite (operand_ok fit T Hne Hrows) in Hop. injection Hop as <-.
  unfold broadcast2, map2, tile in Hsig. cbn [dim0 dim1 entries] in Hsig.
  rewrite <- Hlen, !bdim_same in Hsig. injection Hsig as <-.
  rewrite <- (tabulate_rows_zip fit bl T Hlen Hrows), <- Hlen.
  apply tabulate_ext. intros i t Hi Ht.
  unfold at2. cbn [dim0 dim1 entries].
  rewrite !bindex_lt, tabulate_lookup by done.
  rewrite !bindex_lt by done. unfold mat_map, tile_columns.
  assert (length (fit !!! i) = T) as Hrow.
  { destruct (lookup_lt_is_Some_2 fit i Hi) as [row Hr].
    rewrite (list_lookup_total_correct _ _ _ Hr).
    by eapply (Forall_lookup_1 _ _ _ _ Hrows). }
  rewrite (list_lookup_total_fmap (λ row : list num, (λ x, x + Num.one)%num <$> row))
    by done.
  rewrite (list_lookup_total_fmap (λ x, x + Num.one)%num) by (by rewrite Hrow).
  rewrite (list_lookup_total_fmap (λ b, replicate T b)) by (by rewrite <- Hlen).
  by rewrite lookup_total_replicate_2.
Qed.

Lemma rows_concat (l : list (list num)) (T : nat) :
  Forall (λ row : list num, length row = T) l →
  np.rows (length l) T (concat l) = l.
Proof.
  induction 1 as [| row l Hrow _ IH]; cbn; [done |].
  rewrite take_app_length', drop_app_length' by done. by rewrite IH.
Qed.

(** X22.  When the worker's fitted curves have one row for each masked voxel
    and one column for each time point, and [self] holds one baseline for
    each masked voxel, the stored model curves, read back as one row for
    each voxel, hold at the masked voxels, in mask order, the fitted curves
    plus one times the baseline of their voxel. *)
Theorem model_curves_are_fit_times_baseline (self s2 : self_t)
    (calls : list add_data_call) (var1 : fit_output) (mask : list bool)
    (bl : list num) :
  status self = SUCCEEDED →
  finished self = (s2, inr calls) →
  head (output self) = Some var1 →
  roi1vec self = Some mask →
  baseline self = Some bl →
  length bl = np.count_true mask →
  length (fcurve1 var1) = np.count_true mask →
  Forall (λ row : list num, length row = List.last (shape self) 0%nat) (fcurve1 var1) →
  ∃ curves,
    ad_data <$> calls !! 5%nat = Some curves
    ∧ np.select mask
        (np.rows (length mask) (List.last (shape self) 0%nat) (np.flat curves))
      = zip_with (λ (row : list num) (b : num),
                    (λ x, (x + Num.one) * b)%num <$> row) (fcurve1 var1) bl.
Proof.
  intros Hst Hfin Hout Hmask Hbl Hlbl Hlfit Hrows.
  apply finished_inr in Hfin
    as (var1' & rest & m & pK & pkep & Hout' & Hm & _ & _ & _ & _ & ->); [| exact Hst].
  rewrite Hout' in Hout. injection Hout as ->.
  apply reconstruct_curve in Hm
    as (mask' & bl' & fcurve & sig & Hmask' & Hbl' & Hop & Hsig & Hcurve).
  rewrite Hmask in Hmask'. injection Hmask' as <-.
  rewrite Hbl in Hbl'. injection Hbl' as <-.
  eexists. split; [reflexivity |]. cbn [ad_data np.flat]. rewrite Hcurve.
  set (T := List.last (shape self) 0%nat) in *.
  set (sigrows := tabulate (np.count_true mask) T (at2 sig)).
  rewrite <- (scatter_length (replicate T Num.zero) mask sigrows) at 1.
  rewrite rows_concat
    by (apply scatter_Forall; [apply length_replicate | apply tabulate_rows]).
  rewrite select_scatter by apply tabulate_length.
  unfold sigrows. rewrite <- Hlbl.
  apply (signal_rows _ _ _ fcurve sig); [lia | done | done | done].
Qed.

Lemma model_curves_are_fit_times_baseline_witness :
  ∃ s2 calls curves,
    finished (Samples.self_at_finish [Num.one; Num.one; Num.zero; Num.zero]
                Samples.img (Samples.options None "" 0 50)) = (s2, inr calls)
    ∧ ad_data <$> calls !! 5%nat = Some curves
    ∧ np.rows 2 2 (np.flat curves) = [[Num.one; Num.one]; [Num.two; Num.two]].
Proof.
  set (row := [Num.one; Num.one; Num.zero; Num.zero]).
  set (o := Samples.options None "" 0 50).
  destruct (finished (Samples.self_at_finish row Samples.img o))
    as [s2 [e | calls]] eqn:Hfin; [vm_compute in Hfin; discriminate |].
  destruct (model_curves_are_fit_times_baseline
              (Samples.self_at_finish row Samples.img o) s2 calls
              (Samples.fitted row Samples.img o) [true; true] [Num.one; Num.two])
    as (curves & Hcurves & Hsel);
    [reflexivity | exact Hfin | vm_compute; reflexivity | vm_compute; reflexivity
    | compute_done | reflexivity | vm_compute; reflexivity
    | vm_compute; repeat constructor |].
  exists s2, calls, curves. split; [reflexivity |]. split; [exact Hcurves |].
  assert (np.select [true; true]
            (np.rows 2 2 (np.flat curves)) = np.rows 2 2 (np.flat curves)) as Hid
    by reflexivity.
  change (length [true; true]) with 2%nat in Hsel.
  change (List.last (shape (Samples.self_at_finish row Samples.img o)) 0%nat)
    with 2%nat in Hsel.
  rewrite Hid in Hsel. rewrite Hsel. compute_done.
Defined.

(** ** The progress reported by the worker *)

Lemma rising_app (lo : num) (q1 q2 : queue) :
  rising lo (q1 ++ q2) ↔ rising lo q1 ∧ rising (last_pct lo q1) q2.
Proof.
  revert lo. induction q1 as [| [r p] q1 IH]; intros lo; cbn; [tauto |].
  rewrite IH. tauto.
Qed.

Lemma last_pct_app (lo : num) (q1 q2 : queue) :
  last_pct lo (q1 ++ q2) = last_pct (last_pct lo q1) q2.
Proof. revert lo. induction q1 as [| [r p] q1 IH]; intros lo; cbn; [done | apply IH]. Qed.

Lemma steps1_below_100 (N : nat) : (0 < N)%nat → (1 ≤ steps1 N < 100)%Z.
Proof.
  intros HN.
  assert (1 ≤ size_step N)%Z as Hsize by (unfold size_step; lia).
  assert (2 * Z.of_nat N - 5 ≤ 10 * size_step N ∧ size_step N ≤ Z.of_nat N)%Z
    as [Hbig HsizeN].
  { unfold size_step.
    destruct (around_div_bounds (Z.of_nat N) 5) as [H1 H2]; lia. }
  destruct (around_div_bounds (Z.of_nat N) (size_step N)) as [Hlo Hhi]; [lia |].
  fold (steps1 N) in Hlo, Hhi. split; nia.
Qed.

Lemma pct_pos (z : Z) : (0 < z)%Z → 0 < Qc_of_Z z.
Proof. intros Hz. rewrite <- Z2Qc_inj_0. apply (proj1 (Z2Qc_inj_lt _ _)). lia. Qed.

Lemma pct_mono (a b steps : Z) :
  (0 < steps)%Z → (a < b)%Z →
  Qc_of_Z a / Qc_of_Z steps * Qc_of_Z 100 < Qc_of_Z b / Qc_of_Z steps * Qc_of_Z 100.
Proof.
  intros Hs Hab.
  apply (proj1 (Qcmult_lt_mono_pos_r _ _ _ (pct_pos 100 ltac:(lia)))).
  apply (proj1 (Qcmult_lt_mono_pos_r _ _ _ (Qcinv_pos _ (pct_pos steps Hs)))).
  apply (proj1 (Z2Qc_inj_lt _ _)). exact Hab.
Qed.

Lemma pct_full (steps : Z) :
  (0 < steps)%Z → Qc_of_Z steps / Qc_of_Z steps * Qc_of_Z 100 = Qc_of_Z 100.
Proof.
  intros Hs. field. intros Hz. pose proof (pct_pos steps Hs) as Hp.
  rewrite Hz in Hp. by apply Qclt_not_eq in Hp.
Qed.

Lemma pct_first (steps : Z) :
  (0 < steps < 100)%Z → 1 < Qc_of_Z 1 / Qc_of_Z steps * Qc_of_Z 100.
Proof.
  intros Hs.
  assert (Qc_of_Z steps ≠ 0) as Hnz.
  { intros Hz. pose proof (pct_pos steps ltac:(lia)) as Hp.
    rewrite Hz in Hp. by apply Qclt_not_eq in Hp. }
  apply (proj2 (Qcmult_lt_mono_pos_r _ _ _ (pct_pos steps ltac:(lia)))).
  replace (Qc_of_Z 1 / Qc_of_Z steps * Qc_of_Z 100 * Qc_of_Z steps)
    with (Qc_of_Z 100) by (rewrite Z2Qc_inj_1; field; exact Hnz).
  rewrite Qcmult_1_l. apply (proj1 (Z2Qc_inj_lt _ _)). lia.
Qed.

Section WorkerRising.

Context {pk : Type} (Pk : PyPk_class pk).

(** From iteration [ii] on the loop puts rising percentages below 100:
    [l] is the last percentage put before. *)
Lemma run_chunks_rising (steps size : Z) :
  (0 < steps < 100)%Z →
  ∀ todo ii Pkclass log q q' r (l : Qc),
    (Z.of_nat (ii + todo) ≤ steps)%Z →
    l < Qc_of_Z (Z.of_nat (Nat.max ii 1)) / Qc_of_Z steps * Qc_of_Z 100 →
    l < Qc_of_Z 100 →
    run_chunks Pk Num.one steps size todo ii Pkclass log q = (q', r) →
    ∃ added l', q' = q ++ added ∧ rising (Fin l) added
                ∧ last_pct (Fin l) added = Fin l' ∧ l' < Qc_of_Z 100.
Proof.
  intros Hsteps. induction todo as [| todo IH];
    intros ii Pkclass log q q' r l Hle Hl Hl100 Hrun.
  - cbn in Hrun. injection Hrun as <- <-. exists [], l. by rewrite app_nil_r.
  - rewrite run_chunks_step in Hrun. cbn zeta in Hrun.
    set (p := Qc_of_Z (Z.of_nat ii) / Qc_of_Z steps * Qc_of_Z 100) in *.
    assert (p < Qc_of_Z 100) as Hp100.
    { rewrite <- (pct_full steps) by lia. apply pct_mono; lia. }
    assert (p < Qc_of_Z (Z.of_nat (Nat.max (S ii) 1)) / Qc_of_Z steps * Qc_of_Z 100)
      as Hpnext by (apply pct_mono; lia).
    case_bool_decide as Hii.
    + assert (l < p) as Hlp by (by replace (Nat.max ii 1) with ii in Hl by lia).
      destruct (pk_run Pk size Pkclass) as [e | [P' l0]].
      * injection Hrun as <- <-. exists [(Num.one, Fin p)], p. cbn.
        rewrite bool_decide_eq_true_2 by exact Hlp. done.
      * apply (IH _ _ _ _ _ _ p) in Hrun as (added & l' & -> & Hrise & Hlast & Hl');
          [| lia | exact Hpnext | exact Hp100].
        exists ((Num.one, Fin p) :: added), l'. rewrite <- app_assoc. cbn.
        rewrite bool_decide_eq_true_2 by exact Hlp. done.
    + assert (ii = 0%nat) as -> by lia.
      destruct (pk_run Pk size Pkclass) as [e | [P' l0]].
      * injection Hrun as <- <-. exists [], l. by rewrite app_nil_r.
      * apply (IH _ _ _ _ _ _ l) in Hrun as (added & l' & -> & Hrise & Hlast & Hl');
          [| lia | exact Hl | exact Hl100].
        exists added, l'. done.
Qed.

Lemma run_pk_body_rising a q q' r :
  run_pk_body Pk a q = (q', r) → ∃ added, q' = q ++ added ∧ rising Num.zero added.
Proof.
  intros Hrun.
  destruct (decide (length (img1sub a) = 0%nat)) as [Hz | Hnz].
  { unfold run_pk_body in Hrun. rewrite bool_decide_eq_true_2 in Hrun by exact Hz.
    injection Hrun as <- <-. exists []. by rewrite app_nil_r. }
  destruct (pk_setup Pk a) as [e | [Pkclass log]] eqn:Hsetup.
  { unfold run_pk_body in Hrun. rewrite bool_decide_eq_false_2 in Hrun by exact Hnz.
    rewrite M_bind_unfold in Hrun. unfold lift in Hrun. rewrite Hsetup in Hrun.
    injection Hrun as <- <-. exists []. by rewrite app_nil_r. }
  rewrite (run_pk_body_unfold Pk a q Pkclass log Hnz Hsetup) in Hrun. cbn zeta in Hrun.
  destruct (steps1_below_100 (length (img1sub a))) as [Hs1 Hs100]; [lia |].
  destruct (run_chunks _ _ _ _ _ _ _ _ _) as [q1 r1] eqn:Hchunks.
  assert (0 < steps1 (length (img1sub a)) < 100)%Z as Hsteps by lia.
  apply (run_chunks_rising _ _ Hsteps _ _ _ _ _ _ _ 1) in Hchunks
    as (added & l' & -> & Hrise & Hlast & Hl');
    [| lia | by apply pct_first | compute_done].
  assert (rising Num.zero ((Num.one, Num.one) :: added)) as Hpre.
  { cbn. split; [compute_done | exact Hrise]. }
  rewrite <- app_assoc in Hrun. cbn [app] in Hrun.
  destruct r1 as [e | [P' log']].
  { injection Hrun as <- <-. eauto. }
  destruct (get_residual Pk P'); [injection Hrun as <- <-; eauto |].
  destruct (get_fitted_curve Pk P'); [injection Hrun as <- <-; eauto |].
  destruct (get_parameters Pk P'); [injection Hrun as <- <-; eauto |].
  injection Hrun as <- <-. rewrite <- app_assoc.
  eexists. split; [reflexivity |].
  change ((Num.one, Num.one) :: added) with ([(Num.one, Num.one)] ++ added).
  rewrite <- app_assoc. apply rising_app. split; [cbn; split; [compute_done | done] |].
  apply rising_app. cbn [last_pct]. split; [exact Hrise |].
  change (last_pct Num.one added) with (last_pct (Fin 1) added).
  rewrite Hlast. cbn. unfold Num.of_Z. cbn.
  by rewrite bool_decide_eq_true_2 by exact Hl'.
Qed.

(** X24.  The percentages the worker puts into the queue rise strictly, whether
    it succeeds or fails: the progress reported never goes back or stalls. *)
Theorem worker_progress_rises (worker_id : nat) (q : queue) (a : fit_args) :
  ∃ added, (_run_pk Pk worker_id q a).1 = q ++ added ∧ rising Num.zero added.
Proof.
  unfold _run_pk. destruct (run_pk_body Pk a q) as [q1 r1] eqn:Hbody.
  apply run_pk_body_rising in Hbody as (added & -> & Hrise).
  destruct r1; eauto.
Qed.

End WorkerRising.
